(** * Arduino Solar Diverter Plus: a shallow embedding of the control core

    The development follows the headers of the sketch:
    - [radio.h]     : [Radio::begin], [Radio::send], [Radio::sendGmomxen]
    - [countTime.h] : [CountTime::begin], [CountTime::update]
    - [simul.h]     : the settings read by the sampler and the signal processor,
                      [Simul::receiveValues]
    - [measure.h]   : [Measure::setADCprescaler], [Measure::getCycle]
    - [values.h]    : [Values::begin], [Values::compute]
    - [loads.h]     : [Loads::add], [Loads::decide], [Loads::activate]
    - [credits.h]   : [Credits::getFileName]
    - [display.h]   : [Display::begin], [Display::show]

    The target named by the sources is an Arduino Mega 2560 (AVR): [int] is
    16 bits wide, [long] and [unsigned long] are 32 bits wide, and both
    [float] and [double] are IEEE-754 binary32.  Integers are modelled in [Z]
    with the wrap-around written out; floating-point numbers are modelled by
    the Standard Library's [spec_float] at precision 24 and maximal exponent
    128, so every definition below can be evaluated. *)

From Stdlib Require Import ZArith Lia Bool Ascii String List.
From Stdlib Require Import Floats.SpecFloat.
From stdpp Require Import base list strings pretty.

Local Open Scope Z_scope.

(** ** Machine integers of the AVR target *)

Module CInt.

(** Two's complement reduction to [w] bits. *)
Definition wrap (w : Z) (z : Z) : Z :=
  (z + 2 ^ (w - 1)) mod 2 ^ w - 2 ^ (w - 1).

(** [int] (16 bits), [long] (32 bits), [unsigned long] (32 bits). *)
Definition int (z : Z) : Z := wrap 16 z.
Definition long (z : Z) : Z := wrap 32 z.
Definition ulong (z : Z) : Z := z mod 2 ^ 32.

Definition INT_MIN : Z := - 2 ^ 15.
Definition INT_MAX : Z := 2 ^ 15 - 1.
Definition LONG_MIN : Z := - 2 ^ 31.
Definition LONG_MAX : Z := 2 ^ 31 - 1.

Definition is_int (z : Z) : Prop := INT_MIN <= z <= INT_MAX.
Definition int_ok (z : Z) : bool := (INT_MIN <=? z) && (z <=? INT_MAX).
Definition is_long (z : Z) : Prop := LONG_MIN <= z <= LONG_MAX.

End CInt.

(** ** IEEE-754 binary32, the [float] of the target *)

Module F32.

Definition prec : Z := 24.
Definition emax : Z := 128.

Definition float : Type := spec_float.

Definition add : float -> float -> float := SFadd prec emax.
Definition sub : float -> float -> float := SFsub prec emax.
Definition mul : float -> float -> float := SFmul prec emax.
Definition div : float -> float -> float := SFdiv prec emax.
Definition sqrt : float -> float := SFsqrt prec emax.
Definition opp : float -> float := SFopp.

(** The comparison operators of C: every comparison with a NaN is false. *)
Definition ltb : float -> float -> bool := SFltb.
Definition leb : float -> float -> bool := SFleb.
Definition gtb (x y : float) : bool := SFltb y x.
Definition geb (x y : float) : bool := SFleb y x.

(** Conversion of an integer value to [float] (round to nearest even). *)
Definition of_Z (z : Z) : float := binary_normalize prec emax z 0 false.

(** A decimal literal [n / d], correctly rounded. *)
Definition lit (n d : Z) : float := div (of_Z n) (of_Z d).

Definition zero : float := S754_zero false.
Definition one : float := Eval vm_compute in of_Z 1.

Definition is_nan (x : float) : bool :=
  match x with S754_nan => true | _ => false end.

(** The function-like macros of [Arduino.h], with their argument
    duplication:
    [abs(x) ((x)>0?(x):-(x))], [min(a,b) ((a)<(b)?(a):(b))],
    [max(a,b) ((a)>(b)?(a):(b))] and
    [constrain(amt,low,high)
       ((amt)<(low)?(low):((amt)>(high)?(high):(amt)))]. *)
Definition abs (x : float) : float := if gtb x zero then x else opp x.
Definition min (a b : float) : float := if ltb a b then a else b.
Definition max (a b : float) : float := if gtb a b then a else b.
Definition constrain (amt low high : float) : float :=
  if ltb amt low then low else if gtb amt high then high else amt.

(** [lo <= x <= hi] in the order of the floating-point numbers. *)
Definition between (lo hi x : float) : Prop :=
  leb lo x = true /\ leb x hi = true.

(** [x] is a zero or a finite binary32 number, of magnitude below [2 ^ k]. *)
Definition below (k : Z) (x : float) : bool :=
  match x with
  | S754_zero _ => true
  | S754_finite _ m e => bounded prec emax m e && (Zpos (digits2_pos m) + e <=? k)
  | _ => false
  end.

(** [x] is a finite binary32 number whose magnitude is at least
    [2 ^ (j - 1)] and below [2 ^ k]. *)
Definition within (j k : Z) (x : float) : bool :=
  match x with
  | S754_finite _ m e =>
      bounded prec emax m e &&
      (j <=? Zpos (digits2_pos m) + e) && (Zpos (digits2_pos m) + e <=? k)
  | _ => false
  end.

(** [x] is a number and carries the sign [s]. *)
Definition sign_is (s : bool) (x : float) : Prop :=
  match x with
  | S754_zero s' | S754_infinity s' | S754_finite s' _ _ => s' = s
  | S754_nan => False
  end.

(** The operator [==] of C. *)
Definition eqb : float -> float -> bool := SFeqb.

(** [x] is one of the two zeroes. *)
Definition is_zero (x : float) : bool :=
  match x with S754_zero _ => true | _ => false end.

(** [x] is a finite number above zero. *)
Definition is_positive (x : float) : bool :=
  match x with S754_finite false _ _ => true | _ => false end.

(** [x] and [y] are the same datum: same class, sign, mantissa and
    exponent. *)
Definition same (x y : float) : bool :=
  match x, y with
  | S754_zero a, S754_zero b | S754_infinity a, S754_infinity b => Bool.eqb a b
  | S754_nan, S754_nan => true
  | S754_finite a m e, S754_finite b n f => Bool.eqb a b && Pos.eqb m n && Z.eqb e f
  | _, _ => false
  end.

End F32.


#[global] Instance spec_float_inhabited : Inhabited spec_float :=
  populate (S754_zero false).

(** ** Arrays

    The classes keep fixed-capacity C arrays.  They are lists here; a read
    [a[i]] is [get d a i] and a write [a[i] = v] is [set a i v], with the
    index an [int].  Reads and writes outside the array are undefined in the
    source: the model returns the default [d] and leaves the array as it is. *)

Definition get {A : Type} (d : A) (a : list A) (i : Z) : A :=
  if i <? 0 then d else default d (a !! Z.to_nat i).

Definition set {A : Type} (a : list A) (i : Z) (v : A) : list A :=
  if i <? 0 then a else <[Z.to_nat i := v]> a.

(** The indices [0 .. n - 1] visited by [for(i=0; i<n; i++)]. *)
Definition indices (n : Z) : list Z := map Z.of_nat (seq 0 (Z.to_nat n)).

(** A test made on every value of type [int], high byte by high byte. *)
Definition all_ints (check : Z -> bool) : bool :=
  forallb (fun hi => forallb (fun lo => check (256 * hi + lo - 32768)) (indices 256))
          (indices 256).

(** ** Pins and the outside world *)

Inductive level : Type := LOW | HIGH.

Inductive pin_mode : Type := INPUT | OUTPUT | INPUT_PULLUP.

(** What the sketch does to the outside world, in the order it does it.  The
    text of the log lines is fixed by the data recorded in the event. *)
Inductive event : Type :=
  | EvPinMode (pin : Z) (m : pin_mode)
  | EvDigitalWrite (pin : Z) (l : level)
  | EvPulse (pin : Z) (l : level) (duration_us : Z)
  | EvWait (duration_us : Z)
  | EvLogChange (hhmmss name : string) (is_on : bool)
      (PgFilt PcFilt excedent Margin : F32.float) (cause : string)
  | EvLogRefresh (hhmmss name : string) (is_on : bool).

(** ** radio.h *)

Module Radio.

Inductive RadioHW : Type := NO_RADIO | RADIO_GMOMXEN.

#[global] Instance RadioHW_eq_dec : EqDecision RadioHW.
Proof. solve_decision. Defined.

#[global] Instance RadioHW_inhabited : Inhabited RadioHW := populate NO_RADIO.

Record t : Type := { gpioRadio : Z }.

Definition begin (pinRadio : Z) : t * list event :=
  ({| gpioRadio := pinRadio |},
   [EvPinMode pinRadio OUTPUT; EvDigitalWrite pinRadio LOW]).

(** Constants for radio Gmomxen. *)
Definition HIGH_SHORT_US : Z := 591.
Definition LOW_LONG_US : Z := 1263.
Definition HIGH_LONG_US : Z := 1190.
Definition LOW_SHORT_US : Z := 665.
Definition WAIT_REPEAT_US : Z := 7000.
Definition NUM_REPEATS : nat := 5.
Definition N_CHANNELS : Z := 3.

(** The cloned codes, [(Off code, On code)] per channel. *)
Definition codes : list (string * string) :=
  [ ("100000011011010000110100000000000", "100011101011010000110100000000000");
    ("101011101011010000110100000000000", "101001101011010000110100000000000");
    ("100111101011010000110100000000000", "100101101011010000110100000000000") ]%string.

Definition code_of (channel : Z) (setOn : bool) : string :=
  let row := get (EmptyString, EmptyString) codes channel in
  if setOn then snd row else fst row.

(** One bit of the code: a HIGH pulse then a LOW pulse. *)
Definition send_bit (r : t) (c : Ascii.ascii) : list event :=
  if Ascii.eqb c "0"%char
  then [EvPulse (gpioRadio r) HIGH HIGH_SHORT_US; EvPulse (gpioRadio r) LOW LOW_LONG_US]
  else [EvPulse (gpioRadio r) HIGH HIGH_LONG_US; EvPulse (gpioRadio r) LOW LOW_SHORT_US].

Definition send_code (r : t) (bitsCode : string) : list event :=
  EvWait WAIT_REPEAT_US :: concat (map (send_bit r) (list_ascii_of_string bitsCode)).

(** [Radio::sendGmomxen].  The only [return] of the function is the range
    check; after the repetitions control reaches the closing brace without
    a value, which is [None] here. *)
Definition sendGmomxen (r : t) (channel : Z) (setToOn : bool)
  : option Z * list event :=
  if (channel <? 1) || (channel >? N_CHANNELS) then (Some (-2), [])
  else
    let channel := channel - 1 in
    let bitsCode := code_of channel setToOn in
    (None, concat (replicate NUM_REPEATS (send_code r bitsCode))).

(** [Radio::send].  The [case RADIO_GMOMXEN] block has no [break], so the
    statements under [default] run after it as well. *)
Definition send (r : t) (radioType : RadioHW) (channel : Z) (setToOn : bool)
  : Z * list event :=
  let ret : option Z := Some 0 in
  let '(ret, tx) :=
    match radioType with
    | RADIO_GMOMXEN => sendGmomxen r channel setToOn
    | _ => (ret, [])
    end in
  let ret := -1 in
  (ret, tx).

(** The time taken by a sequence of operations of the transmitter: the
    pulses ([digitalWrite] followed by [delayMicroseconds]) and the waits. *)
Definition event_us (e : event) : Z :=
  match e with
  | EvPulse _ _ d | EvWait d => d
  | _ => 0
  end.

Definition duration_us (out : list event) : Z :=
  fold_right (fun e acc => event_us e + acc) 0 out.

(** The operation is a wait or a pulse on the pin [pin]. *)
Definition keys_pin (pin : Z) (e : event) : Prop :=
  match e with
  | EvPulse p _ _ => p = pin
  | EvWait _ => True
  | _ => False
  end.

End Radio.

(** ** countTime.h *)

Module CountTime.

Record t : Type := {
  lastTime : Z;            (* unsigned long: when the previous second elapsed *)
  hours : Z;
  minutes : Z;
  seconds : Z;
  hhmmss : string;
  flagOneSec : bool;
  decidePeriod_s : Z;
  countDecide_s : Z;
  flagDecide : bool;
  refreshPeriod_s : Z;
  varRefreshPeriod_s : Z;
  countRefresh_s : Z;
  flagRefresh : bool;
  prevLoopStart_us : Z;    (* unsigned long *)
  loopTime_us : Z          (* unsigned long *)
}.

(** The member initialisers of the class. *)
Definition init : t := {|
  lastTime := 0; hours := 0; minutes := 0; seconds := 0;
  hhmmss := EmptyString;
  flagOneSec := false;
  decidePeriod_s := 5; countDecide_s := 5; flagDecide := false;
  refreshPeriod_s := 30; varRefreshPeriod_s := 5; countRefresh_s := 30;
  flagRefresh := false;
  prevLoopStart_us := 0; loopTime_us := 0 |}.

(** [random(howsmall, howbig)] of the Arduino core, on [long]s:
    [if (howsmall >= howbig) return howsmall;
     diff = howbig - howsmall; return random(diff) + howsmall;]
    with [random(howbig)] being [0] when [howbig == 0] and
    [random() % howbig] otherwise.  [rnd] is the value drawn from the
    generator of the C library, which lies in [0 .. RANDOM_MAX]. *)
Definition RANDOM_MAX : Z := 2 ^ 31 - 1.

Definition random1 (rnd : Z) (howbig : Z) : Z :=
  if howbig =? 0 then 0 else Z.rem rnd howbig.

Definition random (rnd : Z) (howsmall howbig : Z) : Z :=
  if howsmall >=? howbig then howsmall
  else
    let diff := CInt.long (howbig - howsmall) in
    CInt.long (random1 rnd diff + howsmall).

(** The conversion ["%02d"] of [snprintf]. *)
Definition fmt02d (z : Z) : string :=
  let s := pretty z in
  if (String.length s <? 2)%nat then String "0" s else s.

(** [snprintf_P(hhmmss,14,PSTR("%02d:%02d:%02d"), ...)]: at most 13
    characters are stored. *)
Definition fmt_hhmmss (h m s : Z) : string :=
  substring 0 13 (fmt02d h +:+ ":" +:+ fmt02d m +:+ ":" +:+ fmt02d s).

(** [CountTime::begin]; [now_ms] is the reading of [millis()]. *)
Definition begin (setDecidePeriod_s setRefreshPeriod_s setVarRefreshPeriod_s : Z)
    (now_ms : Z) (c : t) : t :=
  {| lastTime := now_ms;
     hours := hours c; minutes := minutes c; seconds := seconds c;
     hhmmss := "00:00:00";
     flagOneSec := flagOneSec c;
     decidePeriod_s := setDecidePeriod_s;
     countDecide_s := setDecidePeriod_s;
     flagDecide := flagDecide c;
     refreshPeriod_s := setRefreshPeriod_s;
     varRefreshPeriod_s := setVarRefreshPeriod_s;
     countRefresh_s := setRefreshPeriod_s;
     flagRefresh := flagRefresh c;
     prevLoopStart_us := prevLoopStart_us c;
     loopTime_us := loopTime_us c |}.

(** The clock part of [update]: [seconds++] with the roll-over to minutes
    and hours. *)
Definition tick (h m s : Z) : Z * Z * Z :=
  let s := CInt.int (s + 1) in
  if s >=? 60 then
    let s := 0 in
    let m := CInt.int (m + 1) in
    if m >=? 60 then (CInt.int (h + 1), 0, s) else (h, m, s)
  else (h, m, s).

(** The decide countdown: [(countDecide_s, flagDecide)] after the step. *)
Definition step_decide (c : t) : Z * bool :=
  let cd := CInt.int (countDecide_s c - 1) in
  if cd <=? 0 then (decidePeriod_s c, true) else (cd, false).

(** The refresh countdown: [(countRefresh_s, flagRefresh)] after the step.
    The sum of an [int] and a [long] is a [long], stored into an [int]. *)
Definition step_refresh (rnd : Z) (c : t) : Z * bool :=
  let cr := CInt.int (countRefresh_s c - 1) in
  if cr <=? 0 then
    let jitter :=
      random rnd (CInt.int (- varRefreshPeriod_s c)) (varRefreshPeriod_s c) in
    (CInt.int (CInt.long (refreshPeriod_s c + jitter)), true)
  else (cr, false).

(** [CountTime::update].  [now_us] and [now_ms] are the readings of
    [micros()] and [millis()], [rnd] the next draw of the generator. *)
Definition update (now_us now_ms rnd : Z) (c : t) : t :=
  let loopTime := CInt.ulong (now_us - prevLoopStart_us c) in
  if CInt.ulong (now_ms - lastTime c) <? 1000 then
    {| lastTime := lastTime c;
       hours := hours c; minutes := minutes c; seconds := seconds c;
       hhmmss := hhmmss c;
       flagOneSec := false;
       decidePeriod_s := decidePeriod_s c;
       countDecide_s := countDecide_s c;
       flagDecide := false;
       refreshPeriod_s := refreshPeriod_s c;
       varRefreshPeriod_s := varRefreshPeriod_s c;
       countRefresh_s := countRefresh_s c;
       flagRefresh := false;
       prevLoopStart_us := now_us;
       loopTime_us := loopTime |}
  else
    let '(h, m, s) := tick (hours c) (minutes c) (seconds c) in
    let '(cd, fd) := step_decide c in
    let '(cr, fr) := step_refresh rnd c in
    {| lastTime := CInt.ulong (lastTime c + 1000);
       hours := h; minutes := m; seconds := s;
       hhmmss := fmt_hhmmss h m s;
       flagOneSec := true;
       decidePeriod_s := decidePeriod_s c;
       countDecide_s := cd;
       flagDecide := fd;
       refreshPeriod_s := refreshPeriod_s c;
       varRefreshPeriod_s := varRefreshPeriod_s c;
       countRefresh_s := cr;
       flagRefresh := fr;
       prevLoopStart_us := now_us;
       loopTime_us := loopTime |}.

(** The refresh countdown fires in this call of [update]. *)
Definition refresh_fires (now_ms : Z) (c : t) : Prop :=
  CInt.ulong (now_ms - lastTime c) >= 1000 /\ CInt.int (countRefresh_s c - 1) <= 0.

(** *** Sequences of calls *)

(** What one call of [update] reads: [micros()], [millis()] and the draw
    of the generator. *)
Record reading : Type := { now_us : Z; now_ms : Z; rnd : Z }.

Definition update_with (r : reading) (c : t) : t :=
  update (now_us r) (now_ms r) (rnd r) c.

(** The calls of [update] of successive loop iterations. *)
Definition run (rs : list reading) (c : t) : t :=
  fold_left (fun c r => update_with r c) rs c.

(** The number of calls of the run in which a second was counted. *)
Fixpoint seconds_counted (rs : list reading) (c : t) : Z :=
  match rs with
  | [] => 0
  | r :: rs' =>
      let c' := update_with r c in
      (if flagOneSec c' then 1 else 0) + seconds_counted rs' c'
  end.

(** The time shown by the clock, in seconds. *)
Definition clock_s (c : t) : Z := hours c * 3600 + minutes c * 60 + seconds c.

(** The clock shows a time of day with the hours in the range of [int]. *)
Definition clock_ok (c : t) : Prop :=
  0 <= seconds c < 60 /\ 0 <= minutes c < 60 /\ 0 <= hours c <= CInt.INT_MAX.

End CountTime.

(** ** simul.h and measure.h: the inputs of the signal processor *)

Module Simul.

(** The simulation settings that [Measure::getCycle] and [Values::compute]
    read; the table of sines and the print selector are left out. *)
Inductive SimulMode : Type := NO_SIMUL | SIMUL_ANALOG | SIMUL_POWER.

#[global] Instance SimulMode_eq_dec : EqDecision SimulMode.
Proof. solve_decision. Defined.

Record t : Type := {
  mode : SimulMode;
  AmplIg : Z; AmplIc : Z; AmplVx : Z;     (* long *)
  ShiftIg : Z; ShiftIc : Z;               (* int *)
  ValV0 : Z;                              (* long *)
  Pg : Z;                                 (* int: simulated generated power (W) *)
  Pc : Z                                  (* int: simulated consumed power (W) *)
}.

Definition init : t := {|
  mode := NO_SIMUL;
  AmplIg := 200; AmplIc := 100; AmplVx := 410;
  ShiftIg := 0; ShiftIc := 0; ValV0 := 512;
  Pg := 0; Pc := 0 |}.

(** The simulated powers are values of type [int]. *)
Definition in_range (sm : t) : bool := CInt.int_ok (Pg sm) && CInt.int_ok (Pc sm).

End Simul.

Module Measure.

Definition SAMPLES_PER_CYCLE : Z := 40.
Definition ADC_RESOLUTION_STEPS : Z := 1024.

(** The samples of one grid cycle, as [Measure::getCycle] leaves them.  The
    arrays have [SAMPLES_PER_CYCLE] entries of type [int]. *)
Record t : Type := {
  numSamples : Z;
  V0 : list Z;
  Vx : list Z;
  Ig : list Z;
  Ic : list Z;
  samplingUs : list Z;
  prevCycleStartUs : Z;   (* unsigned long *)
  cycleStartUs : Z        (* unsigned long *)
}.

Definition sample (a : list Z) (i : Z) : Z := get 0 a i.

(** A reading of the converter: the sources allow a resolution of at most
    4096 steps, and the simulated inputs are clipped to [0 .. resolution]. *)
Definition sample_ok (x : Z) : bool := (0 <=? x) && (x <=? 4096).

(** A cycle of 1 to [SAMPLES_PER_CYCLE] samples, all of them readings of
    the converter. *)
Definition in_range (cm : t) : bool :=
  (0 <? numSamples cm) && (numSamples cm <=? SAMPLES_PER_CYCLE) &&
  forallb (fun i => sample_ok (sample (V0 cm) i) && sample_ok (sample (Vx cm) i) &&
                    sample_ok (sample (Ig cm) i) && sample_ok (sample (Ic cm) i))
          (indices (numSamples cm)).

(** Every input of the cycle stays at the level [c]. *)
Definition constant_at (c : Z) (cm : t) : bool :=
  forallb (fun i => (sample (V0 cm) i =? c) && (sample (Vx cm) i =? c) &&
                    (sample (Ig cm) i =? c) && (sample (Ic cm) i =? c))
          (indices (numSamples cm)).

(** The object at program start: [numSamples = SAMPLES_PER_CYCLE], the
    arrays not yet written and both start times zero. *)
Definition init : t := {|
  numSamples := SAMPLES_PER_CYCLE;
  V0 := replicate (Z.to_nat SAMPLES_PER_CYCLE) 0;
  Vx := replicate (Z.to_nat SAMPLES_PER_CYCLE) 0;
  Ig := replicate (Z.to_nat SAMPLES_PER_CYCLE) 0;
  Ic := replicate (Z.to_nat SAMPLES_PER_CYCLE) 0;
  samplingUs := replicate (Z.to_nat SAMPLES_PER_CYCLE) 0;
  prevCycleStartUs := 0; cycleStartUs := 0 |}.

(** *** The prescaler of the converter

    [ADCSRA] is an 8-bit register; [ADPS0], [ADPS1] and [ADPS2] are its
    bits 0, 1 and 2, and [bit(b)] is [1UL << b]. *)
Definition ADPS0 : Z := 0.
Definition ADPS1 : Z := 1.
Definition ADPS2 : Z := 2.
Definition bit (b : Z) : Z := Z.shiftl 1 b.
Definition uint8 (z : Z) : Z := z mod 2 ^ 8.

(** [Measure::setADCprescaler]: the value of its [return] statement and
    the register.  The function is declared [void], so no caller sees the
    value. *)
Definition setADCprescaler (prescalerValue : Z) (ADCSRA : Z) : Z * Z :=
  let ADCSRA :=
    uint8 (Z.land ADCSRA (Z.lnot (Z.lor (bit ADPS0) (Z.lor (bit ADPS1) (bit ADPS2))))) in
  if prescalerValue =? 2 then (0, uint8 (Z.lor ADCSRA (bit ADPS0)))
  else if prescalerValue =? 4 then (0, uint8 (Z.lor ADCSRA (bit ADPS1)))
  else if prescalerValue =? 8 then
    (0, uint8 (Z.lor ADCSRA (Z.lor (bit ADPS0) (bit ADPS1))))
  else if prescalerValue =? 16 then (0, uint8 (Z.lor ADCSRA (bit ADPS2)))
  else if prescalerValue =? 32 then
    (0, uint8 (Z.lor ADCSRA (Z.lor (bit ADPS0) (bit ADPS2))))
  else if prescalerValue =? 64 then
    (0, uint8 (Z.lor ADCSRA (Z.lor (bit ADPS1) (bit ADPS2))))
  else if prescalerValue =? 128 then
    (0, uint8 (Z.lor ADCSRA (Z.lor (bit ADPS0) (Z.lor (bit ADPS1) (bit ADPS2)))))
  else (-1, ADCSRA).

(** *** Sampling one cycle *)

(** The macro [constrain] of [Arduino.h] on integers. *)
Definition constrain (amt low high : Z) : Z :=
  if amt <? low then low else if amt >? high then high else amt.

(** One simulated input of sample [i]:
    [constrain(ValV0 + (int)(Ampl * sine1000[(i + Shift) % numSamples] / 1000L),
               0, resolution)]
    stored into an [int].  The product and the quotient are computed on
    [long]s, the index on [int]s; [resolution] keeps its initial value
    [ADC_RESOLUTION_STEPS]. *)
Definition simulated (sine1000 : list Z) (numSamples ValV0 Ampl Shift : Z) (i : Z) : Z :=
  let k := Z.rem (CInt.int (i + Shift)) numSamples in
  let wave := CInt.int (Z.quot (CInt.long (Ampl * get 0 sine1000 k)) 1000) in
  CInt.int (constrain (CInt.long (ValV0 + wave)) 0 ADC_RESOLUTION_STEPS).

(** What [getCycle] reads from the outside: [micros()] at entry and, for
    sample [i], the four conversions of [analogRead] and the time that
    elapsed while they were made. *)
Record sampling : Type := {
  start_us : Z;
  adc_V0 : Z -> Z;
  adc_Ig : Z -> Z;
  adc_Vx : Z -> Z;
  adc_Ic : Z -> Z;
  took_us : Z -> Z
}.

(** [for(i=0; i<n; i++) a[i] = f(i);] *)
Definition fill (n : Z) (f : Z -> Z) (a : list Z) : list Z :=
  fold_left (fun a i => set a i (f i)) (indices n) a.

(** [Measure::getCycle]; [sine1000] is the table of the simulator. *)
Definition getCycle (sm : Simul.t) (sine1000 : list Z) (io : sampling) (cm : t) : t :=
  let n := numSamples cm in
  let analog := match Simul.mode sm with Simul.SIMUL_ANALOG => true | _ => false end in
  {| numSamples := n;
     V0 := fill n (fun i => if analog then CInt.int (Simul.ValV0 sm) else adc_V0 io i) (V0 cm);
     Vx := fill n (fun i => if analog
                            then simulated sine1000 n (Simul.ValV0 sm) (Simul.AmplVx sm) 0 i
                            else adc_Vx io i) (Vx cm);
     Ig := fill n (fun i => if analog
                            then simulated sine1000 n (Simul.ValV0 sm) (Simul.AmplIg sm)
                                   (Simul.ShiftIg sm) i
                            else adc_Ig io i) (Ig cm);
     Ic := fill n (fun i => if analog
                            then simulated sine1000 n (Simul.ValV0 sm) (Simul.AmplIc sm)
                                   (Simul.ShiftIc sm) i
                            else adc_Ic io i) (Ic cm);
     samplingUs := fill n (fun i => CInt.int (took_us io i)) (samplingUs cm);
     prevCycleStartUs := cycleStartUs cm;
     cycleStartUs := start_us io |}.

(** The arrays have the capacity [SAMPLES_PER_CYCLE] and the count is
    within it. *)
Definition wf (cm : t) : Prop :=
  0 < numSamples cm <= SAMPLES_PER_CYCLE /\
  length (V0 cm) = Z.to_nat SAMPLES_PER_CYCLE /\
  length (Vx cm) = Z.to_nat SAMPLES_PER_CYCLE /\
  length (Ig cm) = Z.to_nat SAMPLES_PER_CYCLE /\
  length (Ic cm) = Z.to_nat SAMPLES_PER_CYCLE /\
  length (samplingUs cm) = Z.to_nat SAMPLES_PER_CYCLE.

End Measure.

(** ** simul.h: the commands received from the serial line *)

Module SimulRx.

Definition buffSize : Z := 61.

Definition nul : ascii := ascii_of_nat 0.
Definition newline : ascii := ascii_of_nat 10.
Definition blank : ascii := ascii_of_nat 32.

(** [isdigit], [toupper] and the value of a digit, in the C locale. *)
Definition isdigit (c : ascii) : bool :=
  (48 <=? nat_of_ascii c)%nat && (nat_of_ascii c <=? 57)%nat.

Definition toupper (c : ascii) : ascii :=
  if (97 <=? nat_of_ascii c)%nat && (nat_of_ascii c <=? 122)%nat
  then ascii_of_nat (nat_of_ascii c - 32) else c.

Definition digit (c : ascii) : Z := Z.of_nat (nat_of_ascii c) - 48.

(** The simulator with the member that [Simul.t] leaves out and the two
    static variables of [receiveValues]: the buffer of 61 characters and
    the position of the next character. *)
Record t : Type := {
  sim : Simul.t;
  printCode : ascii;
  RxBuffer : list ascii;
  i : Z
}.

Definition init : t := {|
  sim := Simul.init;
  printCode := ascii_of_nat 48;
  RxBuffer := replicate (Z.to_nat buffSize) nul;
  i := 0 |}.

(** What the function prints on the serial line. *)
Inductive reply : Type :=
  | SayNewline
  | SayNoSimulation
  | SayAnalog (AmplIg AmplIc AmplVx ShiftIg ShiftIc ValV0 : Z)
  | SayPowers (Pg Pc : Z)
  | SayHelp.

(** [RxBuffer[i] = c]: a write outside the array is undefined, [None]
    here. *)
Definition store (buf : list ascii) (i : Z) (c : ascii) : option (list ascii) :=
  if (0 <=? i) && (i <? Z.of_nat (length buf)) then Some (<[Z.to_nat i := c]> buf)
  else None.

(** [strlen] and the C string held by a buffer. *)
Fixpoint strlen (s : list ascii) : nat :=
  match s with
  | [] => O
  | c :: r => if Ascii.eqb c nul then O else S (strlen r)
  end.

Definition cstring (buf : list ascii) : list ascii := take (strlen buf) buf.

(** The loop that reads the characters available:
    [do { if(Serial.available()==0) return;
          rc = Serial.read();
          if(i == buffSize - 1) rc = '\n';
          if(rc == '\n') rc = 0;
          RxBuffer[i++] = rc; } while(rc != 0);]
    The result is the buffer, the position, whether the line is complete,
    and the characters left unread. *)
Fixpoint read_chars (avail : list ascii) (buf : list ascii) (i : Z)
  : option (list ascii * Z * bool * list ascii) :=
  match avail with
  | [] => Some (buf, i, false, [])
  | c :: rest =>
      let rc := if i =? buffSize - 1 then newline else c in
      let rc := if Ascii.eqb rc newline then nul else rc in
      match store buf i rc with
      | None => None
      | Some buf' =>
          let i' := CInt.int (i + 1) in
          if Ascii.eqb rc nul then Some (buf', i', true, rest)
          else read_chars rest buf' i'
      end
  end.

(** [RxBuffer[0] = ' ';
     for(i=0; i<strlen(RxBuffer); i++) if(!isdigit(RxBuffer[i])) RxBuffer[i] = ' ';]
    Every character of the string that is not a digit becomes a blank; the
    length of the string does not change. *)
Definition sanitize (buf : list ascii) : list ascii :=
  let buf := <[O := blank]> buf in
  map (fun c => if isdigit c then c else blank) (take (strlen buf) buf)
  ++ drop (strlen buf) buf.

(** The conversions [%d] and [%ld] of [sscanf], on a string that holds
    digits and blanks only: blanks are skipped and a run of digits is
    converted; where no digit follows, the conversion fails and [sscanf]
    returns, leaving the remaining arguments as they are. *)
Fixpoint skip_blanks (s : list ascii) : list ascii :=
  match s with
  | c :: r => if Ascii.eqb c blank then skip_blanks r else s
  | [] => []
  end.

Fixpoint read_digits (acc : Z) (s : list ascii) : Z * list ascii :=
  match s with
  | c :: r => if isdigit c then read_digits (10 * acc + digit c) r else (acc, s)
  | [] => (acc, [])
  end.

Definition scan_number (s : list ascii) : option (Z * list ascii) :=
  match skip_blanks s with
  | c :: r => if isdigit c then Some (read_digits 0 (c :: r)) else None
  | [] => None
  end.

Fixpoint scan_numbers (k : nat) (s : list ascii) : list Z :=
  match k with
  | O => []
  | S k' =>
      match scan_number s with
      | Some (v, r) => v :: scan_numbers k' r
      | None => []
      end
  end.

(** Argument [k] of [sscanf]: assigned when [k + 1] conversions succeeded,
    with the value reduced to the type of the argument. *)
Definition assigned (old : Z) (vals : list Z) (k : nat) (conv : Z -> Z) : Z :=
  match vals !! k with
  | Some v => conv v
  | None => old
  end.

(** The part of [receiveValues] that applies a complete line. *)
Definition interpret (buf : list ascii) (sm : Simul.t) (code : ascii)
  : Simul.t * ascii * list ascii * list reply :=
  let first := default nul (buf !! O) in
  if Ascii.eqb (toupper first) (ascii_of_nat 88) then
    ({| Simul.mode := Simul.NO_SIMUL;
        Simul.AmplIg := Simul.AmplIg sm; Simul.AmplIc := Simul.AmplIc sm;
        Simul.AmplVx := Simul.AmplVx sm;
        Simul.ShiftIg := Simul.ShiftIg sm; Simul.ShiftIc := Simul.ShiftIc sm;
        Simul.ValV0 := Simul.ValV0 sm;
        Simul.Pg := Simul.Pg sm; Simul.Pc := Simul.Pc sm |},
     code, buf, [SayNewline; SayNoSimulation])
  else if Ascii.eqb (toupper first) (ascii_of_nat 65) then
    let buf' := sanitize buf in
    let vals := scan_numbers 6 (cstring buf') in
    let sm' := {|
      Simul.mode := Simul.SIMUL_ANALOG;
      Simul.AmplIg := assigned (Simul.AmplIg sm) vals 0 CInt.long;
      Simul.AmplIc := assigned (Simul.AmplIc sm) vals 1 CInt.long;
      Simul.AmplVx := assigned (Simul.AmplVx sm) vals 2 CInt.long;
      Simul.ShiftIg := assigned (Simul.ShiftIg sm) vals 3 CInt.int;
      Simul.ShiftIc := assigned (Simul.ShiftIc sm) vals 4 CInt.int;
      Simul.ValV0 := assigned (Simul.ValV0 sm) vals 5 CInt.long;
      Simul.Pg := Simul.Pg sm; Simul.Pc := Simul.Pc sm |} in
    (sm', code, buf',
     [SayNewline;
      SayAnalog (Simul.AmplIg sm') (Simul.AmplIc sm') (Simul.AmplVx sm')
                (Simul.ShiftIg sm') (Simul.ShiftIc sm') (Simul.ValV0 sm')])
  else if Ascii.eqb (toupper first) (ascii_of_nat 80) then
    let buf' := sanitize buf in
    let vals := scan_numbers 2 (cstring buf') in
    let sm' := {|
      Simul.mode := Simul.SIMUL_POWER;
      Simul.AmplIg := Simul.AmplIg sm; Simul.AmplIc := Simul.AmplIc sm;
      Simul.AmplVx := Simul.AmplVx sm;
      Simul.ShiftIg := Simul.ShiftIg sm; Simul.ShiftIc := Simul.ShiftIc sm;
      Simul.ValV0 := Simul.ValV0 sm;
      Simul.Pg := assigned (Simul.Pg sm) vals 0 CInt.int;
      Simul.Pc := assigned (Simul.Pc sm) vals 1 CInt.int |} in
    (sm', code, buf', [SayNewline; SayPowers (Simul.Pg sm') (Simul.Pc sm')])
  else if Ascii.eqb first (ascii_of_nat 63) then (sm, code, buf, [SayNewline; SayHelp])
  else (sm, toupper first, buf, [SayNewline]).

(** [Simul::receiveValues]; [avail] holds the characters that
    [Serial.read()] can deliver during the call.  The result is the new
    state, what was printed and the characters left unread; [None] stands
    for a write outside the buffer. *)
Definition receiveValues (avail : list ascii) (st : t)
  : option (t * list reply * list ascii) :=
  match read_chars avail (RxBuffer st) (i st) with
  | None => None
  | Some (buf, i', false, unread) =>
      Some ({| sim := sim st; printCode := printCode st; RxBuffer := buf; i := i' |},
            [], unread)
  | Some (buf, i', true, unread) =>
      let n := CInt.int (i' - 1) in
      let '(sim', code', buf', out) :=
        if n >? 0 then interpret buf (sim st) (printCode st)
        else (sim st, printCode st, buf, []) in
      Some ({| sim := sim'; printCode := code';
               RxBuffer := <[O := nul]> buf'; i := 0 |}, out, unread)
  end.

(** The receiver between two calls: the buffer has its 61 characters and
    the position lies inside it. *)
Definition wf (st : t) : Prop :=
  length (RxBuffer st) = Z.to_nat buffSize /\ 0 <= i st < buffSize.

(** A character that ends no line. *)
Definition plain (c : ascii) : bool :=
  negb (Ascii.eqb c newline) && negb (Ascii.eqb c nul).

(** The number written by a string of digits. *)
Definition number (ds : list ascii) : Z :=
  fold_left (fun acc c => 10 * acc + digit c) ds 0.

(** A string that starts with no digit. *)
Definition stops (s : list ascii) : Prop :=
  match s with [] => True | c :: _ => isdigit c = false end.

End SimulRx.

(** ** values.h *)

Module Values.

Import F32.

Definition V0_REF_V : float := Eval vm_compute in lit 25 10.
Definition MAX_AMPL_V : float := Eval vm_compute in of_Z 2.
Definition TIME_CONSTANT_US : float := Eval vm_compute in of_Z 1000000.

(** The literals of [begin] and of the clipping step. *)
Definition f1_4142 : float := Eval vm_compute in lit 14142 10000.
Definition f999 : float := Eval vm_compute in of_Z 999.
Definition f99 : float := Eval vm_compute in of_Z 99.
Definition f9999 : float := Eval vm_compute in of_Z 9999.
Definition fm9999 : float := Eval vm_compute in of_Z (-9999).
Definition f0_99 : float := Eval vm_compute in lit 99 100.

Record t : Type := {
  V0RefV : float;
  MaxAmplV : float;
  VxRatio : float;
  IgRatio : float;
  IcRatio : float;
  V0Avg : float;
  VoltsPerCount : float;
  VxEff : float;
  IgEff : float;
  IcEff : float;
  Pg : float;
  Pc : float;
  Pn : float;
  PFg : float;
  PFc : float;
  TimeConst : float;
  PgFilt : float;
  PcFilt : float;
  PnFilt : float;
  MaxConsumpt : float;
  Margin : float;
  interval : Z;             (* unsigned long *)
  startUs : Z;              (* unsigned long *)
  endUs : Z;                (* unsigned long *)
  samplingTimeAvg_us : Z    (* unsigned long *)
}.

(** The object before [begin]: member initialisers, zeroes elsewhere. *)
Definition init : t := {|
  V0RefV := V0_REF_V; MaxAmplV := MAX_AMPL_V;
  VxRatio := zero; IgRatio := zero; IcRatio := zero;
  V0Avg := zero; VoltsPerCount := zero;
  VxEff := zero; IgEff := zero; IcEff := zero;
  Pg := zero; Pc := zero; Pn := zero; PFg := zero; PFc := zero;
  TimeConst := TIME_CONSTANT_US;
  PgFilt := zero; PcFilt := zero; PnFilt := zero;
  MaxConsumpt := zero; Margin := zero;
  interval := 0; startUs := 0; endUs := 0; samplingTimeAvg_us := 0 |}.

(** [Values::begin]. *)
Definition begin (VxNomVeff IgNomAeff IcNomAeff MaxConsumpt_arg : float) (v : t) : t :=
  {| V0RefV := V0RefV v; MaxAmplV := MaxAmplV v;
     VxRatio := div (mul VxNomVeff f1_4142) (MaxAmplV v);
     IgRatio := div (mul IgNomAeff f1_4142) (MaxAmplV v);
     IcRatio := div (mul IcNomAeff f1_4142) (MaxAmplV v);
     V0Avg := V0Avg v; VoltsPerCount := VoltsPerCount v;
     VxEff := VxEff v; IgEff := IgEff v; IcEff := IcEff v;
     Pg := Pg v; Pc := Pc v; Pn := Pn v; PFg := PFg v; PFc := PFc v;
     TimeConst := TimeConst v;
     PgFilt := PgFilt v; PcFilt := PcFilt v; PnFilt := PnFilt v;
     MaxConsumpt := MaxConsumpt_arg; Margin := Margin v;
     interval := interval v; startUs := startUs v; endUs := endUs v;
     samplingTimeAvg_us := samplingTimeAvg_us v |}.

(** [for(i=0, sum=0; i<n; i++) sum += term(i);] on a [long] accumulator. *)
Definition sum_loop (n : Z) (term : Z -> Z) : Z :=
  fold_left (fun sum i => CInt.long (sum + term (Z.of_nat i)))
            (seq 0 (Z.to_nat n)) 0.

Section Cycle.
Variable cm : Measure.t.

(** [sum / numSamples] on [long]s truncates towards zero. *)
Definition sumSamplingUs : Z :=
  sum_loop (Measure.numSamples cm) (Measure.sample (Measure.samplingUs cm)).
Definition offset : Z :=
  Z.quot (sum_loop (Measure.numSamples cm) (Measure.sample (Measure.V0 cm)))
         (Measure.numSamples cm).

(** [value = ((long) a[i]) - offset; sum += value * value;] *)
Definition sumSquares (a : list Z) : Z :=
  sum_loop (Measure.numSamples cm)
    (fun i => let value := CInt.long (Measure.sample a i - offset) in CInt.long (value * value)).

(** [value = (((long) a[i]) - offset) * (((long) Vx[i]) - offset);
    sum += value;] *)
Definition sumProducts (a : list Z) : Z :=
  sum_loop (Measure.numSamples cm)
    (fun i => CInt.long (CInt.long (Measure.sample a i - offset)
                         * CInt.long (Measure.sample (Measure.Vx cm) i - offset))).

(** [((float) sum) / ((float) numSamples)] *)
Definition mean (sum : Z) : float := div (of_Z sum) (of_Z (Measure.numSamples cm)).
End Cycle.

(** The quantities of one cycle before the override and the clipping. *)
Record raw : Type := {
  rV0Avg : float; rVoltsPerCount : float;
  rVxEff : float; rIgEff : float; rIcEff : float;
  rPg : float; rPc : float; rPFg : float; rPFc : float
}.

Definition measure (v : t) (cm : Measure.t) : raw :=
  let V0Avg := of_Z (offset cm) in
  let VoltsPerCount := div (V0RefV v) (max one V0Avg) in
  let VxEff := mul (sqrt (mean cm (sumSquares cm (Measure.Vx cm)))) (mul VoltsPerCount (VxRatio v)) in
  let IgEff := mul (sqrt (mean cm (sumSquares cm (Measure.Ig cm)))) (mul VoltsPerCount (IgRatio v)) in
  let Pg := mul (mul (mean cm (sumProducts cm (Measure.Ig cm))) (mul VoltsPerCount (IgRatio v)))
                (mul VoltsPerCount (VxRatio v)) in
  let Pg := abs Pg in
  let PFg := div Pg (max one (mul VxEff IgEff)) in
  let IcEff := mul (sqrt (mean cm (sumSquares cm (Measure.Ic cm)))) (mul VoltsPerCount (IcRatio v)) in
  let Pc := mul (mul (mean cm (sumProducts cm (Measure.Ic cm))) (mul VoltsPerCount (IcRatio v)))
                (mul VoltsPerCount (VxRatio v)) in
  let Pc := opp (abs Pc) in
  let PFc := div (opp Pc) (max one (mul VxEff IcEff)) in
  {| rV0Avg := V0Avg; rVoltsPerCount := VoltsPerCount;
     rVxEff := VxEff; rIgEff := IgEff; rIcEff := IcEff;
     rPg := Pg; rPc := Pc; rPFg := PFg; rPFc := PFc |}.

(** [if(pSM->mode == Simul::SIMUL_POWER)]: the powers are replaced. *)
Definition override (sm : Simul.t) (p : float * float) : float * float :=
  match Simul.mode sm with
  | Simul.SIMUL_POWER => (of_Z (Simul.Pg sm), opp (of_Z (Simul.Pc sm)))
  | _ => p
  end.

(** The filtering step: [(PgFilt, PcFilt, PnFilt)] after it. *)
Definition filter (v : t) (Pg Pc Pn : float) : float * float * float :=
  if interval v =? 0 then (Pg, Pc, Pn)
  else
    let alpha := min one (div (of_Z (interval v)) (TimeConst v)) in
    let PgFilt := add (PgFilt v) (mul alpha (sub Pg (PgFilt v))) in
    let PcFilt := add (PcFilt v) (mul alpha (sub Pc (PcFilt v))) in
    (PgFilt, PcFilt, add PgFilt PcFilt).

(** [Values::compute]; [t_start] and [t_end] are the two readings of
    [micros()]. *)
Definition compute (t_start t_end : Z) (sm : Simul.t) (cm : Measure.t) (v : t) : t :=
  let r := measure v cm in
  let '(Pg, Pc) := override sm (rPg r, rPc r) in
  let Pn := add Pg Pc in
  let VxEff := constrain (rVxEff r) zero f999 in
  let IgEff := constrain (rIgEff r) zero f99 in
  let IcEff := constrain (rIcEff r) zero f99 in
  let Pg := constrain Pg zero f9999 in
  let Pc := constrain Pc fm9999 zero in
  let Pn := constrain Pn fm9999 f9999 in
  let PFg := constrain (rPFg r) zero f0_99 in
  let PFc := constrain (rPFc r) zero f0_99 in
  let '(PgFilt, PcFilt, PnFilt) := filter v Pg Pc Pn in
  {| V0RefV := V0RefV v; MaxAmplV := MaxAmplV v;
     VxRatio := VxRatio v; IgRatio := IgRatio v; IcRatio := IcRatio v;
     V0Avg := rV0Avg r; VoltsPerCount := rVoltsPerCount r;
     VxEff := VxEff; IgEff := IgEff; IcEff := IcEff;
     Pg := Pg; Pc := Pc; Pn := Pn; PFg := PFg; PFc := PFc;
     TimeConst := TimeConst v;
     PgFilt := PgFilt; PcFilt := PcFilt; PnFilt := PnFilt;
     MaxConsumpt := MaxConsumpt v;
     Margin := sub (MaxConsumpt v) (opp PcFilt);
     interval :=
       (if Measure.prevCycleStartUs cm =? 0 then 0
        else CInt.ulong (Measure.cycleStartUs cm - Measure.prevCycleStartUs cm));
     startUs := t_start; endUs := t_end;
     samplingTimeAvg_us :=
       CInt.ulong (Z.quot (sumSamplingUs cm) (Measure.numSamples cm)) |}.

(** The calibration holds numbers: a reference voltage below [2 ^ 8] and
    channel ratios below [2 ^ 16]. *)
Definition calibration_ok (v : t) : bool :=
  below 8 (V0RefV v) && below 16 (VxRatio v) &&
  below 16 (IgRatio v) && below 16 (IcRatio v).

(** The weight of the new cycle in the filtering step:
    [alpha = min(1.0, ((float) interval) / TimeConst)]. *)
Definition alpha (v : t) : float := min one (div (of_Z (interval v)) (TimeConst v)).

(** A call of [Measure::getCycle] followed by the call of [compute] on
    the cycle it sampled. *)
Definition cycle (sm : Simul.t) (sine1000 : list Z) (io : Measure.sampling)
    (t_start t_end : Z) (st : Measure.t * t) : Measure.t * t :=
  let cm := Measure.getCycle sm sine1000 io (fst st) in
  (cm, compute t_start t_end sm cm (snd st)).

(** What the clipping step makes of a simulated power, as an integer. *)
Definition clip_W (z : Z) : Z := Z.max 0 (Z.min 9999 z).

End Values.

(** ** loads.h *)

Module Loads.

Import F32.

Definition N_LOADS_MAX : Z := 3.
Definition POWER_REDUCTION_FACTOR : float := Eval vm_compute in lit 85 100.

Record t : Type := {
  nLoadsMax : Z;
  nLoads : Z;
  cause : string;
  (* configuration data *)
  name : list string;
  powerW : list float;
  lockOnSec : list Z;
  lockOffSec : list Z;
  gpioOut : list Z;
  gpioMode : list Z;
  radioModel : list Radio.RadioHW;
  channel : list Z;
  (* status data *)
  solarMode : list bool;
  flag : list bool;
  on : list bool;
  lockSec : list Z
}.

Definition blank {A : Type} (d : A) : list A := replicate (Z.to_nat N_LOADS_MAX) d.

(** The object at program start. *)
Definition init : t := {|
  nLoadsMax := N_LOADS_MAX; nLoads := 0; cause := "program start";
  name := blank EmptyString; powerW := blank zero;
  lockOnSec := blank 0; lockOffSec := blank 0;
  gpioOut := blank 0; gpioMode := blank 0;
  radioModel := blank Radio.NO_RADIO; channel := blank 0;
  solarMode := blank false; flag := blank false; on := blank false;
  lockSec := blank 0 |}.

(** Every array has the capacity [N_LOADS_MAX] and the count is within it. *)
Definition wf (s : t) : Prop :=
  nLoadsMax s = N_LOADS_MAX /\ 0 <= nLoads s <= N_LOADS_MAX /\
  length (name s) = Z.to_nat N_LOADS_MAX /\
  length (powerW s) = Z.to_nat N_LOADS_MAX /\
  length (lockOnSec s) = Z.to_nat N_LOADS_MAX /\
  length (lockOffSec s) = Z.to_nat N_LOADS_MAX /\
  length (gpioOut s) = Z.to_nat N_LOADS_MAX /\
  length (gpioMode s) = Z.to_nat N_LOADS_MAX /\
  length (radioModel s) = Z.to_nat N_LOADS_MAX /\
  length (channel s) = Z.to_nat N_LOADS_MAX /\
  length (solarMode s) = Z.to_nat N_LOADS_MAX /\
  length (flag s) = Z.to_nat N_LOADS_MAX /\
  length (on s) = Z.to_nat N_LOADS_MAX /\
  length (lockSec s) = Z.to_nat N_LOADS_MAX.

(** Field readers at an index. *)
Definition name_at (s : t) (i : Z) : string := get EmptyString (name s) i.
Definition powerW_at (s : t) (i : Z) : float := get zero (powerW s) i.
Definition lockOnSec_at (s : t) (i : Z) : Z := get 0 (lockOnSec s) i.
Definition lockOffSec_at (s : t) (i : Z) : Z := get 0 (lockOffSec s) i.
Definition gpioOut_at (s : t) (i : Z) : Z := get 0 (gpioOut s) i.
Definition gpioMode_at (s : t) (i : Z) : Z := get 0 (gpioMode s) i.
Definition radioModel_at (s : t) (i : Z) : Radio.RadioHW := get Radio.NO_RADIO (radioModel s) i.
Definition channel_at (s : t) (i : Z) : Z := get 0 (channel s) i.
Definition solarMode_at (s : t) (i : Z) : bool := get false (solarMode s) i.
Definition flag_at (s : t) (i : Z) : bool := get false (flag s) i.
Definition on_at (s : t) (i : Z) : bool := get false (on s) i.
Definition lockSec_at (s : t) (i : Z) : Z := get 0 (lockSec s) i.

(** The value of [digitalRead] converted to [bool]. *)
Definition read_bool (l : level) : bool :=
  match l with HIGH => true | LOW => false end.

Definition level_of (b : bool) : level := if b then HIGH else LOW.

(** [Loads::add]: the return value, the object and the pin operations.
    [digitalRead] gives the level currently seen at an input pin. *)
Definition add (digitalRead : Z -> level)
    (name_arg : string) (powerW_arg : float) (lockOnSec_arg lockOffSec_arg : Z)
    (gpioOut_arg gpioMode_arg : Z) (radioModel_arg : Radio.RadioHW) (channel_arg : Z)
    (s : t) : Z * t * list event :=
  if nLoads s >=? nLoadsMax s then (-1, s, [])
  else
    let n := nLoads s in
    let out_ev :=
      if gpioOut_arg =? -1 then []
      else [EvPinMode gpioOut_arg OUTPUT; EvDigitalWrite gpioOut_arg LOW] in
    let '(solar, mode_ev) :=
      if gpioMode_arg =? -1 then (true, [])
      else (read_bool (digitalRead gpioMode_arg), [EvPinMode gpioMode_arg INPUT_PULLUP]) in
    (0,
     {| nLoadsMax := nLoadsMax s;
        nLoads := CInt.int (n + 1);
        cause := cause s;
        name := set (name s) n name_arg;
        powerW := set (powerW s) n powerW_arg;
        lockOnSec := set (lockOnSec s) n lockOnSec_arg;
        lockOffSec := set (lockOffSec s) n lockOffSec_arg;
        gpioOut := set (gpioOut s) n gpioOut_arg;
        gpioMode := set (gpioMode s) n gpioMode_arg;
        radioModel := set (radioModel s) n radioModel_arg;
        channel := set (channel s) n channel_arg;
        solarMode := set (solarMode s) n solar;
        flag := set (flag s) n true;
        on := set (on s) n false;
        lockSec := set (lockSec s) n 0 |},
     out_ev ++ mode_ev).

(** *** The task of every second *)

(** The body of the loop for load [i]:
    [solarMode[i] = digitalRead(gpioMode[i]);
     if(lockSec[i] > 0) lockSec[i]--;] *)
Definition second_step (digitalRead : Z -> level) (s : t) (i : Z) : t :=
  {| nLoadsMax := nLoadsMax s; nLoads := nLoads s; cause := cause s;
     name := name s; powerW := powerW s;
     lockOnSec := lockOnSec s; lockOffSec := lockOffSec s;
     gpioOut := gpioOut s; gpioMode := gpioMode s;
     radioModel := radioModel s; channel := channel s;
     solarMode := set (solarMode s) i (read_bool (digitalRead (gpioMode_at s i)));
     flag := flag s;
     on := on s;
     lockSec :=
       (if lockSec_at s i >? 0
        then set (lockSec s) i (CInt.int (lockSec_at s i - 1))
        else lockSec s) |}.

Definition every_second (digitalRead : Z -> level) (s : t) : t :=
  fold_left (second_step digitalRead) (indices (nLoads s)) s.

(** *** The decision rules *)

(** The three assignments made when a rule matches load [i], and the
    cause it records. *)
Definition switch (i : Z) (to_on : bool) (lock : Z) (why : string) (s : t) : t :=
  {| nLoadsMax := nLoadsMax s; nLoads := nLoads s; cause := why;
     name := name s; powerW := powerW s;
     lockOnSec := lockOnSec s; lockOffSec := lockOffSec s;
     gpioOut := gpioOut s; gpioMode := gpioMode s;
     radioModel := radioModel s; channel := channel s;
     solarMode := solarMode s;
     flag := set (flag s) i true;
     on := set (on s) i to_on;
     lockSec := set (lockSec s) i lock |}.

Definition switch_off (i : Z) (why : string) (s : t) : t :=
  switch i false (lockOffSec_at s i) why s.

(** [for(i = from; i < from + n; i++)], leaving at the first index for
    which the body returns. *)
Fixpoint first_up {B : Type} (body : Z -> option B) (from : Z) (n : nat) : option B :=
  match n with
  | O => None
  | S n' =>
      match body from with
      | Some b => Some b
      | None => first_up body (from + 1) n'
      end
  end.

(** [for(i = k - 1; i >= 0; i--)], leaving at the first index for which
    the body returns. *)
Fixpoint first_down {B : Type} (body : Z -> option B) (k : nat) : option B :=
  match k with
  | O => None
  | S k' =>
      match body (Z.of_nat k') with
      | Some b => Some b
      | None => first_down body k'
      end
  end.

Definition when {B : Type} (c : bool) (b : B) : option B :=
  if c then Some b else None.

Section Rules.
Variable pCV : Values.t.
Variable s : t.

(** Rule 1: no consumption margin.  The index it switches off. *)
Definition rule1_index : option Z :=
  if leb (Values.Margin pCV) zero
  then first_down (fun i => when (on_at s i) i) (Z.to_nat (nLoads s))
  else None.

(** Rule 2: solar excedent negative. *)
Definition rule2_index : option Z :=
  if leb (Values.PnFilt pCV) zero
  then first_down
         (fun i => when (solarMode_at s i && on_at s i && (lockSec_at s i =? 0)) i)
         (Z.to_nat (nLoads s))
  else None.

(** Rule 3: priority inversion.  The lower priority load [j]. *)
Definition inversion (i j : Z) : bool :=
  on_at s j && solarMode_at s j && (lockSec_at s j =? 0) &&
  geb (F32.add (mul (powerW_at s j) POWER_REDUCTION_FACTOR) (Values.PnFilt pCV))
      (powerW_at s i).

Definition rule3_index : option Z :=
  first_up
    (fun i =>
       if negb (on_at s i) && solarMode_at s i && (lockSec_at s i =? 0)
       then first_up (fun j => when (inversion i j) j)
                     (i + 1) (Z.to_nat (nLoads s - (i + 1)))
       else None)
    0 (Z.to_nat (nLoads s)).

(** Rule 4: activation. *)
Definition can_activate (i : Z) : bool :=
  negb (on_at s i) && (lockSec_at s i =? 0) &&
  ltb (powerW_at s i) (Values.Margin pCV) &&
  (negb (solarMode_at s i) || ltb (powerW_at s i) (Values.PnFilt pCV)).

Definition rule4_index : option Z :=
  first_up (fun i => when (can_activate i) i) 0 (Z.to_nat (nLoads s)).

(** The decision tasks: the first rule that matches makes its change
    and the function returns. *)
Definition decide_rules : t :=
  match rule1_index with
  | Some i => switch_off i "no margin" s
  | None =>
  match rule2_index with
  | Some i => switch_off i "no excedent" s
  | None =>
  match rule3_index with
  | Some j => switch_off j "priority inversion" s
  | None =>
  match rule4_index with
  | Some i =>
      switch i true (lockOnSec_at s i)
        (if negb (solarMode_at s i) then "enough margin"
         else "enough excedent and margin") s
  | None => s
  end end end end.
End Rules.

(** [Loads::decide]. *)
Definition decide (digitalRead : Z -> level) (pCT : CountTime.t) (pCV : Values.t) (s : t) : t :=
  let s := if CountTime.flagOneSec pCT then every_second digitalRead s else s in
  if CountTime.flagDecide pCT then decide_rules pCV s else s.

(** *** Activation *)

Definition print (iLoad : Z) (pCT : CountTime.t) (pCV : Values.t) (s : t) : event :=
  EvLogChange (CountTime.hhmmss pCT) (name_at s iLoad) (on_at s iLoad)
    (Values.PgFilt pCV) (Values.PcFilt pCV)
    (F32.add (Values.PgFilt pCV) (Values.PcFilt pCV)) (Values.Margin pCV) (cause s).

Definition printRefr (iLoad : Z) (pCT : CountTime.t) (s : t) : event :=
  EvLogRefresh (CountTime.hhmmss pCT) (name_at s iLoad) (on_at s iLoad).

Definition clear_flag (i : Z) (s : t) : t :=
  {| nLoadsMax := nLoadsMax s; nLoads := nLoads s; cause := cause s;
     name := name s; powerW := powerW s;
     lockOnSec := lockOnSec s; lockOffSec := lockOffSec s;
     gpioOut := gpioOut s; gpioMode := gpioMode s;
     radioModel := radioModel s; channel := channel s;
     solarMode := solarMode s;
     flag := set (flag s) i false;
     on := on s;
     lockSec := lockSec s |}.

(** What is done to the pins and the transmitter for load [i]. *)
Definition apply_load (pRD : Radio.t) (s : t) (i : Z) : list event :=
  (if gpioOut_at s i =? -1 then []
   else [EvDigitalWrite (gpioOut_at s i) (level_of (on_at s i))])
  ++
  (match radioModel_at s i with
   | Radio.NO_RADIO => []
   | model => snd (Radio.send pRD model (channel_at s i) (on_at s i))
   end).

(** The body of the loop of [activate] for load [i]. *)
Definition activate_step (pCT : CountTime.t) (pRD : Radio.t) (pCV : Values.t)
    (acc : t * list event) (i : Z) : t * list event :=
  let '(s, out) := acc in
  if flag_at s i || CountTime.flagRefresh pCT then
    let log := if flag_at s i then print i pCT pCV s else printRefr i pCT s in
    let s' := clear_flag i s in
    (s', out ++ log :: apply_load pRD s' i)
  else (s, out).

(** [Loads::activate]. *)
Definition activate (pCT : CountTime.t) (pRD : Radio.t) (pCV : Values.t) (s : t)
  : t * list event :=
  fold_left (activate_step pCT pRD pCV) (indices (nLoads s)) (s, []).

(** The pin and transmitter operations among the events (no log line). *)
Definition is_log (e : event) : bool :=
  match e with EvLogChange _ _ _ _ _ _ _ _ | EvLogRefresh _ _ _ => true | _ => false end.

Definition hardware (out : list event) : list event :=
  List.filter (fun e => negb (is_log e)) out.

(** *** Predicates used to state what a call leaves alone *)

(** The configuration fields of load [i]. *)
Definition same_config_at (s s' : t) (i : Z) : Prop :=
  name_at s' i = name_at s i /\ powerW_at s' i = powerW_at s i /\
  lockOnSec_at s' i = lockOnSec_at s i /\ lockOffSec_at s' i = lockOffSec_at s i /\
  gpioOut_at s' i = gpioOut_at s i /\ gpioMode_at s' i = gpioMode_at s i /\
  radioModel_at s' i = radioModel_at s i /\ channel_at s' i = channel_at s i.

(** The status fields of load [i]. *)
Definition same_status_at (s s' : t) (i : Z) : Prop :=
  solarMode_at s' i = solarMode_at s i /\ flag_at s' i = flag_at s i /\
  on_at s' i = on_at s i /\ lockSec_at s' i = lockSec_at s i.

(** The whole configuration: counts and the eight configuration arrays. *)
Definition same_config (s s' : t) : Prop :=
  nLoadsMax s' = nLoadsMax s /\ nLoads s' = nLoads s /\
  name s' = name s /\ powerW s' = powerW s /\
  lockOnSec s' = lockOnSec s /\ lockOffSec s' = lockOffSec s /\
  gpioOut s' = gpioOut s /\ gpioMode s' = gpioMode s /\
  radioModel s' = radioModel s /\ channel s' = channel s.

(** The state kept by the decision engine, the pending flags apart. *)
Definition same_decision (s s' : t) : Prop :=
  on s' = on s /\ lockSec s' = lockSec s /\ solarMode s' = solarMode s /\
  cause s' = cause s.

(** Load [k] is the lowest-priority load that is on. *)
Definition last_on (s : t) (k : Z) : Prop :=
  0 <= k < nLoads s /\ on_at s k = true /\
  forall j, k < j < nLoads s -> on_at s j = false.

(** The state on which the decision rules of a call work: the state at
    entry, after the task of every second when its flag is set. *)
Definition at_rules (digitalRead : Z -> level) (pCT : CountTime.t) (s : t) : t :=
  if CountTime.flagOneSec pCT then every_second digitalRead s else s.

(** What [activate] does to the pins and the transmitter for load [i] of
    the state [s] it is called on. *)
Definition emitted (pCT : CountTime.t) (pRD : Radio.t) (s : t) (i : Z) : list event :=
  if flag_at s i || CountTime.flagRefresh pCT then apply_load pRD s i else [].

(** Two states that differ in their flags only. *)
Definition flags_apart (s s' : t) : Prop :=
  same_config s s' /\ same_decision s s' /\ length (flag s') = length (flag s).

(** *** Sequences of calls *)

(** The arguments of one call of [add]. *)
Record registration : Type := {
  reg_name : string;
  reg_powerW : float;
  reg_lockOnSec : Z;
  reg_lockOffSec : Z;
  reg_gpioOut : Z;
  reg_gpioMode : Z;
  reg_radioModel : Radio.RadioHW;
  reg_channel : Z
}.

Definition add_reg (digitalRead : Z -> level) (r : registration) (s : t)
  : Z * t * list event :=
  add digitalRead (reg_name r) (reg_powerW r) (reg_lockOnSec r) (reg_lockOffSec r)
      (reg_gpioOut r) (reg_gpioMode r) (reg_radioModel r) (reg_channel r) s.

(** Calls of [add] made one after the other, the return values dropped. *)
Definition add_all (digitalRead : Z -> level) (rs : list registration) (s : t) : t :=
  fold_left (fun s r => snd (fst (add_reg digitalRead r s))) rs s.

(** Load [i] holds the configuration of the registration [r]. *)
Definition registered_as (s : t) (i : Z) (r : registration) : Prop :=
  name_at s i = reg_name r /\ powerW_at s i = reg_powerW r /\
  lockOnSec_at s i = reg_lockOnSec r /\ lockOffSec_at s i = reg_lockOffSec r /\
  gpioOut_at s i = reg_gpioOut r /\ gpioMode_at s i = reg_gpioMode r /\
  radioModel_at s i = reg_radioModel r /\ channel_at s i = reg_channel r.

(** Calls of [decide] made one after the other, each with the scheduler
    and the snapshot of its loop iteration. *)
Definition decide_all (digitalRead : Z -> level)
    (calls : list (CountTime.t * Values.t)) (s : t) : t :=
  fold_left (fun s c => decide digitalRead (fst c) (snd c) s) calls s.

(** Load [k] is the lowest-priority load that is in solar mode, on and
    not locked. *)
Definition sheddable (s : t) (i : Z) : bool :=
  solarMode_at s i && on_at s i && (lockSec_at s i =? 0).

Definition last_sheddable (s : t) (k : Z) : Prop :=
  0 <= k < nLoads s /\ sheddable s k = true /\
  forall j, k < j < nLoads s -> sheddable s j = false.

(** The change made by the rules on the state [s], when they make one:
    the rule, the load [i] and the new on/off state. *)
Inductive rule_taken (pCV : Values.t) (s : t) (i : Z) : bool -> Prop :=
  | taken1 :
      rule1_index pCV s = Some i ->
      decide_rules pCV s = switch_off i "no margin" s ->
      rule_taken pCV s i false
  | taken2 :
      rule1_index pCV s = None -> rule2_index pCV s = Some i ->
      decide_rules pCV s = switch_off i "no excedent" s ->
      rule_taken pCV s i false
  | taken3 :
      rule1_index pCV s = None -> rule2_index pCV s = None ->
      rule3_index pCV s = Some i ->
      decide_rules pCV s = switch_off i "priority inversion" s ->
      rule_taken pCV s i false
  | taken4 :
      rule1_index pCV s = None -> rule2_index pCV s = None ->
      rule3_index pCV s = None -> rule4_index pCV s = Some i ->
      decide_rules pCV s
      = switch i true (lockOnSec_at s i)
          (if negb (solarMode_at s i) then "enough margin"
           else "enough excedent and margin") s ->
      rule_taken pCV s i true.

End Loads.

(** ** credits.h *)

Module Credits.

(** C strings are lists of characters here; a pointer into a string is the
    rest of the list from that position. *)
Record t : Type := {
  fileName : list ascii;
  fileDateTime : list ascii
}.

(** The object at program start: [fileName = "NO NAME"]. *)
Definition init : t := {|
  fileName := list_ascii_of_string "NO NAME";
  fileDateTime := [] |}.

Definition backslash : ascii := ascii_of_nat 92.

(** The character [s[i]] of a string, for [i] below its length. *)
Definition char_at (s : list ascii) (i : Z) : option ascii := s !! Z.to_nat i.

(** [Credits::getFileName]:
    [for(i=n-1; i>=0; i--) if(filePath_arg[i] == '\\')
       { fileName = filePath_arg + (++i); break; }]
    with [n = strlen(filePath_arg)] stored into an [int]. *)
Definition getFileName (filePath_arg : list ascii) (c : t) : t :=
  let n := CInt.int (Z.of_nat (length filePath_arg)) in
  match Loads.first_down
          (fun i => Loads.when (bool_decide (char_at filePath_arg i = Some backslash)) i)
          (Z.to_nat n) with
  | Some i =>
      {| fileName := drop (Z.to_nat (CInt.int (i + 1))) filePath_arg;
         fileDateTime := fileDateTime c |}
  | None => c
  end.

End Credits.

(** ** display.h *)

Module Display.

Definition DISPLAY_COLS : Z := 20.
Definition DISPLAY_ROWS : Z := 4.
Definition DISPLAY_SCREENS : Z := 3.

Record t : Type := {
  buttonGpio : Z;
  button : level;
  prevButton : level;
  line : Z;              (* next line to refresh, -1 while waiting *)
  screen : Z;
  displayTimeUs : Z      (* unsigned long *)
}.

(** The object at program start: [prevButton = HIGH], [line = -1] and
    [screen = 1]; the members without an initialiser are zero. *)
Definition init : t := {|
  buttonGpio := 0; button := LOW; prevButton := HIGH;
  line := -1; screen := 1; displayTimeUs := 0 |}.

(** What a line of the display shows: the format of the source and the
    values it is given.  The conversions made for the format (rounding,
    padding, truncation to 20 columns) are fixed by these. *)
Inductive content : Type :=
  | TextGen (Pg IgEff PFg : F32.float)
  | TextCons (Pc IcEff PFc : F32.float)
  | TextExc (Pn VxEff : F32.float)
  | TextClock (hhmmss : string) (mode : Simul.SimulMode)
  | TextBalance (PgFilt PcFilt PnFilt : F32.float)
  | TextLoad (name : string) (powerW : F32.float) (is_on solar : bool) (lockSec : Z)
  | TextBlank
  | TextMargin (countDecide_s : Z) (Margin : F32.float) (mode : Simul.SimulMode)
  | TextFileName (fileName : list ascii)
  | TextDateTime (fileDateTime : list ascii).

(** The operations on the display and on the pin of the button. *)
Inductive op : Type :=
  | OpInit
  | OpBacklight
  | OpClear
  | OpPrint (row : Z) (c : content)
  | OpPinMode (pin : Z) (m : pin_mode).

(** [Display::begin]. *)
Definition begin (buttonGpio_arg : Z) (d : t) : t * list op :=
  ({| buttonGpio := buttonGpio_arg; button := button d; prevButton := prevButton d;
      line := line d; screen := screen d; displayTimeUs := displayTimeUs d |},
   [OpInit; OpBacklight; OpClear; OpPinMode buttonGpio_arg INPUT_PULLUP]).

(** The data that [show] reads from the other objects. *)
Record sources : Type := {
  pCR : Credits.t;
  pCT : CountTime.t;
  pCV : Values.t;
  pSM : Simul.t;
  pLD : Loads.t
}.

(** The four lines of screen 0, the electric measures. *)
Definition measures (x : sources) (row : Z) : content :=
  if row =? 0 then
    TextGen (Values.Pg (pCV x)) (Values.IgEff (pCV x)) (Values.PFg (pCV x))
  else if row =? 1 then
    TextCons (Values.Pc (pCV x)) (Values.IcEff (pCV x)) (Values.PFc (pCV x))
  else if row =? 2 then TextExc (Values.Pn (pCV x)) (Values.VxEff (pCV x))
  else TextClock (CountTime.hhmmss (pCT x)) (Simul.mode (pSM x)).

(** The lines of screen 1, the powers and the first two loads. *)
Definition load_line (s : Loads.t) (i : Z) : content :=
  TextLoad (Loads.name_at s i) (Loads.powerW_at s i) (Loads.on_at s i)
           (Loads.solarMode_at s i) (Loads.lockSec_at s i).

Definition balance (x : sources) (row : Z) : content :=
  if row =? 0 then
    TextBalance (Values.PgFilt (pCV x)) (Values.PcFilt (pCV x)) (Values.PnFilt (pCV x))
  else if row =? 1 then load_line (pLD x) 0
  else if row =? 2 then
    (if Loads.nLoads (pLD x) >? 1 then load_line (pLD x) 1 else TextBlank)
  else TextMargin (CountTime.countDecide_s (pCT x)) (Values.Margin (pCV x))
                  (Simul.mode (pSM x)).

(** The lines of screen 2, the credits: a file name of 20 characters or
    more continues on the second line. *)
Definition credits (x : sources) (row : Z) : content :=
  if row =? 0 then TextFileName (Credits.fileName (pCR x))
  else if row =? 1 then
    (if (length (Credits.fileName (pCR x)) <? 20)%nat then TextBlank
     else TextFileName (drop 20 (Credits.fileName (pCR x))))
  else if row =? 2 then TextBlank
  else TextDateTime (Credits.fileDateTime (pCR x)).

(** The [switch(line)] of a screen: one line is written and the counter
    moves on; after line 3 it is set to -1. *)
Definition draw (texts : Z -> content) (line : Z) : Z * list op :=
  if line =? 0 then (CInt.int (line + 1), [OpPrint 0 (texts 0)])
  else if line =? 1 then (CInt.int (line + 1), [OpPrint 1 (texts 1)])
  else if line =? 2 then (CInt.int (line + 1), [OpPrint 2 (texts 2)])
  else if line =? 3 then (-1, [OpPrint 3 (texts 3)])
  else (-1, [OpClear]).

(** [Display::show]; [reading] is the level read at the pin of the button,
    [t_start] and [t_end] the two readings of [micros()]. *)
Definition show (reading : level) (t_start t_end : Z) (x : sources) (d : t)
  : t * list op :=
  let pressed :=
    match prevButton d, reading with HIGH, LOW => true | _, _ => false end in
  let screen1 :=
    if pressed then CInt.int (Z.rem (CInt.int (screen d + 1)) DISPLAY_SCREENS)
    else screen d in
  let line1 := if pressed then 0 else line d in
  if (line1 =? -1) && negb (CountTime.flagOneSec (pCT x)) then
    ({| buttonGpio := buttonGpio d; button := reading; prevButton := reading;
        line := line1; screen := screen1; displayTimeUs := displayTimeUs d |}, [])
  else
    let line2 := if line1 =? -1 then 0 else line1 in
    let '(line3, screen3, out) :=
      if screen1 =? 0 then let '(l, out) := draw (measures x) line2 in (l, screen1, out)
      else if screen1 =? 1 then let '(l, out) := draw (balance x) line2 in (l, screen1, out)
      else if screen1 =? 2 then let '(l, out) := draw (credits x) line2 in (l, screen1, out)
      else (line2, 0, []) in
    ({| buttonGpio := buttonGpio d; button := reading; prevButton := reading;
        line := line3; screen := screen3;
        displayTimeUs := CInt.ulong (t_end - t_start) |}, out).

(** Calls of [show] in successive loop iterations, each with the level of
    the button, the readings of [micros()] and the data of its iteration. *)
Record call : Type := { reading : level; started : Z; ended : Z; data : sources }.

Definition shows (calls : list call) (d : t) : t * list op :=
  fold_left (fun acc c =>
               let '(d', out) := show (reading c) (started c) (ended c) (data c) (fst acc) in
               (d', snd acc ++ out))
            calls (d, []).

(** The text of line [row] of screen [n]. *)
Definition screen_text (n : Z) (x : sources) (row : Z) : content :=
  if n =? 0 then measures x row else if n =? 1 then balance x row else credits x row.

(** The button goes from released to pressed at this reading. *)
Definition falling_edge (d : t) (reading : level) : bool :=
  match prevButton d, reading with HIGH, LOW => true | _, _ => false end.

(** The rows written by the operations. *)
Definition rows (out : list op) : list Z :=
  omap (fun o => match o with OpPrint row _ => Some row | _ => None end) out.

End Display.

(** ** Concrete states used to exercise the definitions *)

Module Samples.

(** A scheduler whose refresh countdown is about to reach zero. *)
Definition clock_due : CountTime.t := {|
  CountTime.lastTime := 0;
  CountTime.hours := 0; CountTime.minutes := 0; CountTime.seconds := 29;
  CountTime.hhmmss := "00:00:29";
  CountTime.flagOneSec := false;
  CountTime.decidePeriod_s := 5; CountTime.countDecide_s := 1;
  CountTime.flagDecide := false;
  CountTime.refreshPeriod_s := 30; CountTime.varRefreshPeriod_s := 5;
  CountTime.countRefresh_s := 1;
  CountTime.flagRefresh := false;
  CountTime.prevLoopStart_us := 0; CountTime.loopTime_us := 0 |}.

(** Every input pin reads LOW. *)
Definition pins_low : Z -> level := fun _ => LOW.

(** One load registered without a mode switch ([gpioMode = -1]): wired
    output on pin 7, remote switch on channel 1. *)
Definition one_load : Loads.t :=
  snd (fst (Loads.add pins_low "boilr" (F32.of_Z 1000) 60 60 7 (-1)
              Radio.RADIO_GMOMXEN 1 Loads.init)).

(** The scheduler in a loop iteration where one second has elapsed and
    neither the decide nor the refresh period has. *)
Definition second_tick : CountTime.t :=
  CountTime.update 0 1000 12345 (CountTime.begin 5 30 5 0 CountTime.init).

(** The scheduler in a loop iteration where the decide period (and the
    refresh period) has elapsed. *)
Definition decide_tick : CountTime.t := CountTime.update 0 1000 12345 clock_due.

(** Two loads, both switched on a moment ago and still locked. *)
Definition two_loads_on : Loads.t :=
  let s1 := one_load in
  let s2 := snd (fst (Loads.add pins_low "heatr" (F32.of_Z 500) 60 120 8 (-1)
                        Radio.NO_RADIO 0 s1)) in
  Loads.switch 1 true 60 "enough margin"
    (Loads.switch 0 true 60 "enough margin" s2).

(** A cycle with every input at the offset level. *)
Definition flat_cycle : Measure.t := {|
  Measure.numSamples := 40;
  Measure.V0 := replicate 40 512; Measure.Vx := replicate 40 512;
  Measure.Ig := replicate 40 512; Measure.Ic := replicate 40 512;
  Measure.samplingUs := replicate 40 150;
  Measure.prevCycleStartUs := 0; Measure.cycleStartUs := 20000 |}.

(** The calibration of a 230 V, 30 A, 30 A installation allowed to consume
    3000 W. *)
Definition calibrated : Values.t :=
  Values.begin (F32.of_Z 230) (F32.of_Z 30) (F32.of_Z 30) (F32.of_Z 3000) Values.init.

Definition simulate_power (Pg Pc : Z) : Simul.t := {|
  Simul.mode := Simul.SIMUL_POWER;
  Simul.AmplIg := 200; Simul.AmplIc := 100; Simul.AmplVx := 410;
  Simul.ShiftIg := 0; Simul.ShiftIc := 0; Simul.ValV0 := 512;
  Simul.Pg := Pg; Simul.Pc := Pc |}.

(** The snapshot when 5000 W are consumed and nothing is generated: the
    margin is 3000 - 5000. *)
Definition values_overload : Values.t :=
  Values.compute 0 0 (simulate_power 0 5000) flat_cycle calibrated.

(** One period of a sine wave in thousandths, as [Simul::begin] tabulates
    it for 40 samples, and the samples of a simulated input of amplitude
    [ampl] around the offset 512. *)
Definition sine1000 : list Z :=
  [0; 156; 309; 454; 588; 707; 809; 891; 951; 988;
   1000; 988; 951; 891; 809; 707; 588; 454; 309; 156;
   0; -156; -309; -454; -588; -707; -809; -891; -951; -988;
   -1000; -988; -951; -891; -809; -707; -588; -454; -309; -156].

Definition wave (ampl : Z) : list Z :=
  map (fun x => 512 + Z.quot (ampl * x) 1000) sine1000.

(** The default simulated inputs: 410 counts of voltage, 200 of generated
    and 100 of consumed current, all in phase. *)
Definition sine_cycle : Measure.t := {|
  Measure.numSamples := 40;
  Measure.V0 := replicate 40 512; Measure.Vx := wave 410;
  Measure.Ig := wave 200; Measure.Ic := wave 100;
  Measure.samplingUs := replicate 40 150;
  Measure.prevCycleStartUs := 0; Measure.cycleStartUs := 20000 |}.

Definition sine_snapshot : Values.t :=
  Values.compute 0 0 Simul.init sine_cycle calibrated.

End Samples.

(** ** Further concrete states *)

Module Scenes.

(** Every input pin reads HIGH: the mode switches select the solar mode. *)
Definition pins_high : Z -> level := fun _ => HIGH.

Definition boiler : Loads.registration := {|
  Loads.reg_name := "boilr"; Loads.reg_powerW := F32.of_Z 1000;
  Loads.reg_lockOnSec := 60; Loads.reg_lockOffSec := 60;
  Loads.reg_gpioOut := 7; Loads.reg_gpioMode := 22;
  Loads.reg_radioModel := Radio.RADIO_GMOMXEN; Loads.reg_channel := 1 |}.

Definition heater : Loads.registration := {|
  Loads.reg_name := "heatr"; Loads.reg_powerW := F32.of_Z 500;
  Loads.reg_lockOnSec := 60; Loads.reg_lockOffSec := 120;
  Loads.reg_gpioOut := 8; Loads.reg_gpioMode := 23;
  Loads.reg_radioModel := Radio.NO_RADIO; Loads.reg_channel := 0 |}.

(** Two loads with a mode switch each, registered and still off. *)
Definition two_loads_off : Loads.t :=
  Loads.add_all pins_high [boiler; heater] Loads.init.

(** The same two loads, on and no longer locked. *)
Definition two_loads_free : Loads.t :=
  Loads.switch 1 true 0 "enough excedent and margin"
    (Loads.switch 0 true 0 "enough excedent and margin" two_loads_off).

(** 1000 W consumed and nothing generated: the excedent is negative and
    the margin is 3000 - 1000. *)
Definition values_deficit : Values.t :=
  Values.compute 0 0 (Samples.simulate_power 0 1000) Samples.flat_cycle
    Samples.calibrated.

(** 2000 W generated and 100 W consumed. *)
Definition values_surplus : Values.t :=
  Values.compute 0 0 (Samples.simulate_power 2000 100) Samples.flat_cycle
    Samples.calibrated.

(** The simulation of the analog inputs with the default amplitudes, and
    what a call of [getCycle] reads: the cycle starts at 20 ms, every
    conversion gives 512 counts and takes 150 microseconds. *)
Definition simulate_analog : Simul.t := {|
  Simul.mode := Simul.SIMUL_ANALOG;
  Simul.AmplIg := 200; Simul.AmplIc := 100; Simul.AmplVx := 410;
  Simul.ShiftIg := 0; Simul.ShiftIc := 0; Simul.ValV0 := 512;
  Simul.Pg := 0; Simul.Pc := 0 |}.

Definition quiet_sampling (start : Z) : Measure.sampling := {|
  Measure.start_us := start;
  Measure.adc_V0 := fun _ => 512; Measure.adc_Ig := fun _ => 512;
  Measure.adc_Vx := fun _ => 512; Measure.adc_Ic := fun _ => 512;
  Measure.took_us := fun _ => 150 |}.

(** The sampler and the signal processor after two cycles of a steady
    simulation of 2000 W generated and 100 W consumed, 20 ms apart. *)
Definition steady_state : Measure.t * Values.t :=
  Values.cycle (Samples.simulate_power 2000 100) Samples.sine1000
    (quiet_sampling 40000) 0 0
    (Values.cycle (Samples.simulate_power 2000 100) Samples.sine1000
       (quiet_sampling 20000) 0 0 (Measure.init, Samples.calibrated)).

(** The data shown on the display in an iteration where the decide period
    has elapsed, and in one where no second has. *)
Definition display_data : Display.sources := {|
  Display.pCR := Credits.init; Display.pCT := Samples.decide_tick;
  Display.pCV := Samples.values_overload; Display.pSM := Simul.init;
  Display.pLD := Samples.two_loads_on |}.

Definition display_idle : Display.sources := {|
  Display.pCR := Credits.init; Display.pCT := CountTime.init;
  Display.pCV := Samples.values_overload; Display.pSM := Simul.init;
  Display.pLD := Samples.two_loads_on |}.

Definition released (x : Display.sources) : Display.call := {|
  Display.reading := HIGH; Display.started := 0; Display.ended := 32000;
  Display.data := x |}.

(** The command that simulates 1500 W generated and 300 W consumed. *)
Definition power_line : list ascii :=
  list_ascii_of_string "P 1500, 300" ++ [SimulRx.newline].

(** The receiver after the first two characters of that command. *)
Definition half_line_received : SimulRx.t :=
  {| SimulRx.sim := SimulRx.sim SimulRx.init;
     SimulRx.printCode := SimulRx.printCode SimulRx.init;
     SimulRx.RxBuffer :=
       <[1%nat := SimulRx.blank]>
         (<[O := ascii_of_nat 80]> (SimulRx.RxBuffer SimulRx.init));
     SimulRx.i := 2 |}.

(** Seventy digits and no end of line. *)
Definition long_line : list ascii := replicate 70 (ascii_of_nat 55).

(** The path of a sketch on a Windows machine. *)
Definition sketch_path : list ascii :=
  list_ascii_of_string "C:\work\diverter.ino".

(** A scheduler started with a decide period of two seconds, and the
    readings of four loop iterations: the second and the fourth count a
    second. *)
Definition clock_started : CountTime.t := CountTime.begin 2 30 5 0 CountTime.init.

Definition loop_readings : list CountTime.reading :=
  [ {| CountTime.now_us := 400000; CountTime.now_ms := 400; CountTime.rnd := 11 |};
    {| CountTime.now_us := 1000000; CountTime.now_ms := 1000; CountTime.rnd := 12 |};
    {| CountTime.now_us := 1500000; CountTime.now_ms := 1500; CountTime.rnd := 13 |} ].

Definition late_reading : CountTime.reading :=
  {| CountTime.now_us := 2100000; CountTime.now_ms := 2100; CountTime.rnd := 14 |}.

(** A scheduler started half a second before [millis()] wraps around. *)
Definition clock_before_rollover : CountTime.t :=
  CountTime.begin 5 30 5 4294966796 CountTime.init.

End Scenes.

(** * Properties *)

(** ** Machine integers *)

Section CIntFacts.
Import CInt.

Lemma wrap_id w z : 0 < w -> - 2 ^ (w - 1) <= z < 2 ^ (w - 1) -> wrap w z = z.
Proof.
  intros Hw Hz. unfold wrap.
  assert (E : 2 ^ w = 2 * 2 ^ (w - 1)).
  { replace w with (Z.succ (w - 1)) at 1 by lia. apply Z.pow_succ_r. lia. }
  rewrite Z.mod_small; lia.
Qed.

Lemma int_id z : is_int z -> int z = z.
Proof. unfold is_int, INT_MIN, INT_MAX, int. intros H. apply wrap_id; lia. Qed.

Lemma long_id z : is_long z -> long z = z.
Proof. unfold is_long, LONG_MIN, LONG_MAX, long. intros H. apply wrap_id; lia. Qed.

Lemma long_range z : is_long (long z).
Proof.
  unfold is_long, LONG_MIN, LONG_MAX, long, wrap.
  pose proof (Z.mod_pos_bound (z + 2 ^ (32 - 1)) (2 ^ 32) ltac:(lia)). lia.
Qed.

Lemma CInt_long_int_id z : is_int z -> int (long z) = z.
Proof.
  intros H. rewrite long_id, int_id; [done | done |].
  unfold is_int, INT_MIN, INT_MAX in H. unfold is_long, LONG_MIN, LONG_MAX. lia.
Qed.
End CIntFacts.

(** ** Arrays *)

Section ArrayFacts.
Context {A : Type}.
Implicit Types (a : list A) (i j : Z) (d v : A).

Lemma length_set a i v : length (set a i v) = length a.
Proof. unfold set. destruct (i <? 0); [done | apply length_insert]. Qed.

Lemma get_set_eq d a i v :
  0 <= i -> (Z.to_nat i < length a)%nat -> get d (set a i v) i = v.
Proof.
  intros Hi Hlen. unfold get, set.
  destruct (Z.ltb_spec i 0); [lia |].
  by rewrite list_lookup_insert_eq.
Qed.

Lemma get_set_ne d a i j v : i <> j -> get d (set a i v) j = get d a j.
Proof.
  intros Hne. unfold get, set.
  destruct (Z.ltb_spec j 0); [done |].
  destruct (Z.ltb_spec i 0); [done |].
  rewrite list_lookup_insert_ne; [done | lia].
Qed.

Lemma set_set a i v w : set (set a i v) i w = set a i w.
Proof.
  unfold set. destruct (i <? 0); [done |].
  destruct (decide (Z.to_nat i < length a)%nat).
  - by rewrite list_insert_insert_eq.
  - rewrite (list_insert_ge a) by lia. by rewrite !(list_insert_ge a) by lia.
Qed.
End ArrayFacts.

(** ** radio.h *)

Lemma send_returns_minus_one r radioType channel setToOn :
  fst (Radio.send r radioType channel setToOn) = -1.
Proof.
  unfold Radio.send.
  destruct radioType; [done |].
  by destruct (Radio.sendGmomxen r channel setToOn).
Qed.

(** C5.  [Radio::send] does not tell a supported protocol on a channel in
    1..3 from an unsupported one: for [RADIO_GMOMXEN] on channel 1 the code is
    transmitted (five repetitions of the 33-bit code) and the call still
    returns the failure value -1, the assignment under [default] being
    reached from the [case] above it. *)
Theorem send_gmomxen_channel1_returns_failure :
  let r := {| Radio.gpioRadio := 4 |} in
  fst (Radio.send r Radio.RADIO_GMOMXEN 1 true) = -1 /\
  length (snd (Radio.send r Radio.RADIO_GMOMXEN 1 true)) = (5 * (1 + 2 * 33))%nat /\
  fst (Radio.sendGmomxen r 1 true) <> Some (-2).
Proof. vm_compute. repeat split; congruence. Qed.

(** ** countTime.h *)

Section RefreshJitter.
Import CInt CountTime.

(** The value of [random(-v, +v)] for a jitter bound [v >= 0]. *)
Lemma random_symmetric_range rnd v :
  0 <= rnd -> 0 <= v <= INT_MAX ->
  - v <= random rnd (int (- v)) v <= v.
Proof.
  intros Hrnd Hv. unfold INT_MAX in Hv.
  rewrite int_id by (unfold is_int, INT_MIN, INT_MAX; lia).
  unfold random.
  destruct (Z.geb_spec (- v) v) as [Hge | Hlt]; [lia |].
  rewrite (long_id (v - - v)) by (unfold is_long, LONG_MIN, LONG_MAX; lia).
  unfold random1.
  destruct (Z.eqb_spec (v - - v) 0) as [E | _]; [lia |].
  pose proof (Z.rem_bound_pos rnd (v - - v) Hrnd ltac:(lia)) as Hrem.
  rewrite long_id by (unfold is_long, LONG_MIN, LONG_MAX; lia).
  lia.
Qed.

Lemma step_refresh_fires rnd c :
  int (countRefresh_s c - 1) <= 0 ->
  step_refresh rnd c =
    (int (long (refreshPeriod_s c
                + random rnd (int (- varRefreshPeriod_s c)) (varRefreshPeriod_s c))),
     true).
Proof.
  intros H. unfold step_refresh.
  destruct (Z.leb_spec (int (countRefresh_s c - 1)) 0); [done | lia].
Qed.
End RefreshJitter.

(** C9.  Whenever the refresh countdown fires inside [CountTime::update], the
    refresh flag is raised and the countdown is reset to a value within
    [refreshPeriod_s - varRefreshPeriod_s, refreshPeriod_s + varRefreshPeriod_s],
    whatever value [rnd >= 0] the generator returns.  The jitter bound is a
    magnitude ([0 <= varRefreshPeriod_s]) and both ends of the interval are
    representable as [int]. *)
Theorem refresh_countdown_reset_within_jitter now_us now_ms rnd c :
  0 <= rnd ->
  0 <= CountTime.varRefreshPeriod_s c ->
  CInt.is_int (CountTime.refreshPeriod_s c - CountTime.varRefreshPeriod_s c) ->
  CInt.is_int (CountTime.refreshPeriod_s c + CountTime.varRefreshPeriod_s c) ->
  CountTime.refresh_fires now_ms c ->
  let c' := CountTime.update now_us now_ms rnd c in
  CountTime.flagRefresh c' = true /\
  CountTime.refreshPeriod_s c - CountTime.varRefreshPeriod_s c
    <= CountTime.countRefresh_s c'
    <= CountTime.refreshPeriod_s c + CountTime.varRefreshPeriod_s c.
Proof.
  intros Hrnd Hv Hlo Hhi [Hsec Hfire] c'. subst c'.
  unfold CountTime.update.
  destruct (Z.ltb_spec (CInt.ulong (now_ms - CountTime.lastTime c)) 1000); [lia |].
  destruct (CountTime.tick _ _ _) as [[h m] s].
  destruct (CountTime.step_decide c) as [cd fd].
  rewrite (step_refresh_fires rnd c Hfire). cbn [CountTime.flagRefresh CountTime.countRefresh_s].
  split; [done |].
  unfold CInt.is_int, CInt.INT_MIN, CInt.INT_MAX in Hlo, Hhi.
  pose proof (random_symmetric_range rnd (CountTime.varRefreshPeriod_s c) Hrnd
                ltac:(unfold CInt.INT_MAX; lia)) as Hj.
  rewrite CInt_long_int_id; [lia |].
  unfold CInt.is_int, CInt.INT_MIN, CInt.INT_MAX. lia.
Qed.

Lemma refresh_countdown_reset_within_jitter_witness :
  CountTime.flagRefresh (CountTime.update 0 1000 12345 Samples.clock_due) = true /\
  25 <= CountTime.countRefresh_s (CountTime.update 0 1000 12345 Samples.clock_due) <= 35.
Proof.
  apply (refresh_countdown_reset_within_jitter 0 1000 12345 Samples.clock_due).
  - lia.
  - vm_compute. discriminate.
  - vm_compute. split; discriminate.
  - vm_compute. split; discriminate.
  - vm_compute. split; discriminate.
Defined.

(** ** loads.h: registration *)

Section AddFacts.
Import Loads.

Lemma wf_lengths s :
  wf s ->
  forall i, 0 <= i < N_LOADS_MAX ->
    (Z.to_nat i < length (name s))%nat /\ (Z.to_nat i < length (powerW s))%nat /\
    (Z.to_nat i < length (lockOnSec s))%nat /\ (Z.to_nat i < length (lockOffSec s))%nat /\
    (Z.to_nat i < length (gpioOut s))%nat /\ (Z.to_nat i < length (gpioMode s))%nat /\
    (Z.to_nat i < length (radioModel s))%nat /\ (Z.to_nat i < length (channel s))%nat /\
    (Z.to_nat i < length (solarMode s))%nat /\ (Z.to_nat i < length (flag s))%nat /\
    (Z.to_nat i < length (on s))%nat /\ (Z.to_nat i < length (lockSec s))%nat.
Proof.
  unfold wf, N_LOADS_MAX. intros (_ & _ & -> & -> & -> & -> & -> & -> & -> & -> & -> & -> & -> & ->) i Hi.
  repeat split; lia.
Qed.

(** The result of a successful [add], field by field. *)
Lemma add_ok_inv digitalRead name_arg powerW_arg lockOnSec_arg lockOffSec_arg
    gpioOut_arg gpioMode_arg radioModel_arg channel_arg s s' out :
  add digitalRead name_arg powerW_arg lockOnSec_arg lockOffSec_arg
      gpioOut_arg gpioMode_arg radioModel_arg channel_arg s = (0, s', out) ->
  nLoads s < nLoadsMax s /\
  nLoadsMax s' = nLoadsMax s /\
  nLoads s' = CInt.int (nLoads s + 1) /\
  cause s' = cause s /\
  name s' = set (name s) (nLoads s) name_arg /\
  powerW s' = set (powerW s) (nLoads s) powerW_arg /\
  lockOnSec s' = set (lockOnSec s) (nLoads s) lockOnSec_arg /\
  lockOffSec s' = set (lockOffSec s) (nLoads s) lockOffSec_arg /\
  gpioOut s' = set (gpioOut s) (nLoads s) gpioOut_arg /\
  gpioMode s' = set (gpioMode s) (nLoads s) gpioMode_arg /\
  radioModel s' = set (radioModel s) (nLoads s) radioModel_arg /\
  channel s' = set (channel s) (nLoads s) channel_arg /\
  solarMode s' = set (solarMode s) (nLoads s)
                   (if gpioMode_arg =? -1 then true
                    else read_bool (digitalRead gpioMode_arg)) /\
  flag s' = set (flag s) (nLoads s) true /\
  on s' = set (on s) (nLoads s) false /\
  lockSec s' = set (lockSec s) (nLoads s) 0.
Proof.
  unfold add.
  destruct (Z.geb_spec (nLoads s) (nLoadsMax s)) as [Hfull | Hfree].
  - intros [=].
  - destruct (gpioMode_arg =? -1); intros [= <- _]; cbn; repeat split; done.
Qed.

End AddFacts.

(** C10.  After a successful call of [Loads::add] (return value 0) the
    registry was not full, the new load occupies slot [nLoads] with
    [on = false], [flag = true], [lockSec = 0] and the configuration given in
    the arguments, [solarMode = true] when no mode-switch pin is assigned
    ([gpioMode = -1]), so that the dispatcher will write the Off state for it;
    [nLoads] has grown by exactly one and every load registered before keeps
    its configuration and status fields. *)
Theorem add_success_fills_next_slot digitalRead name_arg powerW_arg
    lockOnSec_arg lockOffSec_arg gpioOut_arg gpioMode_arg radioModel_arg
    channel_arg s s' out :
  Loads.wf s ->
  Loads.add digitalRead name_arg powerW_arg lockOnSec_arg lockOffSec_arg
    gpioOut_arg gpioMode_arg radioModel_arg channel_arg s = (0, s', out) ->
  let n := Loads.nLoads s in
  n < Loads.N_LOADS_MAX /\
  Loads.nLoads s' = n + 1 /\
  Loads.on_at s' n = false /\
  Loads.flag_at s' n = true /\
  Loads.lockSec_at s' n = 0 /\
  (gpioMode_arg = -1 -> Loads.solarMode_at s' n = true) /\
  (Loads.name_at s' n = name_arg /\ Loads.powerW_at s' n = powerW_arg /\
   Loads.lockOnSec_at s' n = lockOnSec_arg /\ Loads.lockOffSec_at s' n = lockOffSec_arg /\
   Loads.gpioOut_at s' n = gpioOut_arg /\ Loads.gpioMode_at s' n = gpioMode_arg /\
   Loads.radioModel_at s' n = radioModel_arg /\ Loads.channel_at s' n = channel_arg) /\
  (forall i, 0 <= i < n -> Loads.same_config_at s s' i /\ Loads.same_status_at s s' i) /\
  (forall pRD, Loads.apply_load pRD s' n =
     (if gpioOut_arg =? -1 then [] else [EvDigitalWrite gpioOut_arg LOW]) ++
     match radioModel_arg with
     | Radio.NO_RADIO => []
     | model => snd (Radio.send pRD model channel_arg false)
     end) /\
  Loads.wf s'.
Proof.
  intros Hwf Hadd n.
  destruct (add_ok_inv _ _ _ _ _ _ _ _ _ _ _ _ Hadd)
    as (Hfree & HnMax & Hn & Hcause & Hname & Hpow & Hlon & Hloff & Hout & Hmode
        & Hradio & Hchan & Hsolar & Hflag & Hon & Hlock).
  pose proof Hwf as (HMax & Hrange & Hlens).
  rewrite HMax in Hfree. fold n in Hfree, Hrange.
  assert (Hn' : Loads.nLoads s' = n + 1).
  { rewrite Hn. apply int_id. unfold CInt.is_int, CInt.INT_MIN, CInt.INT_MAX.
    unfold Loads.N_LOADS_MAX in *. fold n. lia. }
  destruct (wf_lengths s Hwf n ltac:(lia))
    as (L1 & L2 & L3 & L4 & L5 & L6 & L7 & L8 & L9 & L10 & L11 & L12).
  assert (Hat : Loads.on_at s' n = false /\ Loads.flag_at s' n = true /\
                Loads.lockSec_at s' n = 0 /\
                Loads.gpioOut_at s' n = gpioOut_arg /\
                Loads.radioModel_at s' n = radioModel_arg /\
                Loads.channel_at s' n = channel_arg).
  { unfold Loads.on_at, Loads.flag_at, Loads.lockSec_at, Loads.gpioOut_at,
      Loads.radioModel_at, Loads.channel_at.
    rewrite Hon, Hflag, Hlock, Hout, Hradio, Hchan.
    fold n. rewrite !get_set_eq by (done || lia). done. }
  destruct Hat as (Aon & Aflag & Alock & Aout & Aradio & Achan).
  split; [done |]. split; [done |].
  split; [done |]. split; [done |]. split; [done |].
  split.
  { intros ->. unfold Loads.solarMode_at. rewrite Hsolar. fold n.
    rewrite get_set_eq by (done || lia). done. }
  split.
  { unfold Loads.name_at, Loads.powerW_at, Loads.lockOnSec_at, Loads.lockOffSec_at,
      Loads.gpioMode_at.
    rewrite Hname, Hpow, Hlon, Hloff, Hmode. fold n.
    rewrite !get_set_eq by (done || lia). done. }
  split.
  { intros i Hi.
    unfold Loads.same_config_at, Loads.same_status_at,
      Loads.name_at, Loads.powerW_at, Loads.lockOnSec_at, Loads.lockOffSec_at,
      Loads.gpioOut_at, Loads.gpioMode_at, Loads.radioModel_at, Loads.channel_at,
      Loads.solarMode_at, Loads.flag_at, Loads.on_at, Loads.lockSec_at.
    rewrite Hname, Hpow, Hlon, Hloff, Hout, Hmode, Hradio, Hchan, Hsolar, Hflag, Hon, Hlock.
    fold n. rewrite !get_set_ne by lia. done. }
  split.
  { intros pRD. unfold Loads.apply_load. rewrite Aout, Aradio, Achan, Aon.
    by destruct radioModel_arg, (gpioOut_arg =? -1). }
  unfold Loads.wf.
  rewrite HnMax, Hn', Hname, Hpow, Hlon, Hloff, Hout, Hmode, Hradio, Hchan, Hsolar,
    Hflag, Hon, Hlock, !length_set.
  unfold Loads.wf in Hwf. fold n in Hwf. unfold Loads.N_LOADS_MAX in *.
  repeat split; try tauto; lia.
Qed.

Lemma add_success_fills_next_slot_witness :
  Loads.wf Loads.init /\
  Loads.nLoads Samples.one_load = 1 /\
  Loads.on_at Samples.one_load 0 = false /\
  Loads.flag_at Samples.one_load 0 = true /\
  Loads.lockSec_at Samples.one_load 0 = 0 /\
  Loads.solarMode_at Samples.one_load 0 = true.
Proof.
  assert (Hwf : Loads.wf Loads.init).
  { vm_compute. repeat split; (reflexivity || discriminate). }
  split; [exact Hwf |].
  destruct (add_success_fills_next_slot Samples.pins_low "boilr" (F32.of_Z 1000)
              60 60 7 (-1) Radio.RADIO_GMOMXEN 1 Loads.init Samples.one_load
              [EvPinMode 7 OUTPUT; EvDigitalWrite 7 LOW] Hwf eq_refl)
    as (_ & Hn & Hon & Hflag & Hlock & Hsolar & _).
  split; [exact Hn |]. split; [exact Hon |]. split; [exact Hflag |].
  split; [exact Hlock |]. exact (Hsolar eq_refl).
Defined.

(** ** loads.h: the task of every second *)

Section SecondFacts.
Import Loads.
Variable digitalRead : Z -> level.

Lemma fold_left_invariant {S I : Type} (P : S -> Prop) (f : S -> I -> S) (l : list I) :
  (forall s i, P s -> P (f s i)) -> forall s, P s -> P (fold_left f l s).
Proof. intros Hf. induction l as [| i l IH]; intros s Hs; cbn; auto. Qed.

(** The loop of every second writes [solarMode] and [lockSec] only. *)
Lemma every_second_frame s :
  same_config s (every_second digitalRead s) /\
  on (every_second digitalRead s) = on s /\
  flag (every_second digitalRead s) = flag s /\
  cause (every_second digitalRead s) = cause s /\
  length (solarMode (every_second digitalRead s)) = length (solarMode s) /\
  length (lockSec (every_second digitalRead s)) = length (lockSec s).
Proof.
  unfold every_second.
  apply (fold_left_invariant
           (fun s' => same_config s s' /\ on s' = on s /\ flag s' = flag s /\
                      cause s' = cause s /\
                      length (solarMode s') = length (solarMode s) /\
                      length (lockSec s') = length (lockSec s))).
  - intros s' i (Hc & Hon & Hflag & Hcause & Hl1 & Hl2). unfold same_config in *. cbn.
    rewrite length_set.
    destruct (lockSec_at s' i >? 0); rewrite ?length_set; tauto.
  - unfold same_config. tauto.
Qed.

Lemma every_second_on_at s i : on_at (every_second digitalRead s) i = on_at s i.
Proof. unfold on_at. by rewrite (proj1 (proj2 (every_second_frame s))). Qed.

Lemma every_second_nLoads s : nLoads (every_second digitalRead s) = nLoads s.
Proof. by destruct (every_second_frame s) as ((_ & -> & _) & _). Qed.

Lemma every_second_wf s : wf s -> wf (every_second digitalRead s).
Proof.
  destruct (every_second_frame s)
    as ((E1 & E2 & E3 & E4 & E5 & E6 & E7 & E8 & E9 & E10) & E11 & E12 & _ & E13 & E14).
  unfold wf. rewrite E1, E2, E3, E4, E5, E6, E7, E8, E9, E10, E11, E12, E13, E14. tauto.
Qed.

(** The steps for the loads in [l] leave [solarMode] of another load alone
    and read the mode pin recorded at entry. *)
Lemma second_steps_solarMode_other l : forall s i,
  i ∉ l -> solarMode_at (fold_left (second_step digitalRead) l s) i = solarMode_at s i.
Proof.
  induction l as [| a l IH]; intros s i Hi; [done |].
  apply not_elem_of_cons in Hi as [Hne Hi].
  cbn [fold_left]. rewrite IH by done.
  unfold solarMode_at. cbn. by apply get_set_ne.
Qed.

Lemma second_steps_gpioMode l : forall s,
  gpioMode (fold_left (second_step digitalRead) l s) = gpioMode s.
Proof. induction l as [| a l IH]; intros s; [done |]. cbn [fold_left]. by rewrite IH. Qed.

Lemma second_steps_solarMode l : forall s i,
  i ∈ l -> 0 <= i -> (Z.to_nat i < length (solarMode s))%nat ->
  solarMode_at (fold_left (second_step digitalRead) l s) i
  = read_bool (digitalRead (gpioMode_at s i)).
Proof.
  induction l as [| a l IH]; intros s i Hi H0 Hlen; [by apply elem_of_nil in Hi |].
  cbn [fold_left].
  destruct (base.decide (i ∈ l)) as [Hin | Hnot].
  - rewrite IH; [done | done | done |]. cbn. by rewrite length_set.
  - apply elem_of_cons in Hi as [-> | Hin]; [| done].
    rewrite second_steps_solarMode_other by done.
    unfold solarMode_at. cbn. by apply get_set_eq.
Qed.

Lemma elem_of_indices n i : i ∈ indices n <-> 0 <= i < n.
Proof.
  unfold indices. rewrite list_elem_of_fmap. split.
  - intros (k & -> & Hk). apply elem_of_seq in Hk. lia.
  - intros Hi. exists (Z.to_nat i). split; [lia |]. apply elem_of_seq. lia.
Qed.

(** Every registered load has its mode read from [digitalRead(gpioMode[i])]
    at each second, whatever the value of [gpioMode[i]]. *)
Lemma every_second_solarMode s i :
  wf s -> 0 <= i < nLoads s ->
  solarMode_at (every_second digitalRead s) i
  = read_bool (digitalRead (gpioMode_at s i)).
Proof.
  intros Hwf Hi. unfold every_second.
  destruct (wf_lengths s Hwf i) as (_ & _ & _ & _ & _ & _ & _ & _ & L & _).
  { unfold wf in Hwf. lia. }
  apply second_steps_solarMode; [by apply elem_of_indices | lia | done].
Qed.

End SecondFacts.

(** C4.  A load registered without a mode switch starts in solar mode, but
    the task of every second in [Loads::decide] assigns
    [solarMode[i] = digitalRead(gpioMode[i])] for every load, without the test
    [gpioMode[i] != -1] that [Loads::add] makes: with a pin reading LOW
    the load leaves solar mode at the first second. *)
Theorem decide_resamples_mode_without_switch :
  Loads.gpioMode_at Samples.one_load 0 = -1 /\
  Loads.solarMode_at Samples.one_load 0 = true /\
  CountTime.flagOneSec Samples.second_tick = true /\
  Loads.solarMode_at
    (Loads.decide Samples.pins_low Samples.second_tick Values.init Samples.one_load) 0
  = false.
Proof. vm_compute. done. Qed.

(** ** loads.h: the decision rules *)

Section ScanFacts.
Import Loads.
Context {B : Type}.

Lemma first_down_Some (body : Z -> option B) k b :
  first_down body k = Some b ->
  exists i, 0 <= i < Z.of_nat k /\ body i = Some b /\
            forall j, i < j < Z.of_nat k -> body j = None.
Proof.
  induction k as [| k IH]; [done |].
  cbn [first_down]. destruct (body (Z.of_nat k)) as [b' |] eqn:Hk.
  - intros [= ->]. exists (Z.of_nat k). split; [lia |]. split; [done |]. intros j Hj. lia.
  - intros H. destruct (IH H) as (i & Hi & Hb & Hafter).
    exists i. split; [lia |]. split; [done |].
    intros j Hj. destruct (Z.eq_dec j (Z.of_nat k)) as [-> | Hne]; [done |].
    apply Hafter. lia.
Qed.

Lemma first_down_None (body : Z -> option B) k :
  first_down body k = None -> forall j, 0 <= j < Z.of_nat k -> body j = None.
Proof.
  induction k as [| k IH]; [intros _ j Hj; lia |].
  cbn [first_down]. destruct (body (Z.of_nat k)) as [b' |] eqn:Hk; [done |].
  intros H j Hj. destruct (Z.eq_dec j (Z.of_nat k)) as [-> | Hne]; [done |].
  apply IH; [done | lia].
Qed.

Lemma first_down_found (body : Z -> option B) k i b :
  0 <= i < Z.of_nat k -> body i = Some b ->
  (forall j, i < j < Z.of_nat k -> body j = None) ->
  first_down body k = Some b.
Proof.
  induction k as [| k IH]; intros Hi Hb Hafter; [lia |].
  cbn [first_down]. destruct (Z.eq_dec i (Z.of_nat k)) as [-> | Hne].
  - by rewrite Hb.
  - rewrite Hafter by lia. apply IH; [lia | done |]. intros j Hj. apply Hafter. lia.
Qed.

Lemma first_up_Some (body : Z -> option B) n : forall from b,
  first_up body from n = Some b ->
  exists i, from <= i < from + Z.of_nat n /\ body i = Some b /\
            forall j, from <= j < i -> body j = None.
Proof.
  induction n as [| n IH]; intros from b; [done |].
  cbn [first_up]. destruct (body from) as [b' |] eqn:Hfrom.
  - intros [= ->]. exists from. split; [lia |]. split; [done |]. intros j Hj. lia.
  - intros H. destruct (IH _ _ H) as (i & Hi & Hb & Hbefore).
    exists i. split; [lia |]. split; [done |].
    intros j Hj. destruct (Z.eq_dec j from) as [-> | Hne]; [done |].
    apply Hbefore. lia.
Qed.

End ScanFacts.

Lemma when_Some {B : Type} (c : bool) (b b' : B) :
  Loads.when c b = Some b' -> c = true /\ b' = b.
Proof. unfold Loads.when. destruct c; [intros [= ->] | intros [=]]; done. Qed.

Section RuleFacts.
Import Loads.
Variable pCV : Values.t.
Variable s : t.

(** What each rule knows about the load it picks. *)
Lemma rule1_index_Some i :
  rule1_index pCV s = Some i ->
  F32.leb (Values.Margin pCV) F32.zero = true /\ last_on s i.
Proof.
  unfold rule1_index, last_on.
  destruct (F32.leb (Values.Margin pCV) F32.zero); [| done].
  intros H. apply first_down_Some in H as (k & Hk & Hbody & Hafter).
  apply when_Some in Hbody as [Hon ->].
  split; [done |]. split; [lia |]. split; [done |].
  intros j Hj. specialize (Hafter j ltac:(lia)).
  unfold when in Hafter. by destruct (on_at s j).
Qed.

Lemma rule1_index_last_on k :
  0 <= nLoads s ->
  F32.leb (Values.Margin pCV) F32.zero = true -> last_on s k ->
  rule1_index pCV s = Some k.
Proof.
  intros Hn Hmargin (Hk & Hon & Hafter). unfold rule1_index. rewrite Hmargin.
  apply (first_down_found _ _ k); [lia | by rewrite Hon |].
  intros j Hj. rewrite Hafter; [done | lia].
Qed.

(** When some registered load is on, one of them is the last. *)
Lemma last_on_exists i :
  0 <= i < nLoads s -> on_at s i = true -> exists k, last_on s k.
Proof.
  intros Hi Hon.
  destruct (first_down (fun i => when (on_at s i) i) (Z.to_nat (nLoads s))) as [k |] eqn:E.
  - apply first_down_Some in E as (k' & Hk & Hbody & Hafter).
    apply when_Some in Hbody as [Hk_on ->].
    exists k'. split; [lia |]. split; [done |].
    intros j Hj. specialize (Hafter j ltac:(lia)).
    unfold when in Hafter. by destruct (on_at s j).
  - pose proof (first_down_None _ _ E i ltac:(lia)) as Hnone.
    unfold when in Hnone. by rewrite Hon in Hnone.
Qed.

Lemma last_on_unique k k' : last_on s k -> last_on s k' -> k = k'.
Proof.
  intros (Hk & Hon & Hafter) (Hk' & Hon' & Hafter').
  destruct (Z.lt_trichotomy k k') as [Hlt | [-> | Hgt]]; [| done |].
  - rewrite (Hafter k') in Hon' by lia. done.
  - rewrite (Hafter' k) in Hon by lia. done.
Qed.

Lemma rule2_index_Some i :
  rule2_index pCV s = Some i ->
  solarMode_at s i = true /\ on_at s i = true /\ lockSec_at s i = 0.
Proof.
  unfold rule2_index.
  destruct (F32.leb (Values.PnFilt pCV) F32.zero); [| done].
  intros H. apply first_down_Some in H as (k & _ & Hbody & _).
  apply when_Some in Hbody as [Hc ->].
  apply andb_prop in Hc as [Hc Hlock]. apply andb_prop in Hc as [Hsolar Hon].
  apply Z.eqb_eq in Hlock. done.
Qed.

Lemma rule3_index_Some j :
  rule3_index pCV s = Some j ->
  exists i, 0 <= i < j /\
    on_at s i = false /\ solarMode_at s i = true /\ lockSec_at s i = 0 /\
    on_at s j = true /\ solarMode_at s j = true /\ lockSec_at s j = 0.
Proof.
  unfold rule3_index. intros H.
  apply first_up_Some in H as (i & Hi & Hbody & _).
  destruct (negb (on_at s i) && solarMode_at s i && (lockSec_at s i =? 0)) eqn:Hc; [| done].
  apply first_up_Some in Hbody as (j' & Hj & Hinv & _).
  apply when_Some in Hinv as [Hinv ->].
  apply andb_prop in Hc as [Hc Hlocki]. apply andb_prop in Hc as [Honi Hsolari].
  unfold inversion in Hinv.
  apply andb_prop in Hinv as [Hinv _]. apply andb_prop in Hinv as [Hinv Hlockj].
  apply andb_prop in Hinv as [Honj Hsolarj].
  apply Z.eqb_eq in Hlocki, Hlockj. apply negb_true_iff in Honi.
  exists i. repeat split; (done || lia).
Qed.

Lemma rule4_index_Some i :
  rule4_index pCV s = Some i ->
  on_at s i = false /\ lockSec_at s i = 0.
Proof.
  unfold rule4_index. intros H.
  apply first_up_Some in H as (k & _ & Hbody & _).
  apply when_Some in Hbody as [Hc ->]. unfold can_activate in Hc.
  apply andb_prop in Hc as [Hc _]. apply andb_prop in Hc as [Hc _].
  apply andb_prop in Hc as [Hon Hlock].
  apply Z.eqb_eq in Hlock. apply negb_true_iff in Hon. done.
Qed.

(** A rule that matches makes one [switch]; no rule matching, nothing is
    changed. *)
Lemma decide_rules_shape :
  decide_rules pCV s = s \/
  exists i to_on lock why, decide_rules pCV s = switch i to_on lock why s.
Proof.
  unfold decide_rules, switch_off.
  destruct (rule1_index pCV s); [right; eauto |].
  destruct (rule2_index pCV s); [right; eauto |].
  destruct (rule3_index pCV s); [right; eauto |].
  destruct (rule4_index pCV s); [right; eauto | by left].
Qed.

Lemma switch_on_at_other i to_on lock why j :
  j <> i -> on_at (switch i to_on lock why s) j = on_at s j.
Proof. intros Hne. unfold on_at. cbn. apply get_set_ne. congruence. Qed.

Lemma switch_changes_on_only_at i to_on lock why j :
  on_at (switch i to_on lock why s) j <> on_at s j -> j = i.
Proof.
  intros Hne. destruct (Z.eq_dec j i) as [-> | Hji]; [done |].
  by rewrite switch_on_at_other in Hne.
Qed.

End RuleFacts.

Section DecideFacts.
Import Loads.
Variable digitalRead : Z -> level.
Variable pCT : CountTime.t.
Variable pCV : Values.t.
Variable s : t.

Lemma decide_unfold :
  decide digitalRead pCT pCV s =
  if CountTime.flagDecide pCT
  then decide_rules pCV (at_rules digitalRead pCT s)
  else at_rules digitalRead pCT s.
Proof. reflexivity. Qed.

Lemma at_rules_on_at i : on_at (at_rules digitalRead pCT s) i = on_at s i.
Proof.
  unfold at_rules. destruct (CountTime.flagOneSec pCT); [| done].
  apply every_second_on_at.
Qed.

Lemma at_rules_nLoads : nLoads (at_rules digitalRead pCT s) = nLoads s.
Proof.
  unfold at_rules. destruct (CountTime.flagOneSec pCT); [| done].
  apply every_second_nLoads.
Qed.

Lemma at_rules_wf : wf s -> wf (at_rules digitalRead pCT s).
Proof.
  unfold at_rules. destruct (CountTime.flagOneSec pCT); [| done].
  apply every_second_wf.
Qed.

Lemma at_rules_lockOffSec_at i :
  lockOffSec_at (at_rules digitalRead pCT s) i = lockOffSec_at s i.
Proof.
  unfold at_rules, lockOffSec_at. destruct (CountTime.flagOneSec pCT); [| done].
  destruct (every_second_frame digitalRead s) as ((_ & _ & _ & _ & _ & -> & _) & _). done.
Qed.

Lemma at_rules_last_on k : last_on s k <-> last_on (at_rules digitalRead pCT s) k.
Proof.
  unfold last_on. rewrite at_rules_nLoads, at_rules_on_at.
  split; intros (H1 & H2 & H3); (split; [done |]; split; [done |]);
    intros j Hj; specialize (H3 j Hj); by rewrite at_rules_on_at in *.
Qed.

End DecideFacts.

(** C1.  In a call of [Loads::decide] with the decide flag set, the first of
    the four rules that matches makes its single change to the state left by
    the task of every second and the call returns: no later rule is applied
    (a rule is only reached when all rules before it found no load), and at
    most one load has another on/off state after the call than before it. *)
Theorem decide_changes_at_most_one_load digitalRead pCT pCV s :
  CountTime.flagDecide pCT = true ->
  let s1 := Loads.at_rules digitalRead pCT s in
  let s' := Loads.decide digitalRead pCT pCV s in
  (forall i, Loads.rule1_index pCV s1 = Some i ->
     s' = Loads.switch_off i "no margin" s1) /\
  (forall i, Loads.rule1_index pCV s1 = None -> Loads.rule2_index pCV s1 = Some i ->
     s' = Loads.switch_off i "no excedent" s1) /\
  (forall j, Loads.rule1_index pCV s1 = None -> Loads.rule2_index pCV s1 = None ->
     Loads.rule3_index pCV s1 = Some j ->
     s' = Loads.switch_off j "priority inversion" s1) /\
  (forall i, Loads.rule1_index pCV s1 = None -> Loads.rule2_index pCV s1 = None ->
     Loads.rule3_index pCV s1 = None -> Loads.rule4_index pCV s1 = Some i ->
     exists why, s' = Loads.switch i true (Loads.lockOnSec_at s1 i) why s1) /\
  (Loads.rule1_index pCV s1 = None -> Loads.rule2_index pCV s1 = None ->
   Loads.rule3_index pCV s1 = None -> Loads.rule4_index pCV s1 = None -> s' = s1) /\
  (forall i j, Loads.on_at s' i <> Loads.on_at s i ->
               Loads.on_at s' j <> Loads.on_at s j -> i = j).
Proof.
  intros Hflag s1 s'. subst s'. rewrite decide_unfold, Hflag. fold s1.
  repeat split.
  - intros i H. unfold Loads.decide_rules. by rewrite H.
  - intros i H1 H2. unfold Loads.decide_rules. by rewrite H1, H2.
  - intros j H1 H2 H3. unfold Loads.decide_rules. by rewrite H1, H2, H3.
  - intros i H1 H2 H3 H4. unfold Loads.decide_rules. rewrite H1, H2, H3, H4. eauto.
  - intros H1 H2 H3 H4. unfold Loads.decide_rules. by rewrite H1, H2, H3, H4.
  - intros i j Hi Hj.
    destruct (decide_rules_shape pCV s1) as [E | (k & b & lock & why & E)];
      rewrite E in Hi, Hj.
    + exfalso. apply Hi. apply at_rules_on_at.
    + rewrite <- (at_rules_on_at digitalRead pCT s) in Hi, Hj. fold s1 in Hi, Hj.
      apply switch_changes_on_only_at in Hi, Hj. congruence.
Qed.

(** C2.  In a call of [Loads::decide] with the decide flag set and
    [Margin <= 0], if at least one registered load is on, the one change of
    the call is made by rule 1: the highest-index load [k] that is on is
    switched off whatever its lock counter, its flag is raised, its lock
    counter is set to its lock-off time and the cause is "no margin"; every
    other load keeps its on/off state, flag and lock counter as the task of
    every second left them, so no change of rules 2 to 4 takes place. *)
Theorem no_margin_rule_takes_precedence digitalRead pCT pCV s i :
  Loads.wf s ->
  CountTime.flagDecide pCT = true ->
  F32.leb (Values.Margin pCV) F32.zero = true ->
  0 <= i < Loads.nLoads s -> Loads.on_at s i = true ->
  let s1 := Loads.at_rules digitalRead pCT s in
  let s' := Loads.decide digitalRead pCT pCV s in
  exists k,
    Loads.last_on s k /\
    s' = Loads.switch_off k "no margin" s1 /\
    Loads.on_at s' k = false /\
    Loads.flag_at s' k = true /\
    Loads.lockSec_at s' k = Loads.lockOffSec_at s k /\
    Loads.cause s' = "no margin"%string /\
    (forall j, j <> k ->
       Loads.on_at s' j = Loads.on_at s j /\
       Loads.flag_at s' j = Loads.flag_at s1 j /\
       Loads.lockSec_at s' j = Loads.lockSec_at s1 j) /\
    Loads.solarMode s' = Loads.solarMode s1.
Proof.
  intros Hwf Hflag Hmargin Hi Hon s1 s'.
  destruct (last_on_exists s i Hi Hon) as [k Hlast].
  exists k. split; [exact Hlast |].
  pose proof (at_rules_wf digitalRead pCT s Hwf) as Hwf1. fold s1 in Hwf1.
  pose proof (proj1 (at_rules_last_on digitalRead pCT s k) Hlast) as Hlast1. fold s1 in Hlast1.
  assert (E : s' = Loads.switch_off k "no margin" s1).
  { subst s'. rewrite decide_unfold, Hflag. fold s1. unfold Loads.decide_rules.
    rewrite (rule1_index_last_on pCV s1 k); [done | | done | done].
    unfold Loads.wf in Hwf1. lia. }
  split; [done |]. rewrite E.
  destruct Hlast1 as (Hk & _ & _).
  destruct (wf_lengths s1 Hwf1 k) as (_ & _ & _ & _ & _ & _ & _ & _ & _ & Lf & Lo & Ll).
  { unfold Loads.wf in Hwf1. lia. }
  unfold Loads.switch_off, Loads.on_at, Loads.flag_at, Loads.lockSec_at. cbn.
  rewrite !get_set_eq by (done || lia).
  split; [done |]. split; [done |].
  split; [apply at_rules_lockOffSec_at |]. split; [done |].
  split; [| done].
  intros j Hj. rewrite !get_set_ne by congruence.
  split; [apply at_rules_on_at | done].
Qed.

(** C3.  In a call of [Loads::decide], a load whose lock counter is above
    zero when the rules are evaluated (that is, after the decrement made by
    the task of every second of the same call) has its on/off state changed
    only by rule 1: if it is changed, the decide flag is set, [Margin <= 0],
    the load is the highest-index load that was on, and the call made the
    change of rule 1 and no other.  Rules 2, 3 and 4 never change it. *)
Theorem locked_load_changed_only_by_rule1 digitalRead pCT pCV s i :
  let s1 := Loads.at_rules digitalRead pCT s in
  let s' := Loads.decide digitalRead pCT pCV s in
  0 < Loads.lockSec_at s1 i ->
  Loads.on_at s' i <> Loads.on_at s i ->
  CountTime.flagDecide pCT = true /\
  F32.leb (Values.Margin pCV) F32.zero = true /\
  Loads.last_on s i /\
  Loads.rule1_index pCV s1 = Some i /\
  s' = Loads.switch_off i "no margin" s1.
Proof.
  intros s1 s' Hlock Hchg. subst s'. rewrite decide_unfold in *.
  destruct (CountTime.flagDecide pCT) eqn:Hflag; fold s1 in Hchg |- *.
  2: { exfalso. apply Hchg. apply at_rules_on_at. }
  rewrite <- (at_rules_on_at digitalRead pCT s) in Hchg. fold s1 in Hchg.
  unfold Loads.decide_rules in *.
  destruct (Loads.rule1_index pCV s1) as [k |] eqn:H1.
  { apply switch_changes_on_only_at in Hchg as ->.
    destruct (rule1_index_Some pCV s1 k H1) as [Hm Hlast].
    apply at_rules_last_on in Hlast. done. }
  exfalso.
  destruct (Loads.rule2_index pCV s1) as [k |] eqn:H2.
  { apply switch_changes_on_only_at in Hchg as ->.
    destruct (rule2_index_Some pCV s1 k H2) as (_ & _ & Hz). lia. }
  destruct (Loads.rule3_index pCV s1) as [k |] eqn:H3.
  { apply switch_changes_on_only_at in Hchg as ->.
    destruct (rule3_index_Some pCV s1 k H3) as (h & _ & _ & _ & _ & _ & _ & Hz). lia. }
  destruct (Loads.rule4_index pCV s1) as [k |] eqn:H4.
  { apply switch_changes_on_only_at in Hchg as ->.
    destruct (rule4_index_Some pCV s1 k H4) as (_ & Hz). lia. }
  by apply Hchg.
Qed.

Lemma sample_two_loads_on_wf : Loads.wf Samples.two_loads_on.
Proof. vm_compute. repeat split; (reflexivity || discriminate). Defined.

Lemma sample_two_loads_on_last_on : Loads.last_on Samples.two_loads_on 1.
Proof.
  split; [vm_compute; split; [discriminate | reflexivity] |].
  split; [reflexivity |].
  intros j Hj. change (Loads.nLoads Samples.two_loads_on) with 2 in Hj. lia.
Defined.

Lemma decide_changes_at_most_one_load_witness :
  Loads.decide Samples.pins_low Samples.decide_tick Samples.values_overload
    Samples.two_loads_on
  = Loads.switch_off 1 "no margin"
      (Loads.at_rules Samples.pins_low Samples.decide_tick Samples.two_loads_on).
Proof.
  destruct (decide_changes_at_most_one_load Samples.pins_low Samples.decide_tick
              Samples.values_overload Samples.two_loads_on eq_refl)
    as (Hrule1 & _).
  exact (Hrule1 1 eq_refl).
Defined.

Lemma no_margin_rule_takes_precedence_witness :
  Loads.on_at (Loads.decide Samples.pins_low Samples.decide_tick
                 Samples.values_overload Samples.two_loads_on) 1 = false /\
  Loads.lockSec_at (Loads.decide Samples.pins_low Samples.decide_tick
                      Samples.values_overload Samples.two_loads_on) 1 = 120 /\
  Loads.cause (Loads.decide Samples.pins_low Samples.decide_tick
                 Samples.values_overload Samples.two_loads_on) = "no margin"%string.
Proof.
  destruct (no_margin_rule_takes_precedence Samples.pins_low Samples.decide_tick
              Samples.values_overload Samples.two_loads_on 0
              sample_two_loads_on_wf eq_refl eq_refl)
    as (k & Hlast & _ & Hon & _ & Hlock & Hcause & _).
  - vm_compute. split; [discriminate | reflexivity].
  - reflexivity.
  - rewrite (last_on_unique _ _ _ Hlast sample_two_loads_on_last_on) in Hon, Hlock.
    split; [exact Hon |]. split; [exact Hlock | exact Hcause].
Defined.

Lemma locked_load_changed_only_by_rule1_witness :
  Loads.lockSec_at (Loads.at_rules Samples.pins_low Samples.decide_tick
                      Samples.two_loads_on) 1 = 59 /\
  Loads.rule1_index Samples.values_overload
    (Loads.at_rules Samples.pins_low Samples.decide_tick Samples.two_loads_on) = Some 1.
Proof.
  split; [reflexivity |].
  apply (locked_load_changed_only_by_rule1 Samples.pins_low Samples.decide_tick
           Samples.values_overload Samples.two_loads_on 1).
  - vm_compute. reflexivity.
  - vm_compute. discriminate.
Defined.

(** ** loads.h: activation *)

Section EventFacts.

Lemma hardware_app out1 out2 :
  Loads.hardware (out1 ++ out2) = Loads.hardware out1 ++ Loads.hardware out2.
Proof. unfold Loads.hardware. apply List.filter_app. Qed.

Lemma hardware_no_log out :
  Forall (fun e => Loads.is_log e = false) out -> Loads.hardware out = out.
Proof.
  unfold Loads.hardware. induction 1 as [| e out He _ IH]; [done |].
  cbn. rewrite He. cbn. by rewrite IH.
Qed.

Lemma send_bit_no_log r c : Forall (fun e => Loads.is_log e = false) (Radio.send_bit r c).
Proof. unfold Radio.send_bit. destruct (Ascii.eqb c "0"); repeat constructor. Qed.

Lemma send_code_no_log r code : Forall (fun e => Loads.is_log e = false) (Radio.send_code r code).
Proof.
  unfold Radio.send_code. constructor; [done |].
  apply Forall_concat, Forall_fmap, Forall_true. intros c. apply send_bit_no_log.
Qed.

(** The transmitter only produces pulses and waits. *)
Lemma send_no_log r radioType channel setToOn :
  Forall (fun e => Loads.is_log e = false) (snd (Radio.send r radioType channel setToOn)).
Proof.
  unfold Radio.send. destruct radioType; [by constructor |].
  unfold Radio.sendGmomxen.
  destruct ((channel <? 1) || (channel >? Radio.N_CHANNELS)); cbn [snd]; [by constructor |].
  apply Forall_concat, Forall_replicate, send_code_no_log.
Qed.

Lemma apply_load_no_log pRD s i :
  Forall (fun e => Loads.is_log e = false) (Loads.apply_load pRD s i).
Proof.
  unfold Loads.apply_load. apply Forall_app. split.
  - destruct (Loads.gpioOut_at s i =? -1); repeat constructor.
  - destruct (Loads.radioModel_at s i); [by constructor | apply send_no_log].
Qed.

End EventFacts.

Section ActivateFacts.
Import Loads.
Variable pCT : CountTime.t.
Variable pRD : Radio.t.
Variable pCV : Values.t.

Lemma flags_apart_refl s : flags_apart s s.
Proof. unfold flags_apart, same_config, same_decision. tauto. Qed.

Lemma flags_apart_trans s1 s2 s3 :
  flags_apart s1 s2 -> flags_apart s2 s3 -> flags_apart s1 s3.
Proof.
  unfold flags_apart, same_config, same_decision.
  intros ((A1 & A2 & A3 & A4 & A5 & A6 & A7 & A8 & A9 & A10) & (B1 & B2 & B3 & B4) & C)
         ((D1 & D2 & D3 & D4 & D5 & D6 & D7 & D8 & D9 & D10) & (E1 & E2 & E3 & E4) & F).
  repeat split; congruence.
Qed.

Lemma clear_flag_flags_apart i s : flags_apart s (clear_flag i s).
Proof.
  unfold flags_apart, same_config, same_decision. cbn. rewrite length_set. tauto.
Qed.

Lemma apply_load_flags_apart s s' i :
  flags_apart s s' -> apply_load pRD s' i = apply_load pRD s i.
Proof.
  intros ((_ & _ & _ & _ & _ & _ & Hout & _ & Hradio & Hchan) & (Hon & _) & _).
  unfold apply_load, gpioOut_at, radioModel_at, channel_at, on_at.
  by rewrite Hout, Hradio, Hchan, Hon.
Qed.

Lemma activate_step_flags_apart s out i :
  flags_apart s (fst (activate_step pCT pRD pCV (s, out) i)).
Proof.
  unfold activate_step.
  destruct (flag_at s i || CountTime.flagRefresh pCT); cbn.
  - apply clear_flag_flags_apart.
  - apply flags_apart_refl.
Qed.

Lemma activate_step_flag_other s out i j :
  j <> i -> flag_at (fst (activate_step pCT pRD pCV (s, out) i)) j = flag_at s j.
Proof.
  intros Hne. unfold activate_step.
  destruct (flag_at s i || CountTime.flagRefresh pCT); cbn; [| done].
  unfold flag_at. cbn. apply get_set_ne. congruence.
Qed.

Lemma activate_step_flag_self s out i :
  0 <= i -> (Z.to_nat i < length (flag s))%nat ->
  flag_at (fst (activate_step pCT pRD pCV (s, out) i)) i = false.
Proof.
  intros H0 Hlen. unfold activate_step.
  destruct (flag_at s i) eqn:Hf; cbn.
  - unfold flag_at. cbn. by apply get_set_eq.
  - destruct (CountTime.flagRefresh pCT); cbn; [| done].
    unfold flag_at. cbn. by apply get_set_eq.
Qed.

Lemma activate_step_hardware s out i :
  hardware (snd (activate_step pCT pRD pCV (s, out) i))
  = hardware out ++ emitted pCT pRD s i.
Proof.
  unfold activate_step, Loads.emitted.
  destruct (flag_at s i || CountTime.flagRefresh pCT); cbn.
  - rewrite hardware_app.
    rewrite (apply_load_flags_apart s) by apply clear_flag_flags_apart.
    change (?l ++ ?e :: ?k) with (l ++ e :: k).
    f_equal. unfold hardware at 1. cbn [List.filter].
    assert (Hlog : negb (is_log (if flag_at s i then print i pCT pCV s
                                 else printRefr i pCT s)) = false).
    { by destruct (flag_at s i). }
    rewrite Hlog. apply hardware_no_log, apply_load_no_log.
  - by rewrite app_nil_r.
Qed.

(** The loop of [activate] over a list of distinct loads. *)
Lemma activate_loop l : forall s out,
  NoDup l ->
  (forall i, i ∈ l -> 0 <= i /\ (Z.to_nat i < length (flag s))%nat) ->
  let r := fold_left (activate_step pCT pRD pCV) l (s, out) in
  flags_apart s (fst r) /\
  (forall i, i ∈ l -> flag_at (fst r) i = false) /\
  (forall i, i ∉ l -> flag_at (fst r) i = flag_at s i) /\
  hardware (snd r) = hardware out ++ concat (map (emitted pCT pRD s) l).
Proof.
  induction l as [| a l IH]; intros s out Hnd Hrange; cbn [fold_left].
  { cbn. rewrite app_nil_r. split; [apply flags_apart_refl |].
    split; [intros i Hi; by apply elem_of_nil in Hi | done]. }
  apply NoDup_cons in Hnd as [Ha Hnd].
  destruct (activate_step pCT pRD pCV (s, out) a) as [sa outa] eqn:Estep.
  pose proof (activate_step_flags_apart s out a) as Hfa. rewrite Estep in Hfa. cbn [fst] in Hfa.
  pose proof (activate_step_hardware s out a) as Hhw. rewrite Estep in Hhw. cbn [snd] in Hhw.
  assert (Hlen : length (flag sa) = length (flag s)) by apply Hfa.
  destruct (IH sa outa Hnd) as (Hfr & Hin & Hout & Hhard).
  { intros i Hi. rewrite Hlen. apply Hrange. by apply elem_of_cons; right. }
  split; [eapply flags_apart_trans; eassumption |].
  split; [| split].
  - intros i Hi. apply elem_of_cons in Hi as [-> | Hi]; [| by apply Hin].
    rewrite Hout by done.
    pose proof (activate_step_flag_self s out a) as Hself. rewrite Estep in Hself.
    apply Hself; apply Hrange; by apply elem_of_cons; left.
  - intros i Hi. apply not_elem_of_cons in Hi as [Hne Hi].
    rewrite Hout by done.
    pose proof (activate_step_flag_other s out a i Hne) as Hoth. by rewrite Estep in Hoth.
  - rewrite Hhard, Hhw. cbn [map concat]. rewrite <- app_assoc. do 2 f_equal.
    f_equal. apply map_ext_in. intros i Hi%list_elem_of_In.
    unfold Loads.emitted. rewrite (apply_load_flags_apart s sa) by done.
    pose proof (activate_step_flag_other s out a i) as Hoth. rewrite Estep in Hoth.
    cbn [fst] in Hoth. rewrite Hoth; [done |]. intros ->. done.
Qed.

End ActivateFacts.

Section ActivateAgain.
Import Loads.

Lemma set_same {A : Type} (d : A) (a : list A) (i : Z) (v : A) :
  get d a i = v -> (Z.to_nat i < length a)%nat -> set a i v = a.
Proof.
  unfold get, set. destruct (i <? 0); [done |].
  intros Hget Hlen. apply list_insert_id.
  destruct (lookup_lt_is_Some_2 a (Z.to_nat i) Hlen) as [x Hx].
  rewrite Hx in Hget |- *. cbn in Hget. congruence.
Qed.

Lemma set_beyond {A : Type} (a : list A) (i : Z) (v : A) :
  (length a <= Z.to_nat i)%nat -> set a i v = a.
Proof. unfold set. destruct (i <? 0); [done |]. apply list_insert_ge. Qed.

Lemma clear_flag_id i s : flag_at s i = false -> clear_flag i s = s.
Proof.
  intros Hf. unfold clear_flag.
  assert (E : set (flag s) i false = flag s).
  { destruct (le_lt_dec (length (flag s)) (Z.to_nat i)).
    - by apply set_beyond.
    - by apply (set_same false). }
  rewrite E. by destruct s.
Qed.

Lemma NoDup_indices n : NoDup (indices n).
Proof.
  unfold indices. apply NoDup_fmap_2; [| apply NoDup_seq].
  intros x y H. lia.
Qed.

Variable pRD : Radio.t.

(** A call on a state without pending flags leaves the state as it is, and
    without the refresh flag it does nothing at all. *)
Lemma activate_loop_settled pCT pCV s l : forall out,
  (forall i, i ∈ l -> flag_at s i = false) ->
  fst (fold_left (activate_step pCT pRD pCV) l (s, out)) = s /\
  (CountTime.flagRefresh pCT = false ->
   snd (fold_left (activate_step pCT pRD pCV) l (s, out)) = out).
Proof.
  induction l as [| a l IH]; intros out Hflags; [done |].
  cbn [fold_left].
  assert (Ha : flag_at s a = false) by (apply Hflags; by apply elem_of_cons; left).
  assert (Hl : forall i, i ∈ l -> flag_at s i = false).
  { intros i Hi. apply Hflags. by apply elem_of_cons; right. }
  unfold activate_step at 2 4. rewrite Ha. cbn [orb].
  destruct (CountTime.flagRefresh pCT) eqn:Hr.
  - rewrite (clear_flag_id a s Ha).
    destruct (IH (out ++ printRefr a pCT s :: apply_load pRD s a) Hl) as [E _].
    split; [exact E | done].
  - destruct (IH out Hl) as [E1 E2]. split; [exact E1 | done].
Qed.

End ActivateAgain.

(** C8.  [Loads::activate] leaves every configuration field, every on/off
    state, lock counter and mode (and the recorded cause) as they are: it
    clears the flags of the registered loads and writes, for each load whose
    flag was set or when the refresh flag is set, the load's current on/off
    state to its output pin and to its remote switch.  Called again on the
    state it left, with any scheduler flags, it leaves that state unchanged;
    on a refresh the pins and the transmitter get exactly the operations of
    the current state of every load again, and without a refresh flag the
    second call does nothing. *)
Theorem activate_only_clears_flags pCT pRD pCV s :
  Loads.wf s ->
  let s' := fst (Loads.activate pCT pRD pCV s) in
  let out := snd (Loads.activate pCT pRD pCV s) in
  Loads.same_config s s' /\
  Loads.same_decision s s' /\
  (forall i, 0 <= i < Loads.nLoads s -> Loads.flag_at s' i = false) /\
  (forall i, ~ 0 <= i < Loads.nLoads s -> Loads.flag_at s' i = Loads.flag_at s i) /\
  Loads.hardware out
    = concat (map (Loads.emitted pCT pRD s) (indices (Loads.nLoads s))) /\
  (forall pCT2 pCV2,
     fst (Loads.activate pCT2 pRD pCV2 s') = s' /\
     (CountTime.flagRefresh pCT2 = true ->
      Loads.hardware (snd (Loads.activate pCT2 pRD pCV2 s'))
      = concat (map (Loads.apply_load pRD s) (indices (Loads.nLoads s)))) /\
     (CountTime.flagRefresh pCT2 = false ->
      snd (Loads.activate pCT2 pRD pCV2 s') = [])).
Proof.
  intros Hwf s' out. subst s' out. unfold Loads.activate.
  assert (Hrange : forall i, i ∈ indices (Loads.nLoads s) ->
                   0 <= i /\ (Z.to_nat i < length (Loads.flag s))%nat).
  { intros i Hi%elem_of_indices.
    destruct (wf_lengths s Hwf i) as (_ & _ & _ & _ & _ & _ & _ & _ & _ & L & _).
    - unfold Loads.wf in Hwf. lia.
    - split; [lia | done]. }
  destruct (activate_loop pCT pRD pCV (indices (Loads.nLoads s)) s []
              (NoDup_indices _) Hrange) as (Hfa & Hin & Hout & Hhw).
  set (r := fold_left (Loads.activate_step pCT pRD pCV)
              (indices (Loads.nLoads s)) (s, [])) in *.
  split; [apply Hfa |]. split; [apply Hfa |].
  split; [intros i Hi; by apply Hin, elem_of_indices |].
  split; [intros i Hi; apply Hout; by rewrite elem_of_indices |].
  split; [exact Hhw |].
  intros pCT2 pCV2.
  assert (Hn : Loads.nLoads (fst r) = Loads.nLoads s) by apply Hfa.
  rewrite Hn.
  destruct (activate_loop_settled pRD pCT2 pCV2 (fst r)
              (indices (Loads.nLoads s)) [] Hin) as [Hstate Hquiet].
  split; [exact Hstate |]. split; [| exact Hquiet].
  intros Hrefresh.
  destruct (activate_loop pCT2 pRD pCV2 (indices (Loads.nLoads s)) (fst r) []
              (NoDup_indices _)) as (_ & _ & _ & Hhw2).
  { intros i Hi. destruct Hfa as (_ & _ & ->). by apply Hrange. }
  rewrite Hhw2. cbn [Loads.hardware List.filter app]. f_equal.
  apply map_ext. intros i. unfold Loads.emitted. rewrite Hrefresh, orb_true_r.
  by apply apply_load_flags_apart.
Qed.

Lemma activate_only_clears_flags_witness :
  Loads.on (fst (Loads.activate Samples.decide_tick {| Radio.gpioRadio := 4 |}
                   Samples.values_overload Samples.two_loads_on))
    = Loads.on Samples.two_loads_on /\
  Loads.lockSec (fst (Loads.activate Samples.decide_tick {| Radio.gpioRadio := 4 |}
                        Samples.values_overload Samples.two_loads_on))
    = Loads.lockSec Samples.two_loads_on.
Proof.
  destruct (activate_only_clears_flags Samples.decide_tick {| Radio.gpioRadio := 4 |}
              Samples.values_overload Samples.two_loads_on sample_two_loads_on_wf)
    as (_ & (Hon & Hlock & _) & _).
  split; [exact Hon | exact Hlock].
Defined.

(** ** values.h: filtering *)

Section FilterFacts.
Import Values.

Lemma compute_filtered t_start t_end sm cm v :
  (PgFilt (compute t_start t_end sm cm v),
   PcFilt (compute t_start t_end sm cm v),
   PnFilt (compute t_start t_end sm cm v))
  = filter v (Pg (compute t_start t_end sm cm v))
             (Pc (compute t_start t_end sm cm v))
             (Pn (compute t_start t_end sm cm v)).
Proof.
  unfold compute.
  destruct (override sm _) as [Pg0 Pc0].
  destruct (filter v _ _ _) as [[a b] c] eqn:E. cbn. by rewrite E.
Qed.

(** The powers after the override and before the clipping. *)
Lemma compute_clipped t_start t_end sm cm v :
  let p := override sm (rPg (measure v cm), rPc (measure v cm)) in
  Pg (compute t_start t_end sm cm v) = F32.constrain (fst p) F32.zero f9999 /\
  Pc (compute t_start t_end sm cm v) = F32.constrain (snd p) fm9999 F32.zero /\
  Pn (compute t_start t_end sm cm v)
    = F32.constrain (F32.add (fst p) (snd p)) fm9999 f9999.
Proof.
  intros p. subst p. unfold compute.
  destruct (override sm _) as [Pg0 Pc0].
  destruct (filter v _ _ _) as [[a b] c]. done.
Qed.

End FilterFacts.

(** C6 as stated fails on the first cycle: simulating 20000 W generated and
    100 W consumed, the generated power is clipped to 9999 and the net power
    (the clipped sum 19900) to 9999 as well, so the seeded values are
    [PgFilt = 9999], [PcFilt = -100] and [PnFilt = 9999], not 9899. *)
Lemma first_cycle_filtered_net_differs :
  let v := Values.compute 0 0 (Samples.simulate_power 20000 100)
             Samples.flat_cycle Samples.calibrated in
  Values.interval Samples.calibrated = 0 /\
  Values.PgFilt v = F32.of_Z 9999 /\
  Values.PcFilt v = F32.of_Z (-100) /\
  Values.PnFilt v = F32.of_Z 9999 /\
  F32.add (Values.PgFilt v) (Values.PcFilt v) = F32.of_Z 9899 /\
  Values.PnFilt v <> F32.add (Values.PgFilt v) (Values.PcFilt v).
Proof. vm_compute. repeat split; congruence. Qed.

(** C6, amended.  After a call of [Values::compute] made with a recorded
    interval, [PnFilt = PgFilt + PcFilt].  On the first cycle
    ([interval = 0]) the three filtered values are the clipped values of the
    cycle, [PgFilt = Pg], [PcFilt = Pc] and [PnFilt = Pn], where [Pn] is the
    clipped sum of the unclipped powers; there [PnFilt = PgFilt + PcFilt]
    holds when the clipping changed none of the three. *)
Theorem filtered_net_is_sum_of_filtered t_start t_end sm cm v :
  let v' := Values.compute t_start t_end sm cm v in
  let p := Values.override sm (Values.rPg (Values.measure v cm),
                               Values.rPc (Values.measure v cm)) in
  if Values.interval v =? 0 then
    Values.PgFilt v' = Values.Pg v' /\
    Values.PcFilt v' = Values.Pc v' /\
    Values.PnFilt v' = Values.Pn v' /\
    (Values.Pg v' = fst p -> Values.Pc v' = snd p ->
     Values.Pn v' = F32.add (fst p) (snd p) ->
     Values.PnFilt v' = F32.add (Values.PgFilt v') (Values.PcFilt v'))
  else
    Values.PnFilt v' = F32.add (Values.PgFilt v') (Values.PcFilt v').
Proof.
  intros v' p.
  pose proof (compute_filtered t_start t_end sm cm v) as Hf. fold v' in Hf.
  unfold Values.filter in Hf.
  destruct (Values.interval v =? 0).
  - injection Hf as Hg Hc Hn. rewrite Hg, Hc, Hn.
    repeat split. intros Eg Ec En. by rewrite Eg, Ec, En.
  - injection Hf as Hg Hc Hn. by rewrite Hn, <- Hg, <- Hc.
Qed.

(** ** Binary32: magnitudes *)

Section DigitFacts.

Lemma digits2_pos_spec p :
  2 ^ (Zpos (digits2_pos p) - 1) <= Zpos p < 2 ^ Zpos (digits2_pos p).
Proof.
  induction p as [p IH | p IH |]; cbn [digits2_pos].
  - rewrite Pos2Z.inj_succ.
    replace (Z.succ (Zpos (digits2_pos p)) - 1) with (Z.succ (Zpos (digits2_pos p) - 1)) by lia.
    rewrite !Z.pow_succ_r by lia. lia.
  - rewrite Pos2Z.inj_succ.
    replace (Z.succ (Zpos (digits2_pos p)) - 1) with (Z.succ (Zpos (digits2_pos p) - 1)) by lia.
    rewrite !Z.pow_succ_r by lia. lia.
  - cbn. lia.
Qed.

Lemma Zdigits2_nonneg m : 0 <= Zdigits2 m.
Proof. destruct m; cbn; lia. Qed.

Lemma Zdigits2_bounds m :
  0 < m -> 2 ^ (Zdigits2 m - 1) <= m < 2 ^ Zdigits2 m.
Proof. destruct m as [| p | p]; [lia | intros _ | lia]. apply digits2_pos_spec. Qed.

Lemma Zdigits2_le m k : 0 <= m -> 0 <= k -> m < 2 ^ k -> Zdigits2 m <= k.
Proof.
  intros Hm Hk Hlt. destruct (Z.eq_dec m 0) as [-> | Hne]; [cbn; lia |].
  destruct (Zdigits2_bounds m ltac:(lia)) as [Hlo _].
  destruct (Z.le_gt_cases (Zdigits2 m) k) as [| Hgt]; [done |].
  assert (2 ^ k <= 2 ^ (Zdigits2 m - 1)) by (apply Z.pow_le_mono_r; lia). lia.
Qed.

Lemma Zdigits2_ge m k : 0 <= k -> 2 ^ k <= m -> k + 1 <= Zdigits2 m.
Proof.
  intros Hk Hle.
  assert (0 < 2 ^ k) by (apply Z.pow_pos_nonneg; lia).
  destruct (Zdigits2_bounds m ltac:(lia)) as [_ Hhi].
  destruct (Z.le_gt_cases (k + 1) (Zdigits2 m)) as [| Hgt]; [done |].
  pose proof (Zdigits2_nonneg m).
  assert (2 ^ Zdigits2 m <= 2 ^ k) by (apply Z.pow_le_mono_r; lia). lia.
Qed.

End DigitFacts.

Section RoundFacts.

Lemma fexp32 x : fexp F32.prec F32.emax x = Z.max (x - 24) (-149).
Proof. reflexivity. Qed.

Lemma shr_1_m mrs : 0 <= shr_m mrs -> shr_m (shr_1 mrs) = shr_m mrs / 2.
Proof.
  destruct mrs as [m r s]. cbn [shr_m shr_1]. intros Hm.
  destruct m as [| p | p]; [done | | lia].
  destruct p as [p | p |]; cbn [shr_m].
  - apply (Z.div_unique_pos _ _ _ 1); lia.
  - apply (Z.div_unique_pos _ _ _ 0); lia.
  - done.
Qed.

Lemma pow2_xO p : 2 ^ Zpos p~0 = 2 ^ Zpos p * 2 ^ Zpos p.
Proof. replace (Zpos p~0) with (Zpos p + Zpos p) by lia. apply Z.pow_add_r; lia. Qed.

Lemma pow2_xI p : 2 ^ Zpos p~1 = 2 * (2 ^ Zpos p * 2 ^ Zpos p).
Proof.
  replace (Zpos p~1) with (1 + (Zpos p + Zpos p)) by lia.
  rewrite !Z.pow_add_r by lia. done.
Qed.

Lemma iter_pos_shr_m p : forall mrs,
  0 <= shr_m mrs -> shr_m (SpecFloat.iter_pos shr_1 p mrs) = shr_m mrs / 2 ^ Zpos p.
Proof.
  assert (Hpow : forall q, 0 < 2 ^ Zpos q) by (intros q; apply Z.pow_pos_nonneg; lia).
  induction p as [p IH | p IH |]; intros mrs Hm; cbn [SpecFloat.iter_pos].
  - assert (H1 : 0 <= shr_m (shr_1 mrs)).
    { rewrite shr_1_m by done. apply Z.div_pos; lia. }
    assert (H2 : 0 <= shr_m (SpecFloat.iter_pos shr_1 p (shr_1 mrs))).
    { rewrite IH by done. apply Z.div_pos; [done | apply Hpow]. }
    rewrite IH, IH, shr_1_m by done.
    pose proof (Hpow p).
    rewrite !Z.div_div by lia.
    by rewrite pow2_xI.
  - assert (H2 : 0 <= shr_m (SpecFloat.iter_pos shr_1 p mrs)).
    { rewrite IH by done. apply Z.div_pos; [done | apply Hpow]. }
    rewrite IH, IH by done.
    pose proof (Hpow p).
    rewrite Z.div_div by lia.
    by rewrite pow2_xO.
  - rewrite shr_1_m by done. done.
Qed.

(** The mantissa and exponent after [shr_fexp]. *)
Lemma shr_fexp_spec m e l :
  0 <= m ->
  let n := fexp F32.prec F32.emax (Zdigits2 m + e) - e in
  (n <= 0 /\ shr_fexp F32.prec F32.emax m e l = (shr_record_of_loc m l, e)) \/
  (0 < n /\ shr_m (fst (shr_fexp F32.prec F32.emax m e l)) = m / 2 ^ n /\
   snd (shr_fexp F32.prec F32.emax m e l) = e + n).
Proof.
  intros Hm n. unfold shr_fexp, shr. fold n.
  assert (Hrec : shr_m (shr_record_of_loc m l) = m).
  { destruct l as [| []]; done. }
  destruct n as [| p | p] eqn:En.
  - left. split; [lia | done].
  - right. split; [lia |]. cbn [fst snd]. split; [| done].
    rewrite iter_pos_shr_m by (rewrite Hrec; done). by rewrite Hrec.
  - left. split; [lia | done].
Qed.

Lemma round_nearest_even_range m l :
  round_nearest_even m l = m \/ round_nearest_even m l = m + 1.
Proof.
  unfold round_nearest_even. destruct l as [| []]; auto. destruct (Z.even m); auto.
Qed.

End RoundFacts.

Section RoundAux.

Lemma Zdigits2_mono a b : 0 <= a <= b -> Zdigits2 a <= Zdigits2 b.
Proof.
  intros [Ha Hab]. destruct (Z.eq_dec b 0) as [-> | Hb].
  { replace a with 0 by lia. done. }
  pose proof (Zdigits2_nonneg b).
  apply Zdigits2_le; [done | done |].
  destruct (Zdigits2_bounds b ltac:(lia)). lia.
Qed.

Lemma Zdigits2_succ m : 0 <= m -> Zdigits2 m <= Zdigits2 (m + 1) <= Zdigits2 m + 1.
Proof.
  intros Hm. split; [apply Zdigits2_mono; lia |].
  pose proof (Zdigits2_nonneg m).
  apply Zdigits2_le; [lia | lia |].
  rewrite Z.pow_add_r, Z.pow_1_r by lia.
  destruct (Z.eq_dec m 0) as [-> | Hne]; [cbn; lia |].
  destruct (Zdigits2_bounds m ltac:(lia)). lia.
Qed.

Lemma Zdigits2_div_pow2 m n :
  0 <= m -> 0 <= n -> Zdigits2 (m / 2 ^ n) = Z.max 0 (Zdigits2 m - n).
Proof.
  intros Hm Hn.
  assert (Hp : 0 < 2 ^ n) by (apply Z.pow_pos_nonneg; lia).
  destruct (Z.eq_dec m 0) as [-> | Hne].
  { rewrite Z.div_0_l by lia. cbn. lia. }
  destruct (Zdigits2_bounds m ltac:(lia)) as [Hlo Hhi].
  pose proof (Zdigits2_nonneg m) as Hd.
  destruct (Z.le_gt_cases (Zdigits2 m) n) as [Hle | Hgt].
  - rewrite Z.div_small; [cbn; lia |].
    split; [lia |]. assert (2 ^ Zdigits2 m <= 2 ^ n) by (apply Z.pow_le_mono_r; lia). lia.
  - rewrite Z.max_r by lia.
    assert (E : 2 ^ Zdigits2 m = 2 ^ n * 2 ^ (Zdigits2 m - n)).
    { rewrite <- Z.pow_add_r by lia. f_equal. lia. }
    assert (E' : 2 ^ (Zdigits2 m - 1) = 2 ^ n * 2 ^ (Zdigits2 m - n - 1)).
    { rewrite <- Z.pow_add_r by lia. f_equal. lia. }
    apply Z.le_antisymm.
    + apply Zdigits2_le; [apply Z.div_pos; lia | lia |].
      apply Z.div_lt_upper_bound; lia.
    + replace (Zdigits2 m - n) with (Zdigits2 m - n - 1 + 1) by lia.
      apply Zdigits2_ge; [lia |].
      apply Z.div_le_lower_bound; lia.
Qed.

(** The steps of [binary_round_aux] on a mantissa that is not negative. *)
Lemma binary_round_aux_steps s m e l :
  0 <= m ->
  exists m1 e1 m2 m3 e3,
    let n1 := fexp F32.prec F32.emax (Zdigits2 m + e) - e in
    let n2 := fexp F32.prec F32.emax (Zdigits2 m2 + e1) - e1 in
    ((n1 <= 0 /\ m1 = m /\ e1 = e) \/ (0 < n1 /\ m1 = m / 2 ^ n1 /\ e1 = e + n1)) /\
    (m2 = m1 \/ m2 = m1 + 1) /\
    ((n2 <= 0 /\ m3 = m2 /\ e3 = e1) \/ (0 < n2 /\ m3 = m2 / 2 ^ n2 /\ e3 = e1 + n2)) /\
    0 <= m1 /\ 0 <= m2 /\ 0 <= m3 /\
    binary_round_aux F32.prec F32.emax s m e l =
      match m3 with
      | Z0 => S754_zero s
      | Zpos p => if e3 <=? 104 then S754_finite s p e3 else S754_infinity s
      | Zneg _ => S754_nan
      end.
Proof.
  intros Hm. unfold binary_round_aux.
  pose proof (shr_fexp_spec m e l Hm) as H1.
  destruct (shr_fexp F32.prec F32.emax m e l) as [mrs1 e1].
  set (m1 := shr_m mrs1).
  assert (Hm1 : 0 <= m1 /\
    ((fexp F32.prec F32.emax (Zdigits2 m + e) - e <= 0 /\ m1 = m /\ e1 = e) \/
     (0 < fexp F32.prec F32.emax (Zdigits2 m + e) - e /\
      m1 = m / 2 ^ (fexp F32.prec F32.emax (Zdigits2 m + e) - e) /\
      e1 = e + (fexp F32.prec F32.emax (Zdigits2 m + e) - e)))).
  { destruct H1 as [[Hn [= -> ->]] | (Hn & Hs & He)]; cbn [fst snd] in *.
    - subst m1. assert (shr_m (shr_record_of_loc m l) = m) as -> by (by destruct l as [| []]).
      split; [done |]. left. done.
    - subst m1. rewrite Hs. split; [| right; done].
      apply Z.div_pos; [done |]. apply Z.pow_pos_nonneg; lia. }
  destruct Hm1 as [Hm1 Hcase1].
  set (m2 := round_nearest_even m1 (loc_of_shr_record mrs1)).
  assert (Hm2 : m2 = m1 \/ m2 = m1 + 1) by apply round_nearest_even_range.
  assert (Hm2' : 0 <= m2) by lia.
  pose proof (shr_fexp_spec m2 e1 loc_Exact Hm2') as H2.
  destruct (shr_fexp F32.prec F32.emax m2 e1 loc_Exact) as [mrs3 e3].
  exists m1, e1, m2, (shr_m mrs3), e3. cbn zeta.
  split; [exact Hcase1 |]. split; [exact Hm2 |].
  assert (H3 : 0 <= shr_m mrs3 /\
    ((fexp F32.prec F32.emax (Zdigits2 m2 + e1) - e1 <= 0 /\ shr_m mrs3 = m2 /\ e3 = e1) \/
     (0 < fexp F32.prec F32.emax (Zdigits2 m2 + e1) - e1 /\
      shr_m mrs3 = m2 / 2 ^ (fexp F32.prec F32.emax (Zdigits2 m2 + e1) - e1) /\
      e3 = e1 + (fexp F32.prec F32.emax (Zdigits2 m2 + e1) - e1)))).
  { destruct H2 as [[Hn [= -> ->]] | (Hn & Hs & He)]; cbn [fst snd] in *.
    - cbn. split; [done |]. left. done.
    - rewrite Hs. split; [| right; done].
      apply Z.div_pos; [done |]. apply Z.pow_pos_nonneg; lia. }
  destruct H3 as [Hm3 Hcase3].
  split; [exact Hcase3 |]. repeat split; try done.
Qed.

End RoundAux.

Section RoundBelow.

Lemma binary_round_aux_not_nan s m e l :
  0 <= m -> F32.is_nan (binary_round_aux F32.prec F32.emax s m e l) = false.
Proof.
  intros Hm.
  destruct (binary_round_aux_steps s m e l Hm)
    as (m1 & e1 & m2 & m3 & e3 & _ & _ & _ & _ & _ & Hm3 & ->).
  destruct m3 as [| p | p]; [done | | lia].
  by destruct (e3 <=? 104).
Qed.

Lemma binary_round_aux_below s m e l k :
  0 <= m ->
  e <= fexp F32.prec F32.emax (Zdigits2 m + e) ->
  Zdigits2 m + e + 1 <= k -> -148 <= k <= 128 ->
  F32.below k (binary_round_aux F32.prec F32.emax s m e l) = true.
Proof.
  intros Hm Hpre Hk Hrange.
  destruct (binary_round_aux_steps s m e l Hm)
    as (m1 & e1 & m2 & m3 & e3 & Hc1 & Hc2 & Hc3 & Hm1 & Hm2 & Hm3 & ->).
  cbn zeta in Hc1, Hc3. rewrite !fexp32 in *.
  pose proof (Zdigits2_nonneg m) as Hd.
  assert (Hd1 : Zdigits2 m1 = Zdigits2 m /\ e1 = e /\ e = Z.max (Zdigits2 m + e - 24) (-149) \/
                Zdigits2 m1 = Z.max 0 (Zdigits2 m - (e1 - e)) /\ e < e1 /\
                e1 = Z.max (Zdigits2 m + e - 24) (-149)).
  { destruct Hc1 as [(Hn & -> & ->) | (Hn & -> & ->)].
    - left. lia.
    - right. rewrite Zdigits2_div_pow2 by lia. lia. }
  assert (Hd2 : Zdigits2 m1 <= Zdigits2 m2 <= Zdigits2 m1 + 1 /\ (m1 = 0 -> m2 <= 1)).
  { destruct Hc2 as [-> | ->]; [lia |]. split; [by apply Zdigits2_succ | lia]. }
  assert (Hd3 : Zdigits2 m3 = Zdigits2 m2 /\ e3 = e1 /\ Z.max (Zdigits2 m2 + e1 - 24) (-149) <= e1 \/
                Zdigits2 m3 = Z.max 0 (Zdigits2 m2 - (e3 - e1)) /\ e1 < e3 /\
                e3 = Z.max (Zdigits2 m2 + e1 - 24) (-149)).
  { destruct Hc3 as [(Hn & -> & ->) | (Hn & -> & ->)].
    - left. lia.
    - right. rewrite Zdigits2_div_pow2 by lia. lia. }
  assert (Hz : m1 = 0 -> Zdigits2 m2 <= 1).
  { intros H0. destruct Hd2 as [_ Hle]. specialize (Hle H0).
    apply Zdigits2_le; lia. }
  assert (Hz1 : Zdigits2 m1 = 0 -> m1 = 0).
  { intros H0. destruct (Z.eq_dec m1 0); [done |].
    destruct (Zdigits2_bounds m1 ltac:(lia)) as [_ Hhi]. rewrite H0 in Hhi. cbn in Hhi. lia. }
  destruct m3 as [| p | p]; [done | | lia].
  change (Zdigits2 (Zpos p)) with (Zpos (digits2_pos p)) in Hd3.
  assert (Hfin : e3 <= 104 /\ Z.max (Zpos (digits2_pos p) + e3 - 24) (-149) = e3 /\
                 Zpos (digits2_pos p) + e3 <= k).
  { pose proof (Zdigits2_nonneg m1). pose proof (Zdigits2_nonneg m2).
    destruct (Z.eq_dec (Zdigits2 m1) 0) as [E0 | N0].
    - specialize (Hz (Hz1 E0)). lia.
    - lia. }
  destruct Hfin as (H104 & Hcanon & Hmag).
  destruct (Z.leb_spec e3 104); [| lia].
  unfold F32.below, bounded, canonical_mantissa. rewrite fexp32.
  apply andb_true_intro. split; [apply andb_true_intro; split |].
  - by apply Z.eqb_eq.
  - apply Z.leb_le. change (F32.emax - F32.prec) with 104. lia.
  - by apply Z.leb_le.
Qed.

End RoundBelow.

Section RoundWithin.

Lemma binary_round_aux_within s m e l j k :
  0 < m ->
  e <= fexp F32.prec F32.emax (Zdigits2 m + e) ->
  -148 <= j <= Zdigits2 m + e ->
  Zdigits2 m + e + 1 <= k <= 128 ->
  F32.within j k (binary_round_aux F32.prec F32.emax s m e l) = true.
Proof.
  intros Hm Hpre Hj Hk.
  destruct (binary_round_aux_steps s m e l ltac:(lia))
    as (m1 & e1 & m2 & m3 & e3 & Hc1 & Hc2 & Hc3 & Hm1 & Hm2 & Hm3 & ->).
  cbn zeta in Hc1, Hc3. rewrite !fexp32 in *.
  pose proof (Zdigits2_nonneg m) as Hd.
  assert (Hd1 : Zdigits2 m1 = Zdigits2 m /\ e1 = e /\ e = Z.max (Zdigits2 m + e - 24) (-149) \/
                Zdigits2 m1 = Z.max 0 (Zdigits2 m - (e1 - e)) /\ e < e1 /\
                e1 = Z.max (Zdigits2 m + e - 24) (-149)).
  { destruct Hc1 as [(Hn & -> & ->) | (Hn & -> & ->)].
    - left. lia.
    - right. rewrite Zdigits2_div_pow2 by lia. lia. }
  assert (Hd2 : Zdigits2 m1 <= Zdigits2 m2 <= Zdigits2 m1 + 1).
  { destruct Hc2 as [-> | ->]; [lia | by apply Zdigits2_succ]. }
  assert (Hd3 : Zdigits2 m3 = Zdigits2 m2 /\ e3 = e1 /\ Z.max (Zdigits2 m2 + e1 - 24) (-149) <= e1 \/
                Zdigits2 m3 = Z.max 0 (Zdigits2 m2 - (e3 - e1)) /\ e1 < e3 /\
                e3 = Z.max (Zdigits2 m2 + e1 - 24) (-149)).
  { destruct Hc3 as [(Hn & -> & ->) | (Hn & -> & ->)].
    - left. lia.
    - right. rewrite Zdigits2_div_pow2 by lia. lia. }
  assert (Hpos : 1 <= Zdigits2 m3) by lia.
  destruct m3 as [| p | p]; [cbn in Hpos; lia | | lia].
  change (Zdigits2 (Zpos p)) with (Zpos (digits2_pos p)) in *.
  assert (Hfin : e3 <= 104 /\ Z.max (Zpos (digits2_pos p) + e3 - 24) (-149) = e3 /\
                 j <= Zpos (digits2_pos p) + e3 <= k) by lia.
  destruct Hfin as (H104 & Hcanon & Hmag).
  destruct (Z.leb_spec e3 104); [| lia].
  unfold F32.within, bounded, canonical_mantissa. rewrite fexp32.
  change (F32.emax - F32.prec) with 104.
  repeat (apply andb_true_intro; split); (apply Z.eqb_eq || apply Z.leb_le); lia.
Qed.

Lemma within_below j k x : F32.within j k x = true -> F32.below k x = true.
Proof.
  destruct x as [| | | s m e]; try done. cbn.
  intros H. apply andb_prop in H as [H H2]. apply andb_prop in H as [H0 H1].
  by rewrite H0, H2.
Qed.

Lemma below_weaken k k' x : k <= k' -> F32.below k x = true -> F32.below k' x = true.
Proof.
  intros Hk. destruct x as [| | | s m e]; try done. cbn.
  intros H. apply andb_prop in H as [H0 H1]. rewrite H0. cbn.
  apply Z.leb_le in H1. apply Z.leb_le. lia.
Qed.

End RoundWithin.

Section ConversionFacts.

Lemma Pos_iter_xO m d : Zpos (Pos.iter xO m d) = Zpos m * 2 ^ Zpos d.
Proof.
  induction d as [| d IH] using Pos.peano_ind.
  - cbn. lia.
  - rewrite Pos.iter_succ, Pos2Z.inj_xO, IH, Pos2Z.inj_succ, Z.pow_succ_r by lia. lia.
Qed.

Lemma Zdigits2_mul_pow2 m n :
  0 < m -> 0 <= n -> Zdigits2 (m * 2 ^ n) = Zdigits2 m + n.
Proof.
  intros Hm Hn.
  assert (Hp : 0 < 2 ^ n) by (apply Z.pow_pos_nonneg; lia).
  destruct (Zdigits2_bounds m Hm) as [Hlo Hhi].
  pose proof (Zdigits2_nonneg m).
  assert (1 <= Zdigits2 m).
  { destruct (Z.le_gt_cases 1 (Zdigits2 m)); [done |].
    replace (Zdigits2 m) with 0 in Hhi by lia. cbn in Hhi. lia. }
  apply Z.le_antisymm.
  - apply Zdigits2_le; [lia | lia |]. rewrite Z.pow_add_r by lia.
    apply Z.mul_lt_mono_pos_r; lia.
  - replace (Zdigits2 m + n) with (Zdigits2 m - 1 + n + 1) by lia.
    apply Zdigits2_ge; [lia |]. rewrite Z.pow_add_r by lia.
    apply Z.mul_le_mono_nonneg_r; lia.
Qed.

Lemma binary_round_within s m e :
  let D := Zpos (digits2_pos m) + e in
  -148 <= D <= 127 ->
  F32.within D (D + 1) (binary_round F32.prec F32.emax s m e) = true.
Proof.
  intros D HD. unfold binary_round, shl_align. fold D. rewrite fexp32.
  destruct (Z.max (D - 24) (-149) - e) as [| p | p] eqn:Ediff.
  - apply binary_round_aux_within; cbn [Zdigits2]; fold D; rewrite ?fexp32; lia.
  - apply binary_round_aux_within; cbn [Zdigits2]; fold D; rewrite ?fexp32; lia.
  - assert (Hdig : Zdigits2 (Zpos (Pos.iter xO m p)) = Zpos (digits2_pos m) + Zpos p).
    { rewrite Pos_iter_xO. apply (Zdigits2_mul_pow2 (Zpos m)); lia. }
    apply binary_round_aux_within; rewrite ?Hdig, ?fexp32; subst D; lia.
Qed.

Lemma of_Z_within z :
  z <> 0 -> Zdigits2 z <= 127 ->
  F32.within (Zdigits2 z) (Zdigits2 z + 1) (F32.of_Z z) = true.
Proof.
  intros Hz Hd. unfold F32.of_Z, binary_normalize.
  destruct z as [| p | p]; [done | |].
  - pose proof (binary_round_within false p 0) as H. cbn zeta in H.
    rewrite Z.add_0_r in H. apply H. cbn in Hd. lia.
  - pose proof (binary_round_within true p 0) as H. cbn zeta in H.
    rewrite Z.add_0_r in H. apply H. cbn in Hd. lia.
Qed.

Lemma of_Z_below z k :
  0 <= k <= 127 -> Z.abs z < 2 ^ k -> F32.below (k + 1) (F32.of_Z z) = true.
Proof.
  intros Hk Hz. destruct (Z.eq_dec z 0) as [-> | Hne]; [done |].
  assert (Hd : Zdigits2 z <= k).
  { replace (Zdigits2 z) with (Zdigits2 (Z.abs z)) by (by destruct z).
    apply Zdigits2_le; lia. }
  apply (below_weaken (Zdigits2 z + 1)); [lia |].
  eapply within_below. apply of_Z_within; [done | lia].
Qed.

End ConversionFacts.

Section ArithmeticFacts.

Lemma Zdigits2_pos m : 0 < m -> 1 <= Zdigits2 m.
Proof. destruct m as [| p | p]; [lia | | lia]. intros _. cbn. lia. Qed.

Lemma Zdigits2_mul a b :
  0 < a -> 0 < b ->
  Zdigits2 a + Zdigits2 b - 1 <= Zdigits2 (a * b) <= Zdigits2 a + Zdigits2 b.
Proof.
  intros Ha Hb.
  destruct (Zdigits2_bounds a Ha) as [Ha1 Ha2].
  destruct (Zdigits2_bounds b Hb) as [Hb1 Hb2].
  pose proof (Zdigits2_pos a Ha). pose proof (Zdigits2_pos b Hb).
  split.
  - replace (Zdigits2 a + Zdigits2 b - 1) with ((Zdigits2 a - 1) + (Zdigits2 b - 1) + 1) by lia.
    apply Zdigits2_ge; [lia |]. rewrite Z.pow_add_r by lia.
    apply Z.mul_le_mono_nonneg; try lia; apply Z.pow_nonneg; lia.
  - apply Zdigits2_le; [lia | lia |]. rewrite Z.pow_add_r by lia.
    apply Z.mul_lt_mono_nonneg; lia.
Qed.

(** What [bounded] says about a mantissa and its exponent. *)
Lemma bounded_inv m e :
  bounded F32.prec F32.emax m e = true ->
  Z.max (Zpos (digits2_pos m) + e - 24) (-149) = e /\ e <= 104.
Proof.
  unfold bounded, canonical_mantissa. rewrite fexp32.
  change (F32.emax - F32.prec) with 104.
  intros H. apply andb_prop in H as [H1 H2].
  apply Z.eqb_eq in H1. apply Z.leb_le in H2. done.
Qed.

Lemma below_finite_inv k s m e :
  F32.below k (S754_finite s m e) = true ->
  Z.max (Zpos (digits2_pos m) + e - 24) (-149) = e /\ e <= 104 /\
  Zpos (digits2_pos m) + e <= k.
Proof.
  cbn. intros H. apply andb_prop in H as [H1 H2].
  apply bounded_inv in H1. apply Z.leb_le in H2. tauto.
Qed.

Lemma within_inv j k x :
  F32.within j k x = true ->
  exists s m e, x = S754_finite s m e /\
    Z.max (Zpos (digits2_pos m) + e - 24) (-149) = e /\ e <= 104 /\
    j <= Zpos (digits2_pos m) + e <= k.
Proof.
  destruct x as [| | | s m e]; try done. cbn.
  intros H. apply andb_prop in H as [H H3]. apply andb_prop in H as [H1 H2].
  apply bounded_inv in H1. apply Z.leb_le in H2, H3.
  exists s, m, e. tauto.
Qed.

Lemma mul_below a b k x y :
  F32.below a x = true -> F32.below b y = true ->
  a + b + 1 <= k -> -148 <= k <= 128 ->
  F32.below k (F32.mul x y) = true.
Proof.
  intros Hx Hy Hk Hrange.
  destruct x as [sx | | | sx mx ex], y as [sy | | | sy my ey]; try done.
  apply below_finite_inv in Hx as (Cx & _ & Mx), Hy as (Cy & _ & My).
  unfold F32.mul, SFmul.
  pose proof (Zdigits2_mul (Zpos mx) (Zpos my) ltac:(lia) ltac:(lia)) as Hd.
  change (Zpos mx * Zpos my) with (Zpos (mx * my)) in Hd. cbn [Zdigits2] in Hd.
  apply binary_round_aux_below; cbn [Zdigits2]; rewrite ?fexp32; lia.
Qed.

End ArithmeticFacts.

Section DivisionFacts.

Lemma pow2_pos n : 0 <= n -> 0 < 2 ^ n.
Proof. intros. apply Z.pow_pos_nonneg; lia. Qed.

Lemma pow2_split a b : 0 <= a -> 0 <= b -> 2 ^ (a + b) = 2 ^ a * 2 ^ b.
Proof. intros. apply Z.pow_add_r; lia. Qed.

(** The quotient [m * 2 ^ s / d] has [Zdigits2 m + s - Zdigits2 d] or one
    more digits. *)
Lemma Zdigits2_quotient m s d :
  0 < m -> 0 <= s -> 0 < d ->
  let u := Zdigits2 m + s - Zdigits2 d in
  0 <= m * 2 ^ s / d /\
  Zdigits2 (m * 2 ^ s / d) <= Z.max 0 (u + 1) /\
  (1 <= u -> u <= Zdigits2 (m * 2 ^ s / d)).
Proof.
  intros Hm Hs Hd u.
  destruct (Zdigits2_bounds m Hm) as [Hm1 Hm2].
  destruct (Zdigits2_bounds d Hd) as [Hd1 Hd2].
  pose proof (Zdigits2_pos m Hm) as Hdm. pose proof (Zdigits2_pos d Hd) as Hdd.
  pose proof (pow2_pos s Hs) as Hps.
  assert (Hlo : 2 ^ (Zdigits2 m - 1 + s) <= m * 2 ^ s).
  { rewrite pow2_split by lia. apply Z.mul_le_mono_nonneg_r; lia. }
  assert (Hhi : m * 2 ^ s < 2 ^ (Zdigits2 m + s)).
  { rewrite pow2_split by lia. apply Z.mul_lt_mono_pos_r; lia. }
  split; [apply Z.div_pos; lia |]. split.
  - destruct (Z.le_gt_cases 0 (u + 1)) as [Hu | Hu].
    + rewrite Z.max_r by lia.
      apply Zdigits2_le; [apply Z.div_pos; lia | lia |].
      apply Z.div_lt_upper_bound; [lia |].
      assert (E : 2 ^ (Zdigits2 m + s) = 2 ^ (Zdigits2 d - 1) * 2 ^ (u + 1)).
      { rewrite <- pow2_split by lia. f_equal. lia. }
      pose proof (pow2_pos (u + 1) Hu).
      assert (2 ^ (Zdigits2 d - 1) * 2 ^ (u + 1) <= d * 2 ^ (u + 1))
        by (apply Z.mul_le_mono_nonneg_r; lia).
      lia.
    + rewrite Z.max_l by lia.
      rewrite Z.div_small; [done |]. split; [lia |].
      assert (2 ^ (Zdigits2 m + s) <= 2 ^ (Zdigits2 d - 1))
        by (apply Z.pow_le_mono_r; lia).
      lia.
  - intros Hu. replace u with (u - 1 + 1) by lia.
    apply Zdigits2_ge; [lia |].
    apply Z.div_le_lower_bound; [lia |].
    assert (E : 2 ^ (Zdigits2 m - 1 + s) = 2 ^ Zdigits2 d * 2 ^ (u - 1)).
    { rewrite <- pow2_split by lia. f_equal. lia. }
    pose proof (pow2_pos (u - 1) ltac:(lia)).
    assert (d * 2 ^ (u - 1) <= 2 ^ Zdigits2 d * 2 ^ (u - 1))
      by (apply Z.mul_le_mono_nonneg_r; lia).
    lia.
Qed.

Lemma SFdiv_core_binary_spec mx ex my ey :
  let delta := Zpos (digits2_pos mx) + ex - (Zpos (digits2_pos my) + ey) in
  let e' := Z.min (Z.max (delta - 24) (-149)) (ex - ey) in
  exists q l,
    SFdiv_core_binary F32.prec F32.emax (Zpos mx) ex (Zpos my) ey = (q, e', l) /\
    0 <= q /\
    Zdigits2 q <= Z.max 0 (delta - e' + 1) /\
    (1 <= delta - e' -> delta - e' <= Zdigits2 q).
Proof.
  intros delta e'. unfold SFdiv_core_binary. cbn [Zdigits2]. rewrite fexp32.
  fold delta. fold e'.
  set (s := ex - ey - e').
  assert (Hs : 0 <= s) by (subst s e'; lia).
  set (m' := match s with
             | Zpos _ => Z.shiftl (Zpos mx) s
             | Z0 => Zpos mx
             | Zneg _ => 0
             end).
  assert (Hm' : m' = Zpos mx * 2 ^ s).
  { subst m'. destruct s as [| p | p]; [cbn; lia | | lia].
    apply Z.shiftl_mul_pow2. lia. }
  pose proof (Zdigits2_quotient (Zpos mx) s (Zpos my) ltac:(lia) Hs ltac:(lia)) as Hq.
  cbn zeta in Hq. cbn [Zdigits2] in Hq. rewrite <- Hm' in Hq.
  unfold Z.div in Hq.
  destruct (Z.div_eucl m' (Zpos my)) as [q r].
  exists q, (new_location (Zpos my) r). split; [done |].
  replace (delta - e') with (Zpos (digits2_pos mx) + s - Zpos (digits2_pos my))
    by (subst s delta; lia).
  exact Hq.
Qed.

Lemma div_below a b c k x y :
  F32.below a x = true -> F32.within b c y = true ->
  a - b + 2 <= k -> -148 <= k <= 128 ->
  F32.below k (F32.div x y) = true.
Proof.
  intros Hx Hy Hk Hrange.
  apply within_inv in Hy as (sy & my & ey & -> & Cy & _ & My).
  destruct x as [sx | | | sx mx ex]; try done.
  apply below_finite_inv in Hx as (Cx & _ & Mx).
  unfold F32.div, SFdiv.
  destruct (SFdiv_core_binary_spec mx ex my ey) as (q & l & -> & Hq0 & Hq1 & Hq2).
  apply binary_round_aux_below; rewrite ?fexp32; try lia.
Qed.

End DivisionFacts.

Section SquareRootFacts.

Lemma Zdigits2_sqrt m : 0 < m -> Zdigits2 (Z.sqrt m) = (Zdigits2 m + 1) / 2.
Proof.
  intros Hm.
  destruct (Zdigits2_bounds m Hm) as [Hlo Hhi].
  pose proof (Zdigits2_pos m Hm) as HD.
  pose proof (Z.sqrt_spec m ltac:(lia)) as [Hq1 Hq2]. cbn zeta in Hq1, Hq2.
  pose proof (Z.sqrt_nonneg m) as Hq0.
  set (q := Z.sqrt m) in *. set (D := Zdigits2 m) in *. set (c := (D + 1) / 2).
  assert (Hc : 2 * c - 2 <= D - 1 /\ D <= 2 * c /\ 1 <= c).
  { subst c. clear -HD. Z.div_mod_to_equations. lia. }
  assert (Hcc : 2 ^ (2 * c) = 2 ^ c * 2 ^ c).
  { rewrite <- pow2_split by lia. f_equal. lia. }
  assert (Hcc' : 2 ^ (2 * c - 2) = 2 ^ (c - 1) * 2 ^ (c - 1)).
  { rewrite <- pow2_split by lia. f_equal. lia. }
  pose proof (pow2_pos c ltac:(lia)). pose proof (pow2_pos (c - 1) ltac:(lia)).
  apply Z.le_antisymm.
  - apply Zdigits2_le; [lia | lia |].
    destruct (Z.lt_ge_cases q (2 ^ c)) as [| Hge]; [done | exfalso].
    assert (2 ^ c * 2 ^ c <= q * q) by (apply Z.mul_le_mono_nonneg; lia).
    assert (2 ^ D <= 2 ^ (2 * c)) by (apply Z.pow_le_mono_r; lia).
    lia.
  - replace c with (c - 1 + 1) by lia.
    apply Zdigits2_ge; [lia |].
    destruct (Z.le_gt_cases (2 ^ (c - 1)) q) as [| Hlt]; [done | exfalso].
    assert (Z.succ q * Z.succ q <= 2 ^ (c - 1) * 2 ^ (c - 1))
      by (apply Z.mul_le_mono_nonneg; lia).
    assert (2 ^ (2 * c - 2) <= 2 ^ (D - 1)) by (apply Z.pow_le_mono_r; lia).
    lia.
Qed.

Lemma SFsqrt_core_binary_spec m e :
  let d := Zpos (digits2_pos m) in
  let e' := Z.min (Z.max ((d + e + 1) / 2 - 24) (-149)) (e / 2) in
  exists q l,
    SFsqrt_core_binary F32.prec F32.emax (Zpos m) e = (q, e', l) /\
    0 <= q /\ Zdigits2 q + e' = (d + e + 1) / 2.
Proof.
  intros d e'. unfold SFsqrt_core_binary. cbn [Zdigits2]. rewrite fexp32.
  rewrite !Z.div2_div. fold d. fold e'.
  set (s := e - 2 * e').
  assert (Hs : 0 <= s).
  { subst s e'. clear. Z.div_mod_to_equations. lia. }
  set (m' := match s with
             | Zpos _ => Z.shiftl (Zpos m) s
             | Z0 => Zpos m
             | Zneg _ => 0
             end).
  assert (Hm' : m' = Zpos m * 2 ^ s).
  { subst m'. destruct s as [| p | p]; [cbn; lia | | lia].
    apply Z.shiftl_mul_pow2. lia. }
  assert (Hpos : 0 < m').
  { rewrite Hm'. pose proof (pow2_pos s Hs). lia. }
  pose proof (Z.sqrtrem_sqrt m') as Hsq.
  pose proof (Zdigits2_sqrt m' Hpos) as Hdig.
  rewrite Hm' in Hdig at 2. rewrite (Zdigits2_mul_pow2 (Zpos m) s) in Hdig by lia.
  cbn [Zdigits2] in Hdig. fold d in Hdig.
  destruct (Z.sqrtrem m') as [q r]. cbn [fst] in Hsq. subst q.
  eexists _, _. split; [reflexivity |].
  split; [apply Z.sqrt_nonneg |].
  rewrite Hdig. subst s. clear. Z.div_mod_to_equations. lia.
Qed.

Lemma sqrt_below a k x :
  F32.below a x = true -> F32.leb F32.zero x = true ->
  (a + 1) / 2 + 1 <= k -> -148 <= k <= 128 ->
  F32.below k (F32.sqrt x) = true.
Proof.
  intros Hx Hpos Hk Hrange.
  destruct x as [sx | | | sx mx ex]; try done.
  destruct sx; [done |].
  apply below_finite_inv in Hx as (Cx & _ & Mx).
  unfold F32.sqrt, SFsqrt.
  destruct (SFsqrt_core_binary_spec mx ex) as (q & l & -> & Hq0 & Hq1).
  apply binary_round_aux_below; rewrite ?fexp32; try lia.
  all: rewrite Hq1; clear -Cx Mx Hk Hrange; Z.div_mod_to_equations; lia.
Qed.

End SquareRootFacts.

Section OrderFacts.

Lemma SFcompare_antisym x y c :
  SFcompare x y = Some c -> SFcompare y x = Some (CompOpp c).
Proof.
  destruct x as [sx | sx | | sx mx ex], y as [sy | sy | | sy my ey]; cbn;
    try (intros [= <-]; by repeat match goal with s : bool |- _ => destruct s end);
    try done.
  intros [= <-]. f_equal.
  rewrite (Z.compare_antisym ex ey).
  change (Pos.compare_cont Eq my mx) with (Pos.compare my mx).
  change (Pos.compare_cont Eq mx my) with (Pos.compare mx my).
  rewrite (Pos.compare_antisym mx my).
  destruct sx, sy; try done; by destruct (ex ?= ey), (mx ?= my)%positive.
Qed.

Lemma SFcompare_not_nan x y :
  F32.is_nan x = false -> F32.is_nan y = false -> exists c, SFcompare x y = Some c.
Proof. destruct x, y; cbn; try done; eauto. Qed.

Lemma not_ltb_leb x y :
  F32.is_nan x = false -> F32.is_nan y = false ->
  F32.ltb x y = false -> F32.leb y x = true.
Proof.
  intros Hx Hy. unfold F32.ltb, F32.leb, SFltb, SFleb.
  destruct (SFcompare_not_nan x y Hx Hy) as [c Hc].
  rewrite Hc, (SFcompare_antisym x y c Hc). by destruct c.
Qed.

(** The clipping macro on a value that is a number. *)
Lemma constrain_between x lo hi :
  F32.leb lo lo = true -> F32.leb hi hi = true -> F32.leb lo hi = true ->
  F32.is_nan x = false ->
  F32.between lo hi (F32.constrain x lo hi).
Proof.
  intros Hlo Hhi Hlohi Hx. unfold F32.constrain, F32.between, F32.gtb.
  assert (Nlo : F32.is_nan lo = false) by (by destruct lo).
  assert (Nhi : F32.is_nan hi = false) by (by destruct hi).
  destruct (F32.ltb x lo) eqn:E1; [done |].
  change (SFltb hi x) with (F32.ltb hi x).
  destruct (F32.ltb hi x) eqn:E2; [done |].
  split; by apply not_ltb_leb.
Qed.

Lemma below_not_nan k x : F32.below k x = true -> F32.is_nan x = false.
Proof. destruct x; cbn; done. Qed.

End OrderFacts.

Section MacroFacts.

Lemma opp_below k x : F32.below k x = true -> F32.below k (F32.opp x) = true.
Proof. by destruct x. Qed.

Lemma abs_below k x : F32.below k x = true -> F32.below k (F32.abs x) = true.
Proof. destruct x as [s | | | s m e]; try done; by destruct s. Qed.

Lemma one_within k : 1 <= k -> F32.within 1 k F32.one = true.
Proof.
  intros Hk. unfold F32.within, F32.one.
  apply andb_true_intro. split; [done |]. apply Z.leb_le. cbn. lia.
Qed.

(** [max(1.0, x)] is a finite number that is at least one. *)
Lemma max_one_within k x :
  F32.below k x = true -> 1 <= k -> F32.within 1 k (F32.max F32.one x) = true.
Proof.
  intros Hx Hk. unfold F32.max, F32.gtb.
  destruct (SFltb x F32.one) eqn:Hlt; [by apply one_within |].
  destruct x as [s | | | s m e]; try done.
  pose proof Hx as Hb. apply below_finite_inv in Hb as (Hc & _ & Hm).
  destruct s; [done |].
  cbv beta iota delta [SFltb SFcompare F32.one] in Hlt.
  assert (Hmag : 1 <= Zpos (digits2_pos m) + e).
  { destruct (Z.compare_spec e (-23)) as [He | He | He]; [| done | lia].
    rewrite Pos.compare_cont_spec in Hlt.
    destruct (Pos.compare_spec m 8388608) as [Hm8 | Hm8 | Hm8]; [| done |].
    - subst m. cbn. lia.
    - pose proof (Zdigits2_ge (Zpos m) 23 ltac:(lia) ltac:(cbn; lia)) as Hd.
      cbn [Zdigits2] in Hd. lia. }
  unfold F32.within. cbn in Hx. apply andb_prop in Hx as [Hb Hle]. rewrite Hb, Hle.
  rewrite andb_true_r. cbn. apply Z.leb_le. lia.
Qed.

(** The sign of a rounded number is the sign given to the rounding. *)
Lemma binary_round_aux_sign s m e l :
  0 <= m -> F32.sign_is s (binary_round_aux F32.prec F32.emax s m e l).
Proof.
  intros Hm.
  destruct (binary_round_aux_steps s m e l Hm)
    as (m1 & e1 & m2 & m3 & e3 & _ & _ & _ & _ & _ & Hm3 & ->).
  destruct m3 as [| p | p]; [done | | lia].
  by destruct (e3 <=? 104).
Qed.

Lemma sign_is_nonneg x : F32.sign_is false x -> F32.leb F32.zero x = true.
Proof. destruct x as [s | s | | s m e]; cbn; try done; by intros ->. Qed.

Lemma of_Z_nonneg z : 0 <= z -> F32.sign_is false (F32.of_Z z).
Proof.
  intros Hz. unfold F32.of_Z, binary_normalize.
  destruct z as [| p | p]; [done | | lia].
  unfold binary_round. destruct (shl_align _ _ _) as [mz ez].
  by apply binary_round_aux_sign.
Qed.

Lemma div_nonneg x y :
  F32.sign_is false x -> F32.sign_is false y ->
  F32.is_nan (F32.div x y) = false -> F32.sign_is false (F32.div x y).
Proof.
  destruct x as [sx | sx | | sx mx ex], y as [sy | sy | | sy my ey];
    cbn; try done; intros -> ->; try done.
  intros _. unfold F32.div, SFdiv.
  destruct (SFdiv_core_binary_spec mx ex my ey) as (q & l & -> & Hq0 & _).
  by apply binary_round_aux_sign.
Qed.

End MacroFacts.

(** ** values.h: the sums of one cycle *)

Section SumFacts.
Import CInt.

Lemma sum_loop_S (k : nat) term :
  Values.sum_loop (Z.of_nat (S k)) term
  = long (Values.sum_loop (Z.of_nat k) term + term (Z.of_nat k)).
Proof.
  unfold Values.sum_loop. rewrite !Nat2Z.id, seq_S, fold_left_app. done.
Qed.

Lemma sum_loop_is_long n term : is_long (Values.sum_loop n term).
Proof.
  destruct (Z.le_gt_cases n 0) as [Hn | Hn].
  - unfold Values.sum_loop. replace (Z.to_nat n) with 0%nat by lia. cbn.
    unfold is_long, LONG_MIN, LONG_MAX. lia.
  - replace n with (Z.of_nat (S (Z.to_nat (n - 1)))) by lia.
    rewrite sum_loop_S. apply long_range.
Qed.

Lemma sum_loop_bounds (k : nat) term B :
  0 <= B -> Z.of_nat k * B <= LONG_MAX ->
  (forall i, 0 <= i < Z.of_nat k -> 0 <= term i <= B) ->
  0 <= Values.sum_loop (Z.of_nat k) term <= Z.of_nat k * B.
Proof.
  intros HB. induction k as [| k IH]; intros Hmax Hterm.
  - change (Values.sum_loop (Z.of_nat 0) term) with 0. lia.
  - rewrite sum_loop_S.
    assert (IH' : 0 <= Values.sum_loop (Z.of_nat k) term <= Z.of_nat k * B).
    { apply IH; [lia |]. intros i Hi. apply Hterm. lia. }
    specialize (Hterm (Z.of_nat k) ltac:(lia)).
    rewrite long_id; [lia |].
    unfold is_long, LONG_MIN, LONG_MAX in *. lia.
Qed.

Variable cm : Measure.t.
Hypothesis Hcm : Measure.in_range cm = true.

Lemma in_range_numSamples : 0 < Measure.numSamples cm <= 40.
Proof.
  unfold Measure.in_range in Hcm. apply andb_prop in Hcm as [H _].
  apply andb_prop in H as [H1 H2]. apply Z.ltb_lt in H1. apply Z.leb_le in H2.
  unfold Measure.SAMPLES_PER_CYCLE in H2. lia.
Qed.

Lemma in_range_sample i :
  0 <= i < Measure.numSamples cm ->
  0 <= Measure.sample (Measure.V0 cm) i <= 4096 /\
  0 <= Measure.sample (Measure.Vx cm) i <= 4096 /\
  0 <= Measure.sample (Measure.Ig cm) i <= 4096 /\
  0 <= Measure.sample (Measure.Ic cm) i <= 4096.
Proof.
  intros Hi. unfold Measure.in_range in Hcm. apply andb_prop in Hcm as [_ H].
  rewrite forallb_forall in H. specialize (H i).
  rewrite <- list_elem_of_In, elem_of_indices in H. specialize (H Hi).
  unfold Measure.sample_ok in H.
  repeat match goal with
         | H : _ && _ = true |- _ => apply andb_prop in H as [? ?]
         | H : (_ <=? _) = true |- _ => apply Z.leb_le in H
         end.
  lia.
Qed.

Lemma offset_range : 0 <= Values.offset cm <= 4096.
Proof.
  pose proof in_range_numSamples as Hn. unfold Values.offset.
  set (n := Measure.numSamples cm) in *.
  pose proof (sum_loop_bounds (Z.to_nat n) (Measure.sample (Measure.V0 cm)) 4096) as Hs.
  rewrite Z2Nat.id in Hs by lia.
  specialize (Hs ltac:(lia) ltac:(unfold LONG_MAX; lia)
                 (fun i Hi => proj1 (in_range_sample i Hi))).
  split.
  - apply Z.quot_pos; lia.
  - apply Z.quot_le_upper_bound; lia.
Qed.

Lemma sumSquares_range (a : list Z) :
  (forall i, 0 <= i < Measure.numSamples cm -> 0 <= Measure.sample a i <= 4096) ->
  0 <= Values.sumSquares cm a < 2 ^ 30.
Proof.
  intros Ha. pose proof in_range_numSamples as Hn. pose proof offset_range as Ho.
  unfold Values.sumSquares.
  set (n := Measure.numSamples cm) in *.
  pose proof (sum_loop_bounds (Z.to_nat n)
    (fun i => let value := long (Measure.sample a i - Values.offset cm) in long (value * value))
    (4096 * 4096)) as Hs.
  rewrite Z2Nat.id in Hs by lia.
  assert (0 <= Values.sum_loop n
    (fun i => let value := long (Measure.sample a i - Values.offset cm) in long (value * value))
    <= n * (4096 * 4096)) as Hr.
  { apply Hs; [lia | unfold LONG_MAX; lia |].
    intros i Hi. specialize (Ha i Hi). cbn zeta.
    rewrite (long_id (Measure.sample a i - Values.offset cm))
      by (unfold is_long, LONG_MIN, LONG_MAX; lia).
    set (x := Measure.sample a i - Values.offset cm).
    assert (Hsq : 0 <= x * x <= 4096 * 4096).
    { split; [apply Z.square_nonneg |].
      replace (x * x) with (Z.abs x * Z.abs x) by lia.
      apply Z.mul_le_mono_nonneg; lia. }
    rewrite long_id by (unfold is_long, LONG_MIN, LONG_MAX; lia). done. }
  cbn zeta in Hr. clear Hs. change (2 ^ 30) with 1073741824. lia.
Qed.

End SumFacts.

Section AdditionFacts.

Lemma within_weaken j k j' k' x :
  j' <= j -> k <= k' -> F32.within j k x = true -> F32.within j' k' x = true.
Proof.
  intros Hj Hk. destruct x as [| | | s m e]; try done. cbn.
  intros H. apply andb_prop in H as [H H2]. apply andb_prop in H as [H0 H1].
  rewrite H0. cbn. apply Z.leb_le in H1, H2.
  apply andb_true_intro. split; apply Z.leb_le; lia.
Qed.

Lemma binary_round_not_nan s m e :
  F32.is_nan (binary_round F32.prec F32.emax s m e) = false.
Proof.
  unfold binary_round. destruct (shl_align _ _ _) as [mz ez].
  apply binary_round_aux_not_nan. lia.
Qed.

Lemma add_not_nan a b x y :
  F32.below a x = true -> F32.below b y = true -> F32.is_nan (F32.add x y) = false.
Proof.
  intros Hx Hy.
  destruct x as [sx | | | sx mx ex], y as [sy | | | sy my ey]; try done.
  - by destruct sx, sy.
  - unfold F32.add, SFadd, binary_normalize.
    destruct (_ + _) as [| p | p]; [done | |]; apply binary_round_not_nan.
Qed.

End AdditionFacts.

(** ** values.h: the quantities of one cycle are numbers *)

Section MeasureFacts.
Import Values.
Variable v : Values.t.
Variable cm : Measure.t.
Hypothesis Hcal : Values.calibration_ok v = true.
Hypothesis Hcm : Measure.in_range cm = true.

Lemma calibration_inv :
  F32.below 8 (V0RefV v) = true /\ F32.below 16 (VxRatio v) = true /\
  F32.below 16 (IgRatio v) = true /\ F32.below 16 (IcRatio v) = true.
Proof.
  unfold Values.calibration_ok in Hcal.
  apply andb_prop in Hcal as [H H4]. apply andb_prop in H as [H H3].
  apply andb_prop in H as [H1 H2]. done.
Qed.

Lemma VoltsPerCount_below : F32.below 9 (rVoltsPerCount (measure v cm)) = true.
Proof.
  cbn [measure rVoltsPerCount].
  destruct calibration_inv as (H0 & _).
  pose proof (offset_range cm Hcm) as Ho.
  assert (Havg : F32.below 14 (F32.of_Z (offset cm)) = true).
  { apply (of_Z_below _ 13); [lia |]. change (2 ^ 13) with 8192. lia. }
  apply (div_below 8 1 14); [done | | lia | lia].
  apply max_one_within; [done | lia].
Qed.

Lemma scale_below ratio :
  F32.below 16 ratio = true ->
  F32.below 26 (F32.mul (rVoltsPerCount (measure v cm)) ratio) = true.
Proof.
  intros Hr. apply (mul_below 9 16); [apply VoltsPerCount_below | done | lia | lia].
Qed.

Lemma numSamples_within : F32.within 1 7 (F32.of_Z (Measure.numSamples cm)) = true.
Proof.
  pose proof (in_range_numSamples cm Hcm) as Hn.
  set (n := Measure.numSamples cm) in *.
  pose proof (Zdigits2_pos n ltac:(lia)) as Hd1.
  assert (Hd2 : Zdigits2 n <= 6).
  { apply Zdigits2_le; [lia | lia |]. change (2 ^ 6) with 64. lia. }
  apply (within_weaken (Zdigits2 n) (Zdigits2 n + 1)); [lia | lia |].
  apply of_Z_within; lia.
Qed.

Lemma mean_below sum : CInt.is_long sum -> F32.below 34 (mean cm sum) = true.
Proof.
  intros Hs. unfold mean.
  apply (div_below 33 1 7); [| apply numSamples_within | lia | lia].
  apply (of_Z_below _ 32); [lia |].
  unfold CInt.is_long, CInt.LONG_MIN, CInt.LONG_MAX in Hs.
  change (2 ^ 32) with 4294967296. change (2 ^ 31) with 2147483648 in Hs. lia.
Qed.

Lemma mean_nonneg sum :
  0 <= sum -> CInt.is_long sum -> F32.leb F32.zero (mean cm sum) = true.
Proof.
  intros H0 Hs. apply sign_is_nonneg. unfold mean. apply div_nonneg.
  - by apply of_Z_nonneg.
  - apply of_Z_nonneg. pose proof (in_range_numSamples cm Hcm). lia.
  - eapply below_not_nan. by apply mean_below.
Qed.

Lemma rms_below a ratio :
  (forall i, 0 <= i < Measure.numSamples cm -> 0 <= Measure.sample a i <= 4096) ->
  F32.below 16 ratio = true ->
  F32.below 45 (F32.mul (F32.sqrt (mean cm (sumSquares cm a)))
                    (F32.mul (rVoltsPerCount (measure v cm)) ratio)) = true.
Proof.
  intros Ha Hr.
  pose proof (sumSquares_range cm Hcm a Ha) as Hs.
  assert (Hl : CInt.is_long (sumSquares cm a)) by apply sum_loop_is_long.
  apply (mul_below 18 26); [| by apply scale_below | lia | lia].
  apply (sqrt_below 34); [by apply mean_below | apply mean_nonneg; [lia | done] | | lia].
  done.
Qed.

Lemma power_below a ratio :
  F32.below 16 ratio = true ->
  F32.below 88 (F32.abs (F32.mul (F32.mul (mean cm (sumProducts cm a))
                                      (F32.mul (rVoltsPerCount (measure v cm)) ratio))
                             (F32.mul (rVoltsPerCount (measure v cm)) (VxRatio v)))) = true.
Proof.
  intros Hr. destruct calibration_inv as (_ & Hx & _).
  apply abs_below.
  apply (mul_below 61 26); [| by apply scale_below | lia | lia].
  apply (mul_below 34 26); [| by apply scale_below | lia | lia].
  apply mean_below, sum_loop_is_long.
Qed.

Lemma power_factor_below P VxEff IEff :
  F32.below 88 P = true -> F32.below 45 VxEff = true -> F32.below 45 IEff = true ->
  F32.below 89 (F32.div P (F32.max F32.one (F32.mul VxEff IEff))) = true.
Proof.
  intros HP HV HI.
  apply (div_below 88 1 91); [done | | lia | lia].
  apply max_one_within; [| lia].
  by apply (mul_below 45 45).
Qed.

(** Every quantity of the cycle is a zero or a finite number. *)
Lemma measure_below :
  F32.below 45 (rVxEff (measure v cm)) = true /\
  F32.below 45 (rIgEff (measure v cm)) = true /\
  F32.below 45 (rIcEff (measure v cm)) = true /\
  F32.below 88 (rPg (measure v cm)) = true /\
  F32.below 88 (rPc (measure v cm)) = true /\
  F32.below 89 (rPFg (measure v cm)) = true /\
  F32.below 89 (rPFc (measure v cm)) = true.
Proof.
  destruct calibration_inv as (_ & Hx & Hg & Hc).
  assert (Sx : forall i, 0 <= i < Measure.numSamples cm -> 0 <= Measure.sample (Measure.Vx cm) i <= 4096)
    by (intros i Hi; apply (in_range_sample cm Hcm i Hi)).
  assert (Sg : forall i, 0 <= i < Measure.numSamples cm -> 0 <= Measure.sample (Measure.Ig cm) i <= 4096)
    by (intros i Hi; apply (in_range_sample cm Hcm i Hi)).
  assert (Sc : forall i, 0 <= i < Measure.numSamples cm -> 0 <= Measure.sample (Measure.Ic cm) i <= 4096)
    by (intros i Hi; apply (in_range_sample cm Hcm i Hi)).
  pose proof (rms_below (Measure.Vx cm) (VxRatio v) Sx Hx) as HVx.
  pose proof (rms_below (Measure.Ig cm) (IgRatio v) Sg Hg) as HIg.
  pose proof (rms_below (Measure.Ic cm) (IcRatio v) Sc Hc) as HIc.
  pose proof (power_below (Measure.Ig cm) (IgRatio v) Hg) as HPg.
  pose proof (power_below (Measure.Ic cm) (IcRatio v) Hc) as HPc.
  cbn [measure rVxEff rIgEff rIcEff rPg rPc rPFg rPFc].
  split; [exact HVx |]. split; [exact HIg |]. split; [exact HIc |].
  split; [exact HPg |]. split; [by apply opp_below |].
  split.
  - by apply power_factor_below.
  - apply power_factor_below; [| done | done]. by apply opp_below, opp_below.
Qed.

End MeasureFacts.

Section ComputeFacts.
Import Values.

Lemma override_below sm v cm :
  Values.calibration_ok v = true -> Measure.in_range cm = true -> Simul.in_range sm = true ->
  F32.below 88 (fst (override sm (rPg (measure v cm), rPc (measure v cm)))) = true /\
  F32.below 88 (snd (override sm (rPg (measure v cm), rPc (measure v cm)))) = true.
Proof.
  intros Hcal Hcm Hsm.
  destruct (measure_below v cm Hcal Hcm) as (_ & _ & _ & HPg & HPc & _).
  unfold override. destruct (Simul.mode sm); try done.
  unfold Simul.in_range, CInt.int_ok, CInt.INT_MIN, CInt.INT_MAX in Hsm.
  apply andb_prop in Hsm as [Hg Hc].
  apply andb_prop in Hg as [Hg1 Hg2]. apply andb_prop in Hc as [Hc1 Hc2].
  apply Z.leb_le in Hg1, Hg2, Hc1, Hc2.
  change (2 ^ 15) with 32768 in *.
  cbn [fst snd]. split; [| apply opp_below].
  - apply (below_weaken 17); [lia |]. apply (of_Z_below _ 16); [lia |].
    change (2 ^ 16) with 65536. lia.
  - apply (below_weaken 17); [lia |]. apply (of_Z_below _ 16); [lia |].
    change (2 ^ 16) with 65536. lia.
Qed.

End ComputeFacts.

(** C7.  After a call of [Values::compute] the outputs of the cycle lie
    F32.within the documented bounds, for every sample cycle of 1 to 40 samples
    in the range of the converter (0 to 4096 counts) and every simulation
    override, when the calibration holds numbers of moderate size (reference
    voltage F32.below 2^8, channel ratios F32.below 2^16): no quantity of the cycle
    is then a NaN, and the clipping brings each one into its interval. *)
Theorem compute_outputs_within_bounds t_start t_end sm cm v :
  Values.calibration_ok v = true ->
  Measure.in_range cm = true ->
  Simul.in_range sm = true ->
  let v' := Values.compute t_start t_end sm cm v in
  F32.between F32.zero Values.f999 (Values.VxEff v') /\
  F32.between F32.zero Values.f99 (Values.IgEff v') /\
  F32.between F32.zero Values.f99 (Values.IcEff v') /\
  F32.between F32.zero Values.f9999 (Values.Pg v') /\
  F32.between Values.fm9999 F32.zero (Values.Pc v') /\
  F32.between Values.fm9999 Values.f9999 (Values.Pn v') /\
  F32.between F32.zero Values.f0_99 (Values.PFg v') /\
  F32.between F32.zero Values.f0_99 (Values.PFc v').
Proof.
  intros Hcal Hcm Hsm v'. subst v'.
  destruct (measure_below v cm Hcal Hcm) as (HVx & HIg & HIc & _ & _ & HPFg & HPFc).
  destruct (override_below sm v cm Hcal Hcm Hsm) as [HPg HPc].
  unfold Values.compute.
  destruct (Values.override sm _) as [Pg0 Pc0]. cbn [fst snd] in HPg, HPc.
  destruct (Values.filter v _ _ _) as [[PgFilt' PcFilt'] PnFilt'].
  cbn [Values.VxEff Values.IgEff Values.IcEff Values.Pg Values.Pc Values.Pn
       Values.PFg Values.PFc].
  repeat match goal with |- _ /\ _ => split end;
    (apply constrain_between; [reflexivity | reflexivity | reflexivity |]);
    try (eapply below_not_nan; eassumption).
  eapply add_not_nan; eassumption.
Qed.

Lemma compute_outputs_within_bounds_witness :
  F32.between F32.zero Values.f999 (Values.VxEff Samples.sine_snapshot) /\
  F32.between F32.zero Values.f99 (Values.IgEff Samples.sine_snapshot) /\
  F32.between F32.zero Values.f99 (Values.IcEff Samples.sine_snapshot) /\
  F32.between F32.zero Values.f9999 (Values.Pg Samples.sine_snapshot) /\
  F32.between Values.fm9999 F32.zero (Values.Pc Samples.sine_snapshot) /\
  F32.between Values.fm9999 Values.f9999 (Values.Pn Samples.sine_snapshot) /\
  F32.between F32.zero Values.f0_99 (Values.PFg Samples.sine_snapshot) /\
  F32.between F32.zero Values.f0_99 (Values.PFc Samples.sine_snapshot).
Proof.
  apply (compute_outputs_within_bounds 0 0 Simul.init Samples.sine_cycle
           Samples.calibrated); vm_compute; reflexivity.
Defined.

(** * Further properties of the code *)

(** ** loads.h: registering loads one after the other *)

Section RegistrationFacts.
Import Loads.
Variable digitalRead : Z -> level.

Lemma init_wf : wf init.
Proof. vm_compute. repeat split; (reflexivity || discriminate). Qed.

Lemma add_reg_full r s :
  nLoads s >= nLoadsMax s -> add_reg digitalRead r s = (-1, s, []).
Proof.
  intros H. unfold add_reg, add.
  destruct (Z.geb_spec (nLoads s) (nLoadsMax s)); [done | lia].
Qed.

(** A call of [add] on a registry with a free slot. *)
Lemma add_reg_free r s :
  wf s -> nLoads s < N_LOADS_MAX ->
  let s' := snd (fst (add_reg digitalRead r s)) in
  fst (fst (add_reg digitalRead r s)) = 0 /\
  wf s' /\ nLoads s' = nLoads s + 1 /\
  registered_as s' (nLoads s) r /\
  on_at s' (nLoads s) = false /\ flag_at s' (nLoads s) = true /\
  lockSec_at s' (nLoads s) = 0 /\
  (forall i, i <> nLoads s -> same_config_at s s' i /\ same_status_at s s' i).
Proof.
  intros Hwf Hfree.
  destruct (add_reg digitalRead r s) as [[ret s'] out] eqn:E. cbn [fst snd].
  assert (Hret : ret = 0).
  { unfold add_reg, add in E.
    destruct (nLoads s >=? nLoadsMax s) eqn:Hc.
    - apply Z.geb_le in Hc. destruct Hwf as (HMax & _). lia.
    - destruct (reg_gpioMode r =? -1); by injection E as <- _ _. }
  subst ret. unfold add_reg in E.
  destruct (add_ok_inv _ _ _ _ _ _ _ _ _ _ _ _ E)
    as (_ & HnMax & Hn & Hcause & Hname & Hpow & Hlon & Hloff & Hout & Hmode
        & Hradio & Hchan & Hsolar & Hflag & Hon & Hlock).
  pose proof Hwf as (HMax & Hrange & Hlens).
  assert (Hn' : nLoads s' = nLoads s + 1).
  { rewrite Hn. apply int_id. unfold CInt.is_int, CInt.INT_MIN, CInt.INT_MAX.
    unfold N_LOADS_MAX in *. lia. }
  destruct (wf_lengths s Hwf (nLoads s) ltac:(lia))
    as (L1 & L2 & L3 & L4 & L5 & L6 & L7 & L8 & L9 & L10 & L11 & L12).
  split; [done |]. split.
  { unfold wf.
    rewrite HnMax, Hn', Hname, Hpow, Hlon, Hloff, Hout, Hmode, Hradio, Hchan, Hsolar,
      Hflag, Hon, Hlock, !length_set.
    unfold wf in Hwf. unfold N_LOADS_MAX in *. repeat split; try tauto; lia. }
  split; [done |].
  unfold registered_as, same_config_at, same_status_at,
    name_at, powerW_at, lockOnSec_at, lockOffSec_at, gpioOut_at, gpioMode_at,
    radioModel_at, channel_at, solarMode_at, flag_at, on_at, lockSec_at.
  rewrite Hname, Hpow, Hlon, Hloff, Hout, Hmode, Hradio, Hchan, Hsolar, Hflag, Hon, Hlock.
  split; [rewrite !get_set_eq by (done || lia); done |].
  rewrite !get_set_eq by (done || lia).
  split; [done |]. split; [done |]. split; [done |].
  intros i Hi. rewrite !get_set_ne by congruence. done.
Qed.

Lemma add_all_snoc rs r s :
  add_all digitalRead (rs ++ [r]) s
  = snd (fst (add_reg digitalRead r (add_all digitalRead rs s))).
Proof. unfold add_all. by rewrite fold_left_app. Qed.

(** The registry after the calls [rs] made on the empty registry. *)
Lemma add_all_inv rs :
  let s := add_all digitalRead rs init in
  wf s /\
  nLoads s = Z.min (Z.of_nat (length rs)) N_LOADS_MAX /\
  forall k r, rs !! k = Some r -> Z.of_nat k < N_LOADS_MAX ->
    registered_as s (Z.of_nat k) r /\
    on_at s (Z.of_nat k) = false /\ flag_at s (Z.of_nat k) = true /\
    lockSec_at s (Z.of_nat k) = 0.
Proof.
  induction rs as [| r rs IH] using rev_ind.
  { cbn. split; [apply init_wf |]. split; [done |]. intros k r Hk. done. }
  cbn zeta in *. rewrite add_all_snoc.
  set (s := add_all digitalRead rs init) in *.
  destruct IH as (Hwf & Hn & Hreg).
  rewrite length_app. cbn [length].
  destruct (Z_lt_le_dec (nLoads s) N_LOADS_MAX) as [Hfree | Hfull].
  - destruct (add_reg_free r s Hwf Hfree)
      as (_ & Hwf' & Hn' & Hnew & Hon & Hflag & Hlock & Hold).
    set (s' := snd (fst (add_reg digitalRead r s))) in *.
    assert (Hlen : nLoads s = Z.of_nat (length rs)) by lia.
    split; [done |]. split; [lia |].
    intros k r' Hk Hk3.
    destruct (Nat.lt_ge_cases k (length rs)) as [Hlt | Hge].
    + rewrite lookup_app_l in Hk by done.
      destruct (Hreg k r' Hk Hk3) as (Hr & H1 & H2 & H3).
      destruct (Hold (Z.of_nat k) ltac:(lia))
        as ((C1 & C2 & C3 & C4 & C5 & C6 & C7 & C8) & (S1 & S2 & S3 & S4)).
      unfold registered_as in *.
      rewrite C1, C2, C3, C4, C5, C6, C7, C8, S2, S3, S4. done.
    + apply lookup_lt_Some in Hk as Hk'. rewrite length_app in Hk'. cbn in Hk'.
      assert (k = length rs) as -> by lia.
      rewrite list_lookup_middle in Hk by done. injection Hk as <-.
      rewrite <- Hlen. done.
  - rewrite add_reg_full by (destruct Hwf as (-> & _); lia). cbn [fst snd].
    split; [done |]. split; [lia |].
    intros k r' Hk Hk3.
    rewrite lookup_app_l in Hk by lia. by apply Hreg.
Qed.

End RegistrationFacts.

(** X1.  Loads registered one after the other on the empty registry are read
    back in the order of the calls: after the calls [rs] of [Loads::add] the
    count is the number of calls, capped at the capacity of three; slot [k]
    holds the configuration given in call [k], is off, not locked and has
    its flag raised; and once three loads are registered every further call
    returns -1, leaves the registry as it is and touches no pin. *)
Theorem registrations_read_back digitalRead rs :
  let s := Loads.add_all digitalRead rs Loads.init in
  Loads.nLoads s = Z.min (Z.of_nat (length rs)) Loads.N_LOADS_MAX /\
  (forall k r, rs !! k = Some r -> Z.of_nat k < Loads.N_LOADS_MAX ->
     Loads.registered_as s (Z.of_nat k) r /\
     Loads.on_at s (Z.of_nat k) = false /\ Loads.flag_at s (Z.of_nat k) = true /\
     Loads.lockSec_at s (Z.of_nat k) = 0) /\
  (forall r, Loads.N_LOADS_MAX <= Z.of_nat (length rs) ->
     Loads.add_reg digitalRead r s = (-1, s, [])).
Proof.
  intros s. destruct (add_all_inv digitalRead rs) as (Hwf & Hn & Hreg). fold s in Hwf, Hn, Hreg.
  split; [done |]. split; [done |].
  intros r Hfull. apply add_reg_full. destruct Hwf as (-> & _). lia.
Qed.
(** ** loads.h: the lock counters *)

Section LockFacts.
Import Loads.
Variable digitalRead : Z -> level.

Lemma second_step_lockSec_other s a i :
  i <> a -> lockSec_at (second_step digitalRead s a) i = lockSec_at s i.
Proof.
  intros Hne. unfold lockSec_at at 1. cbn.
  destruct (lockSec_at s a >? 0); [| done].
  apply get_set_ne. congruence.
Qed.

Lemma second_step_lockSec_self s i :
  0 <= i -> (Z.to_nat i < length (lockSec s))%nat ->
  lockSec_at (second_step digitalRead s i) i
  = if lockSec_at s i >? 0 then CInt.int (lockSec_at s i - 1) else lockSec_at s i.
Proof.
  intros H0 Hlen. unfold lockSec_at at 1. cbn.
  destruct (lockSec_at s i >? 0); [| done].
  by apply get_set_eq.
Qed.

Lemma second_step_length_lockSec s a :
  length (lockSec (second_step digitalRead s a)) = length (lockSec s).
Proof. cbn. destruct (lockSec_at s a >? 0); [apply length_set | done]. Qed.

Lemma second_steps_lockSec_other l : forall s i,
  i ∉ l -> lockSec_at (fold_left (second_step digitalRead) l s) i = lockSec_at s i.
Proof.
  induction l as [| a l IH]; intros s i Hi; [done |].
  apply not_elem_of_cons in Hi as [Hne Hi].
  cbn [fold_left]. rewrite IH by done. by apply second_step_lockSec_other.
Qed.

(** Each load of the loop has its counter decremented once, when it is
    above zero. *)
Lemma second_steps_lockSec l : forall s i,
  NoDup l -> i ∈ l -> 0 <= i -> (Z.to_nat i < length (lockSec s))%nat ->
  lockSec_at (fold_left (second_step digitalRead) l s) i
  = if lockSec_at s i >? 0 then CInt.int (lockSec_at s i - 1) else lockSec_at s i.
Proof.
  induction l as [| a l IH]; intros s i Hnd Hi H0 Hlen; [by apply elem_of_nil in Hi |].
  apply NoDup_cons in Hnd as [Ha Hnd]. cbn [fold_left].
  apply elem_of_cons in Hi as [-> | Hi].
  - rewrite second_steps_lockSec_other by done. by apply second_step_lockSec_self.
  - assert (Hne : i <> a) by (intros ->; done).
    rewrite IH; [| done | done | done | by rewrite second_step_length_lockSec].
    by rewrite second_step_lockSec_other.
Qed.

Lemma every_second_lockSec s i :
  wf s -> 0 <= i < nLoads s ->
  lockSec_at (every_second digitalRead s) i
  = if lockSec_at s i >? 0 then CInt.int (lockSec_at s i - 1) else lockSec_at s i.
Proof.
  intros Hwf Hi. unfold every_second.
  destruct (wf_lengths s Hwf i) as (_ & _ & _ & _ & _ & _ & _ & _ & _ & _ & _ & L).
  { unfold wf in Hwf. lia. }
  apply second_steps_lockSec; [apply NoDup_indices | by apply elem_of_indices | lia | done].
Qed.

(** The counter of a registered load after the task of every second, when
    it holds a value of type [int]. *)
Lemma every_second_lockSec_bounds s i :
  wf s -> 0 <= i < nLoads s -> CInt.is_int (lockSec_at s i) ->
  lockSec_at (every_second digitalRead s) i
  = if lockSec_at s i >? 0 then lockSec_at s i - 1 else lockSec_at s i.
Proof.
  intros Hwf Hi Hint. rewrite every_second_lockSec by done.
  destruct (Z.gtb_spec (lockSec_at s i) 0); [| done].
  apply int_id. unfold CInt.is_int, CInt.INT_MIN, CInt.INT_MAX in *. lia.
Qed.

End LockFacts.

(** X2.  In a call of [Loads::decide] made when a second has elapsed and
    outside a decide period, the lock counter of every registered load goes
    down by one and stops at zero, and no load is switched: a counter of
    [n >= 0] seconds becomes [max 0 (n - 1)]. *)
Theorem lock_counter_counts_down_to_zero digitalRead pCT pCV s i :
  Loads.wf s -> 0 <= i < Loads.nLoads s ->
  CountTime.flagOneSec pCT = true -> CountTime.flagDecide pCT = false ->
  0 <= Loads.lockSec_at s i <= CInt.INT_MAX ->
  let s' := Loads.decide digitalRead pCT pCV s in
  Loads.lockSec_at s' i = Z.max 0 (Loads.lockSec_at s i - 1) /\
  Loads.on s' = Loads.on s /\ Loads.flag s' = Loads.flag s /\
  Loads.cause s' = Loads.cause s.
Proof.
  intros Hwf Hi Hsec Hdec Hlock s'. subst s'.
  unfold Loads.decide. rewrite Hsec, Hdec.
  destruct (every_second_frame digitalRead s) as (_ & Hon & Hflag & Hcause & _).
  split; [| done].
  rewrite every_second_lockSec_bounds; [| done | done |].
  - destruct (Z.gtb_spec (Loads.lockSec_at s i) 0); lia.
  - unfold CInt.is_int, CInt.INT_MIN, CInt.INT_MAX in *. lia.
Qed.
(** ** loads.h: what a rule knows about the load it picks *)

Section RuleRanges.
Import Loads.
Variable pCV : Values.t.
Variable s : t.

Lemma rule2_index_inv i :
  rule2_index pCV s = Some i ->
  F32.leb (Values.PnFilt pCV) F32.zero = true /\ last_sheddable s i.
Proof.
  unfold rule2_index, last_sheddable, sheddable.
  destruct (F32.leb (Values.PnFilt pCV) F32.zero); [| done].
  intros H. apply first_down_Some in H as (k & Hk & Hbody & Hafter).
  apply when_Some in Hbody as [Hc ->].
  split; [done |]. split; [lia |]. split; [done |].
  intros j Hj. specialize (Hafter j ltac:(lia)).
  unfold when in Hafter.
  by destruct (solarMode_at s j && on_at s j && (lockSec_at s j =? 0)).
Qed.

Lemma rule2_index_last_sheddable k :
  F32.leb (Values.PnFilt pCV) F32.zero = true -> last_sheddable s k ->
  rule2_index pCV s = Some k.
Proof.
  intros Hpn (Hk & Hc & Hafter). unfold rule2_index. rewrite Hpn.
  unfold sheddable in *.
  apply (first_down_found _ _ k); [lia | by rewrite Hc |].
  intros j Hj. rewrite Hafter; [done | lia].
Qed.

Lemma rule3_index_inv j :
  rule3_index pCV s = Some j ->
  exists i, 0 <= i < j /\ j < nLoads s /\
    on_at s i = false /\ solarMode_at s i = true /\ lockSec_at s i = 0 /\
    inversion pCV s i j = true.
Proof.
  unfold rule3_index. intros H.
  apply first_up_Some in H as (i & Hi & Hbody & _).
  destruct (negb (on_at s i) && solarMode_at s i && (lockSec_at s i =? 0)) eqn:Hc; [| done].
  apply first_up_Some in Hbody as (j' & Hj & Hinv & _).
  apply when_Some in Hinv as [Hinv ->].
  apply andb_prop in Hc as [Hc Hlocki]. apply andb_prop in Hc as [Honi Hsolari].
  apply Z.eqb_eq in Hlocki. apply negb_true_iff in Honi.
  exists i. repeat split; (done || lia).
Qed.

Lemma rule4_index_inv i :
  rule4_index pCV s = Some i ->
  0 <= i < nLoads s /\ can_activate pCV s i = true /\
  forall j, 0 <= j < i -> can_activate pCV s j = false.
Proof.
  unfold rule4_index. intros H.
  apply first_up_Some in H as (k & Hk & Hbody & Hbefore).
  apply when_Some in Hbody as [Hc ->].
  split; [lia |]. split; [done |].
  intros j Hj. specialize (Hbefore j ltac:(lia)).
  unfold when in Hbefore. by destruct (can_activate pCV s j).
Qed.

Lemma can_activate_inv i :
  can_activate pCV s i = true ->
  on_at s i = false /\ lockSec_at s i = 0 /\
  F32.ltb (powerW_at s i) (Values.Margin pCV) = true /\
  (solarMode_at s i = true -> F32.ltb (powerW_at s i) (Values.PnFilt pCV) = true).
Proof.
  unfold can_activate. intros Hc.
  apply andb_prop in Hc as [Hc Hpn]. apply andb_prop in Hc as [Hc Hmargin].
  apply andb_prop in Hc as [Hon Hlock].
  apply Z.eqb_eq in Hlock. apply negb_true_iff in Hon.
  repeat split; try done.
  intros Hsolar. rewrite Hsolar in Hpn. done.
Qed.

Lemma inversion_inv i j :
  inversion pCV s i j = true ->
  on_at s j = true /\ solarMode_at s j = true /\ lockSec_at s j = 0 /\
  F32.geb (F32.add (F32.mul (powerW_at s j) POWER_REDUCTION_FACTOR) (Values.PnFilt pCV))
          (powerW_at s i) = true.
Proof.
  unfold inversion. intros Hinv.
  apply andb_prop in Hinv as [Hinv Hge]. apply andb_prop in Hinv as [Hinv Hlockj].
  apply andb_prop in Hinv as [Honj Hsolarj]. apply Z.eqb_eq in Hlockj. done.
Qed.

(** The fields of the load that a [switch] writes, and of the others. *)
Lemma switch_at_self i to_on lock why :
  wf s -> 0 <= i < nLoads s ->
  on_at (switch i to_on lock why s) i = to_on /\
  flag_at (switch i to_on lock why s) i = true /\
  lockSec_at (switch i to_on lock why s) i = lock.
Proof.
  intros Hwf Hi.
  destruct (wf_lengths s Hwf i) as (_ & _ & _ & _ & _ & _ & _ & _ & _ & Lf & Lo & Ll).
  { unfold wf in Hwf. lia. }
  unfold on_at, flag_at, lockSec_at. cbn.
  rewrite !get_set_eq by (done || lia). done.
Qed.

Lemma switch_at_other i to_on lock why j :
  j <> i ->
  on_at (switch i to_on lock why s) j = on_at s j /\
  flag_at (switch i to_on lock why s) j = flag_at s j /\
  lockSec_at (switch i to_on lock why s) j = lockSec_at s j.
Proof.
  intros Hne. unfold on_at, flag_at, lockSec_at. cbn.
  rewrite !get_set_ne by congruence. done.
Qed.

Lemma switch_wf i to_on lock why : wf s -> wf (switch i to_on lock why s).
Proof. unfold wf. cbn. rewrite !length_set. tauto. Qed.

Lemma switch_same_config i to_on lock why : same_config s (switch i to_on lock why s).
Proof. unfold same_config. cbn. tauto. Qed.

Lemma decide_rules_wf : wf s -> wf (decide_rules pCV s).
Proof.
  intros Hwf.
  destruct (decide_rules_shape pCV s) as [-> | (i & b & lock & why & ->)]; [done |].
  by apply switch_wf.
Qed.

Lemma decide_rules_same_config : same_config s (decide_rules pCV s).
Proof.
  destruct (decide_rules_shape pCV s) as [-> | (i & b & lock & why & ->)].
  - unfold same_config. tauto.
  - apply switch_same_config.
Qed.

Lemma decide_rules_taken :
  decide_rules pCV s = s \/ exists i b, rule_taken pCV s i b.
Proof.
  unfold decide_rules at 1.
  destruct (rule1_index pCV s) as [i |] eqn:H1.
  { right. exists i, false. apply taken1; [done |]. unfold decide_rules. by rewrite H1. }
  destruct (rule2_index pCV s) as [i |] eqn:H2.
  { right. exists i, false. apply taken2; [done | done |]. unfold decide_rules. by rewrite H1, H2. }
  destruct (rule3_index pCV s) as [i |] eqn:H3.
  { right. exists i, false. apply taken3; [done | done | done |].
    unfold decide_rules. by rewrite H1, H2, H3. }
  destruct (rule4_index pCV s) as [i |] eqn:H4.
  { right. exists i, true. apply taken4; [done | done | done | done |].
    unfold decide_rules. by rewrite H1, H2, H3, H4. }
  by left.
Qed.

(** The load picked by a rule is registered, its state is the opposite of
    the new one, and rules 2 to 4 only pick a load that is not locked. *)
Lemma rule_taken_range i b :
  rule_taken pCV s i b -> 0 <= i < nLoads s /\ on_at s i = negb b.
Proof.
  intros [H1 _ | _ H2 _ | _ _ H3 _ | _ _ _ H4 _].
  - apply rule1_index_Some in H1 as (_ & Hi & Hon & _). done.
  - apply rule2_index_inv in H2 as (_ & Hi & Hc & _).
    unfold sheddable in Hc. apply andb_prop in Hc as [Hc _]. apply andb_prop in Hc as [_ Hon].
    done.
  - apply rule3_index_inv in H3 as (h & Hh & Hi & _ & _ & _ & Hinv).
    apply inversion_inv in Hinv as (Hon & _). split; [lia | done].
  - apply rule4_index_inv in H4 as (Hi & Hc & _).
    apply can_activate_inv in Hc as (Hon & _). done.
Qed.

Lemma rule_taken_unlocked i b :
  rule_taken pCV s i b -> rule1_index pCV s = None -> lockSec_at s i = 0.
Proof.
  intros [H1 _ | _ H2 _ | _ _ H3 _ | _ _ _ H4 _] Hnone.
  - congruence.
  - apply rule2_index_inv in H2 as (_ & _ & Hc & _).
    unfold sheddable in Hc. apply andb_prop in Hc as [_ Hlock]. by apply Z.eqb_eq in Hlock.
  - apply rule3_index_inv in H3 as (h & _ & _ & _ & _ & _ & Hinv).
    by apply inversion_inv in Hinv as (_ & _ & Hlock & _).
  - apply rule4_index_inv in H4 as (_ & Hc & _).
    by apply can_activate_inv in Hc as (_ & Hlock & _).
Qed.

Lemma rule_taken_state i b :
  rule_taken pCV s i b ->
  decide_rules pCV s
  = switch i b (if b then lockOnSec_at s i else lockOffSec_at s i) (cause (decide_rules pCV s)) s.
Proof.
  intros [_ E | _ _ E | _ _ _ E | _ _ _ _ E]; rewrite E at 2; rewrite E; reflexivity.
Qed.

End RuleRanges.

Section DecideMore.
Import Loads.
Variable digitalRead : Z -> level.
Variable pCT : CountTime.t.
Variable pCV : Values.t.
Variable s : t.

Lemma at_rules_same_config : same_config s (at_rules digitalRead pCT s).
Proof.
  unfold at_rules. destruct (CountTime.flagOneSec pCT).
  - apply every_second_frame.
  - unfold same_config. tauto.
Qed.

Lemma at_rules_powerW_at i : powerW_at (at_rules digitalRead pCT s) i = powerW_at s i.
Proof.
  unfold powerW_at. by destruct at_rules_same_config as (_ & _ & _ & -> & _).
Qed.

Lemma at_rules_lockOnSec_at i : lockOnSec_at (at_rules digitalRead pCT s) i = lockOnSec_at s i.
Proof.
  unfold lockOnSec_at. by destruct at_rules_same_config as (_ & _ & _ & _ & -> & _).
Qed.

Lemma decide_wf : wf s -> wf (decide digitalRead pCT pCV s).
Proof.
  intros Hwf. rewrite decide_unfold. apply (at_rules_wf digitalRead pCT) in Hwf.
  destruct (CountTime.flagDecide pCT); [by apply decide_rules_wf | done].
Qed.

Lemma same_config_trans s1 s2 s3 : same_config s1 s2 -> same_config s2 s3 -> same_config s1 s3.
Proof.
  unfold same_config.
  intros (A1 & A2 & A3 & A4 & A5 & A6 & A7 & A8 & A9 & A10)
         (D1 & D2 & D3 & D4 & D5 & D6 & D7 & D8 & D9 & D10).
  repeat split; congruence.
Qed.

Lemma decide_same_config : same_config s (decide digitalRead pCT pCV s).
Proof.
  rewrite decide_unfold.
  destruct (CountTime.flagDecide pCT); [| apply at_rules_same_config].
  eapply same_config_trans; [apply at_rules_same_config | apply decide_rules_same_config].
Qed.

(** A call that changes the on/off state of load [i] made the change of
    one rule on load [i]. *)
Lemma decide_change_inv i :
  on_at (decide digitalRead pCT pCV s) i <> on_at s i ->
  CountTime.flagDecide pCT = true /\
  exists b, rule_taken pCV (at_rules digitalRead pCT s) i b.
Proof.
  rewrite decide_unfold. intros Hchg.
  destruct (CountTime.flagDecide pCT).
  2: { exfalso. apply Hchg. apply at_rules_on_at. }
  split; [done |].
  rewrite <- (at_rules_on_at digitalRead pCT s) in Hchg.
  destruct (decide_rules_taken pCV (at_rules digitalRead pCT s)) as [E | (k & b & Hk)].
  { by rewrite E in Hchg. }
  exists b. rewrite (rule_taken_state _ _ _ _ Hk) in Hchg.
  apply switch_changes_on_only_at in Hchg as ->. done.
Qed.

End DecideMore.
Lemma lock_counter_counts_down_to_zero_witness :
  Loads.lockSec_at
    (Loads.decide Samples.pins_low Samples.second_tick Values.init Samples.two_loads_on) 1
  = 59.
Proof.
  destruct (lock_counter_counts_down_to_zero Samples.pins_low Samples.second_tick
              Values.init Samples.two_loads_on 1 sample_two_loads_on_wf) as (H & _).
  - vm_compute. split; [discriminate | reflexivity].
  - reflexivity.
  - reflexivity.
  - vm_compute. split; discriminate.
  - exact H.
Defined.

(** ** loads.h: every change of the decision engine *)

(** X3.  Whenever a call of [Loads::decide] changes the on/off state of a
    load, the call was made in a decide period, the load is a registered one,
    its flag is raised for the dispatcher and its lock counter is loaded with
    the lock time of the new state: [lockOnSec] when it was switched on,
    [lockOffSec] when it was switched off. *)
Theorem decide_change_raises_flag_and_lock digitalRead pCT pCV s i :
  Loads.wf s ->
  let s' := Loads.decide digitalRead pCT pCV s in
  Loads.on_at s' i <> Loads.on_at s i ->
  CountTime.flagDecide pCT = true /\
  0 <= i < Loads.nLoads s /\
  Loads.flag_at s' i = true /\
  Loads.lockSec_at s' i
  = (if Loads.on_at s' i then Loads.lockOnSec_at s i else Loads.lockOffSec_at s i).
Proof.
  intros Hwf s' Hchg. subst s'.
  destruct (decide_change_inv digitalRead pCT pCV s i Hchg) as (Hflag & b & Hk).
  split; [done |].
  rewrite decide_unfold, Hflag in *.
  set (s1 := Loads.at_rules digitalRead pCT s) in *.
  pose proof (at_rules_wf digitalRead pCT s Hwf) as Hwf1. fold s1 in Hwf1.
  destruct (rule_taken_range _ _ _ _ Hk) as (Hi & _).
  unfold s1 in Hi. rewrite at_rules_nLoads in Hi. split; [done |].
  rewrite (rule_taken_state _ _ _ _ Hk).
  destruct (switch_at_self s1 i b
              (if b then Loads.lockOnSec_at s1 i else Loads.lockOffSec_at s1 i)
              (Loads.cause (Loads.decide_rules pCV s1)) Hwf1) as (-> & -> & ->).
  { unfold s1. by rewrite at_rules_nLoads. }
  split; [done |]. unfold s1.
  by rewrite at_rules_lockOnSec_at, at_rules_lockOffSec_at.
Qed.

Lemma decide_change_raises_flag_and_lock_witness :
  Loads.flag_at (Loads.decide Samples.pins_low Samples.decide_tick
                   Samples.values_overload Samples.two_loads_on) 1 = true /\
  Loads.lockSec_at (Loads.decide Samples.pins_low Samples.decide_tick
                      Samples.values_overload Samples.two_loads_on) 1 = 120.
Proof.
  destruct (decide_change_raises_flag_and_lock Samples.pins_low Samples.decide_tick
              Samples.values_overload Samples.two_loads_on 1 sample_two_loads_on_wf)
    as (_ & _ & Hflag & Hlock).
  - vm_compute. discriminate.
  - split; [exact Hflag | exact Hlock].
Defined.

(** X4.  [Loads::decide] switches a load on only by rule 4: the call is
    made in a decide period, no rule that switches a load off matched, the
    load is not locked, its nominal power is strictly below the consumption
    margin and, when it is in solar mode, strictly below the filtered
    excedent as well, and no load of higher priority could be activated. *)
Theorem load_switched_on_only_within_margin digitalRead pCT pCV s i :
  let s1 := Loads.at_rules digitalRead pCT s in
  let s' := Loads.decide digitalRead pCT pCV s in
  Loads.on_at s i = false -> Loads.on_at s' i = true ->
  CountTime.flagDecide pCT = true /\
  Loads.lockSec_at s1 i = 0 /\
  F32.ltb (Loads.powerW_at s i) (Values.Margin pCV) = true /\
  (Loads.solarMode_at s1 i = true ->
   F32.ltb (Loads.powerW_at s i) (Values.PnFilt pCV) = true) /\
  Loads.rule1_index pCV s1 = None /\ Loads.rule2_index pCV s1 = None /\
  Loads.rule3_index pCV s1 = None /\
  (forall j, 0 <= j < i -> Loads.can_activate pCV s1 j = false) /\
  Loads.cause s' = (if Loads.solarMode_at s1 i then "enough excedent and margin"
                    else "enough margin")%string.
Proof.
  intros s1 s' Hoff Hon.
  destruct (decide_change_inv digitalRead pCT pCV s i) as (Hflag & b & Hk).
  { fold s'. congruence. }
  fold s1 in Hk. split; [done |].
  destruct (rule_taken_range _ _ _ _ Hk) as (_ & Hb).
  unfold s1 in Hb. rewrite at_rules_on_at, Hoff in Hb. destruct b; [| done].
  inversion Hk as [| | | H1 H2 H3 H4 E].
  destruct (rule4_index_inv _ _ _ H4) as (_ & Hc & Hbefore).
  apply can_activate_inv in Hc as (_ & Hlock & Hmargin & Hpn).
  unfold s1 in Hmargin, Hpn. rewrite at_rules_powerW_at in Hmargin, Hpn. fold s1 in Hpn.
  repeat match goal with |- _ /\ _ => split end; try done.
  subst s'. rewrite decide_unfold, Hflag. fold s1. rewrite E. cbn.
  by destruct (Loads.solarMode_at s1 i).
Qed.

Lemma load_switched_on_only_within_margin_witness :
  F32.ltb (Loads.powerW_at Scenes.two_loads_off 0) (Values.Margin Scenes.values_surplus)
  = true /\
  Loads.cause (Loads.decide Scenes.pins_high Samples.decide_tick Scenes.values_surplus
                 Scenes.two_loads_off)
  = "enough excedent and margin"%string.
Proof.
  destruct (load_switched_on_only_within_margin Scenes.pins_high Samples.decide_tick
              Scenes.values_surplus Scenes.two_loads_off 0)
    as (_ & _ & Hmargin & _ & _ & _ & _ & _ & Hcause).
  - reflexivity.
  - vm_compute. reflexivity.
  - split; [exact Hmargin | exact Hcause].
Defined.

(** X5.  [Loads::decide] switches a load off for one of three reasons only.
    Either the margin is exhausted ([Margin <= 0]) and the load is the
    lowest-priority load that is on; or the load is in solar mode and not
    locked, and then either the filtered excedent is not positive and the
    load is the lowest-priority load in solar mode, on and unlocked, or a
    load of higher priority is off, in solar mode and unlocked and 85% of
    the power of the load plus the excedent reaches the power of that load.
    A load in manual mode, or one that is locked, is therefore only switched
    off for lack of margin. *)
Theorem load_switched_off_for_three_reasons digitalRead pCT pCV s i :
  let s1 := Loads.at_rules digitalRead pCT s in
  let s' := Loads.decide digitalRead pCT pCV s in
  Loads.on_at s i = true -> Loads.on_at s' i = false ->
  CountTime.flagDecide pCT = true /\
  ((F32.leb (Values.Margin pCV) F32.zero = true /\ Loads.last_on s i /\
    Loads.cause s' = "no margin"%string) \/
   (Loads.solarMode_at s1 i = true /\ Loads.lockSec_at s1 i = 0 /\
    ((F32.leb (Values.PnFilt pCV) F32.zero = true /\ Loads.last_sheddable s1 i /\
      Loads.cause s' = "no excedent"%string) \/
     (exists h, 0 <= h < i /\ Loads.on_at s h = false /\
                Loads.solarMode_at s1 h = true /\ Loads.lockSec_at s1 h = 0 /\
                F32.geb (F32.add (F32.mul (Loads.powerW_at s i) Loads.POWER_REDUCTION_FACTOR)
                                 (Values.PnFilt pCV))
                        (Loads.powerW_at s h) = true /\
                Loads.cause s' = "priority inversion"%string)))).
Proof.
  intros s1 s' Hon Hoff.
  destruct (decide_change_inv digitalRead pCT pCV s i) as (Hflag & b & Hk).
  { fold s'. congruence. }
  fold s1 in Hk. split; [done |].
  destruct (rule_taken_range _ _ _ _ Hk) as (_ & Hb).
  unfold s1 in Hb. rewrite at_rules_on_at, Hon in Hb. destruct b; [done |].
  assert (Es : s' = Loads.decide_rules pCV s1).
  { subst s'. by rewrite decide_unfold, Hflag. }
  inversion Hk as [H1 E | H1 H2 E | H1 H2 H3 E |].
  - left. destruct (rule1_index_Some _ _ _ H1) as (Hm & Hlast).
    apply at_rules_last_on in Hlast. rewrite Es, E. done.
  - right. destruct (rule2_index_inv _ _ _ H2) as (Hpn & Hlast).
    pose proof Hlast as (_ & Hc & _). unfold Loads.sheddable in Hc.
    apply andb_prop in Hc as [Hc Hlock]. apply andb_prop in Hc as [Hsolar _].
    apply Z.eqb_eq in Hlock.
    split; [done |]. split; [done |]. left. rewrite Es, E. done.
  - right. destruct (rule3_index_inv _ _ _ H3) as (h & Hh & _ & Hoffh & Hsolarh & Hlockh & Hinv).
    apply inversion_inv in Hinv as (_ & Hsolar & Hlock & Hge).
    split; [done |]. split; [done |]. right. exists h.
    unfold s1 in Hoffh, Hge. rewrite at_rules_on_at in Hoffh.
    rewrite !at_rules_powerW_at in Hge.
    rewrite Es, E. done.
Qed.

Lemma load_switched_off_for_three_reasons_witness :
  CountTime.flagDecide Samples.decide_tick = true /\
  Loads.on_at (Loads.decide Scenes.pins_high Samples.decide_tick Scenes.values_deficit
                 Scenes.two_loads_free) 1 = false.
Proof.
  destruct (load_switched_off_for_three_reasons Scenes.pins_high Samples.decide_tick
              Scenes.values_deficit Scenes.two_loads_free 1) as (Hflag & _).
  - reflexivity.
  - vm_compute. reflexivity.
  - split; [exact Hflag | vm_compute; reflexivity].
Defined.

(** X6.  In a decide period with a positive margin ([Margin <= 0] is
    false) and a filtered excedent that is not positive, [Loads::decide]
    switches off the lowest-priority load that is in solar mode, on and not
    locked: its flag is raised, its lock counter takes its lock-off time, the
    cause is "no excedent" and every other load keeps its on/off state. *)
Theorem no_excedent_sheds_last_solar_load digitalRead pCT pCV s k :
  Loads.wf s ->
  CountTime.flagDecide pCT = true ->
  F32.leb (Values.Margin pCV) F32.zero = false ->
  F32.leb (Values.PnFilt pCV) F32.zero = true ->
  let s1 := Loads.at_rules digitalRead pCT s in
  let s' := Loads.decide digitalRead pCT pCV s in
  Loads.last_sheddable s1 k ->
  s' = Loads.switch_off k "no excedent" s1 /\
  Loads.on_at s k = true /\ Loads.on_at s' k = false /\
  Loads.flag_at s' k = true /\
  Loads.lockSec_at s' k = Loads.lockOffSec_at s k /\
  (forall j, j <> k -> Loads.on_at s' j = Loads.on_at s j).
Proof.
  intros Hwf Hflag Hmargin Hpn s1 s' Hlast.
  pose proof (at_rules_wf digitalRead pCT s Hwf) as Hwf1. fold s1 in Hwf1.
  assert (E : s' = Loads.switch_off k "no excedent" s1).
  { subst s'. rewrite decide_unfold, Hflag. fold s1. unfold Loads.decide_rules.
    unfold Loads.rule1_index. rewrite Hmargin.
    by rewrite (rule2_index_last_sheddable pCV s1 k). }
  split; [done |].
  destruct Hlast as (Hk & Hc & _). unfold Loads.sheddable in Hc.
  apply andb_prop in Hc as [Hc _]. apply andb_prop in Hc as [_ Hon].
  unfold s1 in Hon. rewrite at_rules_on_at in Hon. split; [done |].
  rewrite E. unfold Loads.switch_off.
  destruct (switch_at_self s1 k false (Loads.lockOffSec_at s1 k) "no excedent" Hwf1 Hk)
    as (-> & -> & ->).
  split; [done |]. split; [done |].
  split; [apply at_rules_lockOffSec_at |].
  intros j Hj.
  destruct (switch_at_other s1 k false (Loads.lockOffSec_at s1 k) "no excedent" j Hj)
    as (-> & _).
  apply at_rules_on_at.
Qed.

Lemma no_excedent_sheds_last_solar_load_witness :
  Loads.on_at (Loads.decide Scenes.pins_high Samples.decide_tick Scenes.values_deficit
                 Scenes.two_loads_free) 1 = false /\
  Loads.lockSec_at (Loads.decide Scenes.pins_high Samples.decide_tick
                      Scenes.values_deficit Scenes.two_loads_free) 1 = 120.
Proof.
  destruct (no_excedent_sheds_last_solar_load Scenes.pins_high Samples.decide_tick
              Scenes.values_deficit Scenes.two_loads_free 1)
    as (_ & _ & Hoff & _ & Hlock & _).
  - vm_compute. repeat split; (reflexivity || discriminate).
  - reflexivity.
  - reflexivity.
  - reflexivity.
  - split; [vm_compute; split; [discriminate | reflexivity] |].
    split; [reflexivity |].
    intros j Hj.
    change (Loads.nLoads (Loads.at_rules Scenes.pins_high Samples.decide_tick
                            Scenes.two_loads_free)) with 2 in Hj. lia.
  - split; [exact Hoff | exact Hlock].
Defined.
(** ** loads.h: a locked load keeps its state *)

Section DwellFacts.
Import Loads.
Variable digitalRead : Z -> level.

(** One call of [decide] on a load whose lock counter is above one: the
    rules see it locked, and only rule 1 could change it. *)
Lemma decide_locked_step pCT pCV s i :
  wf s -> 0 <= i < nLoads s ->
  1 < lockSec_at s i <= CInt.INT_MAX ->
  (on_at s i = true -> F32.leb (Values.Margin pCV) F32.zero = false) ->
  let s' := decide digitalRead pCT pCV s in
  on_at s' i = on_at s i /\
  lockSec_at s i - 1 <= lockSec_at s' i <= lockSec_at s i.
Proof.
  intros Hwf Hi Hlock Hmargin s'. subst s'. rewrite decide_unfold.
  set (s1 := at_rules digitalRead pCT s).
  assert (Hl1 : lockSec_at s i - 1 <= lockSec_at s1 i <= lockSec_at s i).
  { unfold s1, at_rules. destruct (CountTime.flagOneSec pCT); [| lia].
    rewrite every_second_lockSec_bounds; [| done | done |].
    - destruct (Z.gtb_spec (lockSec_at s i) 0); lia.
    - unfold CInt.is_int, CInt.INT_MIN, CInt.INT_MAX in *. lia. }
  assert (Hon1 : on_at s1 i = on_at s i) by apply at_rules_on_at.
  destruct (CountTime.flagDecide pCT); [| done].
  destruct (decide_rules_taken pCV s1) as [-> | (k & b & Hk)]; [done |].
  rewrite (rule_taken_state _ _ _ _ Hk).
  assert (Hne : i <> k).
  { intros <-.
    destruct (rule1_index pCV s1) as [k |] eqn:H1.
    - inversion Hk as [H1' _ | H1' | H1' | H1']; try congruence.
      assert (k = i) as -> by congruence.
      destruct (rule1_index_Some _ _ _ H1) as (Hm & _ & Hon & _).
      rewrite Hon1 in Hon. rewrite (Hmargin Hon) in Hm. done.
    - pose proof (rule_taken_unlocked _ _ _ _ Hk H1). lia. }
  destruct (switch_at_other s1 k b (if b then lockOnSec_at s1 k else lockOffSec_at s1 k)
              (cause (decide_rules pCV s1)) i Hne) as (-> & _ & ->).
  done.
Qed.

Lemma decide_all_cons c calls s :
  decide_all digitalRead (c :: calls) s
  = decide_all digitalRead calls (decide digitalRead (fst c) (snd c) s).
Proof. reflexivity. Qed.

End DwellFacts.

(** X7.  A load whose lock counter holds [n] seconds keeps its on/off
    state through the next [n - 1] calls of [Loads::decide] at least,
    whatever the scheduler flags and the measured powers of those calls;
    for a load that is on this holds as long as the margin is not exhausted
    ([Margin <= 0] false in every call), rule 1 being the one rule that
    overrides the lock. *)
Theorem locked_load_keeps_state digitalRead calls s i :
  Loads.wf s -> 0 <= i < Loads.nLoads s ->
  Z.of_nat (length calls) < Loads.lockSec_at s i <= CInt.INT_MAX ->
  (Loads.on_at s i = true ->
   Forall (fun c => F32.leb (Values.Margin (snd c)) F32.zero = false) calls) ->
  Loads.on_at (Loads.decide_all digitalRead calls s) i = Loads.on_at s i.
Proof.
  revert s. induction calls as [| c calls IH]; intros s Hwf Hi Hlock Hmargin; [done |].
  rewrite decide_all_cons. cbn [length] in Hlock.
  destruct (decide_locked_step digitalRead (fst c) (snd c) s i Hwf Hi) as (Hon & Hl); [lia | |].
  { intros H. specialize (Hmargin H). by apply Forall_cons in Hmargin as [? _]. }
  rewrite IH; [done | by apply decide_wf | | lia |].
  - destruct (decide_same_config digitalRead (fst c) (snd c) s) as (_ & -> & _). done.
  - rewrite Hon. intros H. specialize (Hmargin H). by apply Forall_cons in Hmargin as [_ ?].
Qed.

Lemma locked_load_keeps_state_witness :
  Loads.on_at
    (Loads.decide_all Samples.pins_low
       [(Samples.decide_tick, Scenes.values_deficit);
        (Samples.second_tick, Scenes.values_deficit);
        (Samples.decide_tick, Scenes.values_deficit)] Samples.two_loads_on) 1
  = true.
Proof.
  apply (locked_load_keeps_state Samples.pins_low
           [(Samples.decide_tick, Scenes.values_deficit);
            (Samples.second_tick, Scenes.values_deficit);
            (Samples.decide_tick, Scenes.values_deficit)] Samples.two_loads_on 1
           sample_two_loads_on_wf).
  - vm_compute. split; [discriminate | reflexivity].
  - vm_compute. split; [reflexivity | discriminate].
  - intros _. repeat constructor.
Defined.

(** ** loads.h: from the decision to the output *)

Section DispatchFacts.
Import Loads.

Lemma hardware_subset e out : e ∈ hardware out -> e ∈ out.
Proof. unfold hardware. intros H. apply list_elem_of_In in H. apply filter_In in H as [H _]. by apply list_elem_of_In. Qed.

Lemma activate_wf pCT pRD pCV s : wf s -> wf (fst (activate pCT pRD pCV s)).
Proof.
  intros Hwf. unfold activate.
  destruct (activate_loop pCT pRD pCV (indices (nLoads s)) s [] (NoDup_indices _))
    as (((C1 & C2 & C3 & C4 & C5 & C6 & C7 & C8 & C9 & C10) & (D1 & D2 & D3 & _) & Hlen)
        & _).
  { intros i Hi%elem_of_indices.
    destruct (wf_lengths s Hwf i) as (_ & _ & _ & _ & _ & _ & _ & _ & _ & L & _).
    - unfold wf in Hwf. lia.
    - split; [lia | done]. }
  unfold wf. rewrite C1, C2, C3, C4, C5, C6, C7, C8, C9, C10, D1, D2, D3, Hlen. exact Hwf.
Qed.

(** The pin of a flagged load is written by [activate]. *)
Lemma activate_writes_flagged pCT pRD pCV s i :
  wf s -> 0 <= i < nLoads s -> flag_at s i = true -> gpioOut_at s i <> -1 ->
  EvDigitalWrite (gpioOut_at s i) (level_of (on_at s i)) ∈ snd (activate pCT pRD pCV s) /\
  flag_at (fst (activate pCT pRD pCV s)) i = false /\
  on_at (fst (activate pCT pRD pCV s)) i = on_at s i.
Proof.
  intros Hwf Hi Hflag Hpin. unfold activate.
  destruct (activate_loop pCT pRD pCV (indices (nLoads s)) s [] (NoDup_indices _))
    as ((_ & (Hon & _) & _) & Hcleared & _ & Hhw).
  { intros j Hj%elem_of_indices.
    destruct (wf_lengths s Hwf j) as (_ & _ & _ & _ & _ & _ & _ & _ & _ & L & _).
    - unfold wf in Hwf. lia.
    - split; [lia | done]. }
  split; [| split].
  - apply hardware_subset. rewrite Hhw. cbn [hardware List.filter app].
    apply list_elem_of_In, in_concat. exists (emitted pCT pRD s i).
    split; [by apply in_map, list_elem_of_In, elem_of_indices |].
    apply list_elem_of_In.
    unfold emitted. rewrite Hflag. cbn [orb]. unfold apply_load.
    apply elem_of_app. left.
    destruct (Z.eqb_spec (gpioOut_at s i) (-1)); [done |]. apply elem_of_cons. by left.
  - apply Hcleared. by apply elem_of_indices.
  - unfold on_at. by rewrite Hon.
Qed.

End DispatchFacts.

(** X8.  A change decided by [Loads::decide] reaches the output pin in the
    next call of [Loads::activate]: when the on/off state of a load with an
    output pin ([gpioOut] other than -1) was changed, [activate] writes the
    new state to that pin (HIGH for on, LOW for off), whatever the scheduler
    flags of that call, clears the flag of the load and leaves its state. *)
Theorem decided_change_is_written_to_pin digitalRead pCT pCV pCT2 pRD pCV2 s i :
  Loads.wf s ->
  let s' := Loads.decide digitalRead pCT pCV s in
  let r := Loads.activate pCT2 pRD pCV2 s' in
  Loads.on_at s' i <> Loads.on_at s i ->
  Loads.gpioOut_at s i <> -1 ->
  EvDigitalWrite (Loads.gpioOut_at s i) (Loads.level_of (Loads.on_at s' i)) ∈ snd r /\
  Loads.flag_at (fst r) i = false /\
  Loads.on_at (fst r) i = Loads.on_at s' i.
Proof.
  intros Hwf s' r Hchg Hpin. subst r.
  destruct (decide_change_inv digitalRead pCT pCV s i Hchg) as (Hflag & b & Hk).
  pose proof (decide_wf digitalRead pCT pCV s Hwf) as Hwf'. fold s' in Hwf'.
  pose proof (decide_same_config digitalRead pCT pCV s) as Hcfg. fold s' in Hcfg.
  assert (Hn : Loads.nLoads s' = Loads.nLoads s) by apply Hcfg.
  assert (Hout : Loads.gpioOut_at s' i = Loads.gpioOut_at s i).
  { unfold Loads.gpioOut_at. by destruct Hcfg as (_ & _ & _ & _ & _ & _ & -> & _). }
  pose proof (at_rules_wf digitalRead pCT s Hwf) as Hwf1.
  destruct (rule_taken_range _ _ _ _ Hk) as (Hi & _). rewrite at_rules_nLoads in Hi.
  assert (Hf : Loads.flag_at s' i = true).
  { subst s'. rewrite decide_unfold, Hflag, (rule_taken_state _ _ _ _ Hk).
    apply switch_at_self; [done | by rewrite at_rules_nLoads]. }
  rewrite <- Hout.
  apply activate_writes_flagged; [done | lia | done | by rewrite Hout].
Qed.

Lemma decided_change_is_written_to_pin_witness :
  EvDigitalWrite 8 LOW
    ∈ snd (Loads.activate Samples.decide_tick {| Radio.gpioRadio := 4 |}
             Samples.values_overload
             (Loads.decide Samples.pins_low Samples.decide_tick Samples.values_overload
                Samples.two_loads_on)).
Proof.
  destruct (decided_change_is_written_to_pin Samples.pins_low Samples.decide_tick
              Samples.values_overload Samples.decide_tick {| Radio.gpioRadio := 4 |}
              Samples.values_overload Samples.two_loads_on 1 sample_two_loads_on_wf)
    as (H & _).
  - vm_compute. discriminate.
  - vm_compute. discriminate.
  - exact H.
Defined.

(** X9.  The registry stays well formed and configured as it was: a call
    of [Loads::add], [Loads::decide] or [Loads::activate] on a registry whose
    arrays have the capacity of three and whose count is within it leaves
    such a registry, and [decide] and [activate] change neither the count nor
    any configuration field of any load. *)
Theorem registry_stays_well_formed digitalRead r pCT pRD pCV s :
  Loads.wf s ->
  Loads.wf (snd (fst (Loads.add_reg digitalRead r s))) /\
  Loads.wf (Loads.decide digitalRead pCT pCV s) /\
  Loads.wf (fst (Loads.activate pCT pRD pCV s)) /\
  Loads.same_config s (Loads.decide digitalRead pCT pCV s) /\
  Loads.same_config s (fst (Loads.activate pCT pRD pCV s)).
Proof.
  intros Hwf. split; [| split; [| split; [| split]]].
  - destruct (Z_lt_le_dec (Loads.nLoads s) Loads.N_LOADS_MAX) as [Hfree | Hfull].
    + by apply add_reg_free.
    + rewrite add_reg_full; [done |]. destruct Hwf as (-> & _). lia.
  - by apply decide_wf.
  - by apply activate_wf.
  - apply decide_same_config.
  - unfold Loads.activate.
    destruct (activate_loop pCT pRD pCV (indices (Loads.nLoads s)) s [] (NoDup_indices _))
      as ((Hc & _) & _); [| done].
    intros i Hi%elem_of_indices.
    destruct (wf_lengths s Hwf i) as (_ & _ & _ & _ & _ & _ & _ & _ & _ & L & _).
    + unfold Loads.wf in Hwf. lia.
    + split; [lia | done].
Qed.

Lemma registry_stays_well_formed_witness :
  Loads.wf (Loads.decide Samples.pins_low Samples.decide_tick Samples.values_overload
              Samples.two_loads_on).
Proof.
  destruct (registry_stays_well_formed Samples.pins_low Scenes.boiler Samples.decide_tick
              {| Radio.gpioRadio := 4 |} Samples.values_overload Samples.two_loads_on
              sample_two_loads_on_wf) as (_ & H & _).
  exact H.
Defined.
(** ** countTime.h: the clock and the decide period *)

Section ClockFacts.
Import CInt CountTime.

Lemma run_snoc rs r c : run (rs ++ [r]) c = update_with r (run rs c).
Proof. unfold run. by rewrite fold_left_app. Qed.

Lemma seconds_counted_snoc rs : forall r c,
  seconds_counted (rs ++ [r]) c
  = seconds_counted rs c + (if flagOneSec (update_with r (run rs c)) then 1 else 0).
Proof.
  induction rs as [| a rs IH]; intros r c; cbn [app seconds_counted].
  - unfold run. cbn. lia.
  - rewrite IH. unfold run. cbn [fold_left]. lia.
Qed.

Lemma seconds_counted_nonneg rs : forall c, 0 <= seconds_counted rs c.
Proof.
  induction rs as [| a rs IH]; intros c; cbn [seconds_counted]; [lia |].
  specialize (IH (update_with a c)). destruct (flagOneSec (update_with a c)); lia.
Qed.

(** What one call does, by the test of the elapsed second. *)
Lemma update_idle now_us now_ms rnd c :
  ulong (now_ms - lastTime c) < 1000 ->
  let c' := update now_us now_ms rnd c in
  flagOneSec c' = false /\ flagDecide c' = false /\ flagRefresh c' = false /\
  lastTime c' = lastTime c /\
  hours c' = hours c /\ minutes c' = minutes c /\ seconds c' = seconds c /\
  hhmmss c' = hhmmss c /\
  decidePeriod_s c' = decidePeriod_s c /\ countDecide_s c' = countDecide_s c /\
  countRefresh_s c' = countRefresh_s c.
Proof.
  intros H. unfold update.
  destruct (Z.ltb_spec (ulong (now_ms - lastTime c)) 1000); [| lia]. cbn. done.
Qed.

Lemma update_second now_us now_ms rnd c :
  1000 <= ulong (now_ms - lastTime c) ->
  let c' := update now_us now_ms rnd c in
  flagOneSec c' = true /\
  lastTime c' = ulong (lastTime c + 1000) /\
  (hours c', minutes c', seconds c') = tick (hours c) (minutes c) (seconds c) /\
  hhmmss c' = fmt_hhmmss (hours c') (minutes c') (seconds c') /\
  decidePeriod_s c' = decidePeriod_s c /\
  (countDecide_s c', flagDecide c') = step_decide c /\
  (countRefresh_s c', flagRefresh c') = step_refresh rnd c.
Proof.
  intros H. unfold update.
  destruct (Z.ltb_spec (ulong (now_ms - lastTime c)) 1000); [lia |].
  destruct (tick _ _ _) as [[h m] s].
  destruct (step_decide c) as [cd fd]. destruct (step_refresh rnd c) as [cr fr].
  cbn. done.
Qed.

(** The clock after one more second. *)
Lemma tick_clock h m s :
  0 <= s < 60 -> 0 <= m < 60 -> 0 <= h -> h * 3600 + m * 60 + s + 1 < 32768 * 3600 ->
  let '(h', m', s') := tick h m s in
  0 <= s' < 60 /\ 0 <= m' < 60 /\ 0 <= h' <= INT_MAX /\
  h' * 3600 + m' * 60 + s' = h * 3600 + m * 60 + s + 1.
Proof.
  intros Hs Hm Hh Hlim. unfold tick.
  rewrite (int_id (s + 1)) by (unfold is_int, INT_MIN, INT_MAX; lia).
  destruct (Z.geb_spec (s + 1) 60) as [Hs60 | Hs60].
  - rewrite (int_id (m + 1)) by (unfold is_int, INT_MIN, INT_MAX; lia).
    destruct (Z.geb_spec (m + 1) 60) as [Hm60 | Hm60].
    + rewrite (int_id (h + 1)) by (unfold is_int, INT_MIN, INT_MAX; lia).
      unfold INT_MAX. lia.
    + unfold INT_MAX. lia.
  - unfold INT_MAX. lia.
Qed.

Lemma update_with_cases r c :
  let c' := update_with r c in
  (flagOneSec c' = false /\ lastTime c' = lastTime c /\
   hours c' = hours c /\ minutes c' = minutes c /\ seconds c' = seconds c /\
   decidePeriod_s c' = decidePeriod_s c /\ countDecide_s c' = countDecide_s c /\
   flagDecide c' = false) \/
  (flagOneSec c' = true /\ lastTime c' = ulong (lastTime c + 1000) /\
   (hours c', minutes c', seconds c') = tick (hours c) (minutes c) (seconds c) /\
   decidePeriod_s c' = decidePeriod_s c /\
   (countDecide_s c', flagDecide c') = step_decide c).
Proof.
  unfold update_with.
  destruct (Z_lt_le_dec (ulong (now_ms r - lastTime c)) 1000) as [H | H].
  - left. destruct (update_idle (now_us r) (now_ms r) (rnd r) c H)
      as (H1 & H2 & _ & H4 & H5 & H6 & H7 & _ & H9 & H10 & _). done.
  - right. destruct (update_second (now_us r) (now_ms r) (rnd r) c H)
      as (H1 & H2 & H3 & _ & H5 & H6 & _). done.
Qed.

Lemma run_clock rs : forall c,
  clock_ok c -> 0 <= lastTime c < 2 ^ 32 ->
  clock_s c + seconds_counted rs c < 32768 * 3600 ->
  clock_ok (run rs c) /\
  clock_s (run rs c) = clock_s c + seconds_counted rs c /\
  lastTime (run rs c) = ulong (lastTime c + 1000 * seconds_counted rs c).
Proof.
  induction rs as [| r rs IH]; intros c Hok Hlast0 Hlim.
  { cbn. split; [done |]. split; [lia |].
    unfold ulong. rewrite Z.add_0_r, Z.mod_small; done. }
  cbn [seconds_counted] in *. unfold run. cbn [fold_left]. fold (run rs (update_with r c)).
  pose proof (seconds_counted_nonneg rs (update_with r c)) as Hnn.
  set (c1 := update_with r c) in *.
  destruct (update_with_cases r c) as [(Hf & Hlast & Hh & Hm & Hs & _) | (Hf & Hlast & Htick & _)];
    fold c1 in Hf, Hlast; rewrite Hf in *.
  - fold c1 in Hh, Hm, Hs.
    destruct (IH c1) as (Hok' & Hclock & Hlast').
    { unfold clock_ok. rewrite Hh, Hm, Hs. exact Hok. }
    { by rewrite Hlast. }
    { unfold clock_s in *. rewrite Hh, Hm, Hs. lia. }
    split; [done |]. rewrite Hclock, Hlast', Hlast. unfold clock_s. rewrite Hh, Hm, Hs.
    split; [lia | done].
  - fold c1 in Htick.
    destruct Hok as (Hs & Hm & Hh).
    pose proof (tick_clock (hours c) (minutes c) (seconds c) Hs Hm ltac:(lia)) as Ht.
    rewrite <- Htick in Ht.
    destruct Ht as (Hs' & Hm' & Hh' & Hsum); [unfold clock_s in Hlim; lia |].
    destruct (IH c1) as (Hok' & Hclock & Hlast').
    { done. }
    { rewrite Hlast. unfold ulong. apply Z.mod_pos_bound. lia. }
    { unfold clock_s in *. lia. }
    split; [done |]. rewrite Hclock, Hlast', Hlast. unfold clock_s in *.
    split; [lia |]. unfold ulong. rewrite Zplus_mod_idemp_l. f_equal. lia.
Qed.

(** The decide countdown after one more second. *)
Lemma step_decide_period c p n :
  1 <= p <= INT_MAX -> 0 <= n ->
  decidePeriod_s c = p -> countDecide_s c = p - n mod p ->
  fst (step_decide c) = p - (n + 1) mod p /\
  (snd (step_decide c) = true <-> (n + 1) mod p = 0).
Proof.
  intros Hp Hn Hper Hcount. unfold step_decide.
  pose proof (Z.mod_pos_bound n p ltac:(lia)) as Hr.
  rewrite int_id by (unfold is_int, INT_MIN, INT_MAX in *; lia).
  assert (Hmod : (n + 1) mod p = if n mod p + 1 =? p then 0 else n mod p + 1).
  { destruct (Z.eqb_spec (n mod p + 1) p) as [E | E].
    - symmetry. apply (Z.mod_unique_pos _ _ (n / p + 1)); [lia |].
      pose proof (Z.div_mod n p ltac:(lia)). lia.
    - symmetry. apply (Z.mod_unique_pos _ _ (n / p)); [lia |].
      pose proof (Z.div_mod n p ltac:(lia)). lia. }
  rewrite Hmod.
  destruct (Z.leb_spec (countDecide_s c - 1) 0) as [Hle | Hgt]; cbn [fst snd].
  - destruct (Z.eqb_spec (n mod p + 1) p); [split; [lia | done] | lia].
  - destruct (Z.eqb_spec (n mod p + 1) p); [lia |]. split; [lia |]. split; [done | lia].
Qed.

Lemma run_decide_countdown p rs : forall c,
  1 <= p <= INT_MAX -> decidePeriod_s c = p -> countDecide_s c = p ->
  decidePeriod_s (run rs c) = p /\
  countDecide_s (run rs c) = p - seconds_counted rs c mod p.
Proof.
  induction rs as [| r rs IH] using rev_ind; intros c Hp Hper Hcount.
  { cbn. rewrite Z.mod_0_l by lia. split; [done | lia]. }
  rewrite run_snoc, seconds_counted_snoc.
  destruct (IH c Hp Hper Hcount) as (Hper' & Hcount').
  pose proof (seconds_counted_nonneg rs c) as Hnn.
  set (c1 := run rs c) in *. set (n := seconds_counted rs c) in *.
  destruct (update_with_cases r c1)
    as [(Hf & _ & _ & _ & _ & Hd & Hc & _) | (Hf & _ & _ & Hd & Hstep)]; rewrite Hf.
  - rewrite Hd, Hc, Z.add_0_r. done.
  - destruct (step_decide_period c1 p n Hp Hnn Hper' Hcount') as (H1 & _).
    rewrite <- Hstep in H1. cbn [fst] in H1. rewrite Hd. done.
Qed.

End ClockFacts.

(** X10.  The clock of [CountTime] counts the elapsed seconds it was told
    of: started at 0:00:00, after any sequence of calls of [update] the
    seconds and minutes lie in 0 to 59, the time shown is the number of calls
    in which a second was counted, and [lastTime] has advanced by exactly
    1000 ms for each of them (modulo 2^32), however late the calls were
    made.  This holds as long as the hours fit an [int], that is for fewer
    than 32768 hours. *)
Theorem clock_shows_seconds_counted rs c :
  CountTime.hours c = 0 -> CountTime.minutes c = 0 -> CountTime.seconds c = 0 ->
  0 <= CountTime.lastTime c < 2 ^ 32 ->
  CountTime.seconds_counted rs c < 32768 * 3600 ->
  let c' := CountTime.run rs c in
  0 <= CountTime.seconds c' < 60 /\ 0 <= CountTime.minutes c' < 60 /\
  0 <= CountTime.hours c' < 32768 /\
  CountTime.hours c' * 3600 + CountTime.minutes c' * 60 + CountTime.seconds c'
  = CountTime.seconds_counted rs c /\
  CountTime.lastTime c'
  = CInt.ulong (CountTime.lastTime c + 1000 * CountTime.seconds_counted rs c).
Proof.
  intros Hh Hm Hs Hlast Hlim c'.
  destruct (run_clock rs c) as ((Hs' & Hm' & Hh') & Hclock & Hlast').
  - unfold CountTime.clock_ok, CInt.INT_MAX. rewrite Hh, Hm, Hs. lia.
  - done.
  - unfold CountTime.clock_s. rewrite Hh, Hm, Hs. lia.
  - fold c' in Hs', Hm', Hh', Hclock, Hlast'.
    unfold CountTime.clock_s in Hclock. rewrite Hh, Hm, Hs in Hclock.
    unfold CInt.INT_MAX in Hh'. repeat split; (done || lia).
Qed.

(** X11.  The decide flag is raised once every [decidePeriod_s] counted
    seconds.  Started with the countdown at the period [p >= 1], after any
    sequence of calls of [update] the countdown holds [p - n mod p], [n]
    being the number of seconds counted so far, and a call raises
    [flagDecide] exactly when it counts a second that makes [n] a multiple
    of [p]. *)
Theorem decide_flag_every_period p rs r c :
  1 <= p <= CInt.INT_MAX ->
  CountTime.decidePeriod_s c = p -> CountTime.countDecide_s c = p ->
  let c' := CountTime.run (rs ++ [r]) c in
  let n := CountTime.seconds_counted (rs ++ [r]) c in
  CountTime.countDecide_s c' = p - n mod p /\
  (CountTime.flagDecide c' = true <->
   CountTime.flagOneSec c' = true /\ n mod p = 0).
Proof.
  intros Hp Hper Hcount c' n.
  destruct (run_decide_countdown p (rs ++ [r]) c Hp Hper Hcount) as (_ & Hc).
  split; [exact Hc |].
  subst c' n. rewrite run_snoc, seconds_counted_snoc.
  destruct (run_decide_countdown p rs c Hp Hper Hcount) as (Hper1 & Hc1).
  pose proof (seconds_counted_nonneg rs c) as Hnn.
  set (c1 := CountTime.run rs c) in *. set (n := CountTime.seconds_counted rs c) in *.
  destruct (update_with_cases r c1)
    as [(Hf & _ & _ & _ & _ & _ & _ & Hfd) | (Hf & _ & _ & _ & Hstep)]; rewrite Hf.
  - rewrite Hfd. split; [done | by intros []].
  - destruct (step_decide_period c1 p n Hp Hnn Hper1 Hc1) as (_ & H2).
    rewrite <- Hstep in H2. cbn [snd] in H2. rewrite H2. tauto.
Qed.

Lemma clock_shows_seconds_counted_witness :
  CountTime.hours (CountTime.run (Scenes.loop_readings ++ [Scenes.late_reading])
                     Scenes.clock_started) * 3600
  + CountTime.minutes (CountTime.run (Scenes.loop_readings ++ [Scenes.late_reading])
                         Scenes.clock_started) * 60
  + CountTime.seconds (CountTime.run (Scenes.loop_readings ++ [Scenes.late_reading])
                         Scenes.clock_started)
  = 2.
Proof.
  destruct (clock_shows_seconds_counted (Scenes.loop_readings ++ [Scenes.late_reading])
              Scenes.clock_started eq_refl eq_refl eq_refl)
    as (_ & _ & _ & H & _).
  - vm_compute. split; [discriminate | reflexivity].
  - reflexivity.
  - exact H.
Defined.

Lemma decide_flag_every_period_witness :
  CountTime.countDecide_s (CountTime.run (Scenes.loop_readings ++ [Scenes.late_reading])
                             Scenes.clock_started) = 2 /\
  CountTime.flagDecide (CountTime.run (Scenes.loop_readings ++ [Scenes.late_reading])
                          Scenes.clock_started) = true.
Proof.
  destruct (decide_flag_every_period 2 Scenes.loop_readings Scenes.late_reading
              Scenes.clock_started) as (Hcount & Hflag).
  - vm_compute. split; discriminate.
  - reflexivity.
  - reflexivity.
  - split; [exact Hcount |]. apply Hflag. split; reflexivity.
Defined.

(** X13.  The tests of [CountTime::update] on the readings of [millis()]
    and [micros()] are not disturbed when these counters wrap around at
    2^32: if [d] milliseconds have really passed since [lastTime] and [u]
    microseconds since the previous call (both below 2^32), then the call
    counts a second exactly when [d >= 1000], the decide and refresh flags
    are only raised in that case, and the recorded loop time is [u]. *)
Theorem second_test_survives_rollover u d rnd c :
  0 <= CountTime.lastTime c < 2 ^ 32 -> 0 <= d < 2 ^ 32 ->
  0 <= CountTime.prevLoopStart_us c < 2 ^ 32 -> 0 <= u < 2 ^ 32 ->
  let c' := CountTime.update (CInt.ulong (CountTime.prevLoopStart_us c + u))
                             (CInt.ulong (CountTime.lastTime c + d)) rnd c in
  CountTime.flagOneSec c' = (1000 <=? d) /\
  (CountTime.flagDecide c' = true -> 1000 <= d) /\
  (CountTime.flagRefresh c' = true -> 1000 <= d) /\
  CountTime.loopTime_us c' = u /\
  CountTime.prevLoopStart_us c' = CInt.ulong (CountTime.prevLoopStart_us c + u).
Proof.
  intros Hlast Hd Hprev Hu c'.
  assert (Hms : CInt.ulong (CInt.ulong (CountTime.lastTime c + d) - CountTime.lastTime c) = d).
  { unfold CInt.ulong. rewrite Zminus_mod_idemp_l.
    replace (CountTime.lastTime c + d - CountTime.lastTime c) with d by lia.
    by apply Z.mod_small. }
  assert (Hus : CInt.ulong (CInt.ulong (CountTime.prevLoopStart_us c + u)
                            - CountTime.prevLoopStart_us c) = u).
  { unfold CInt.ulong. rewrite Zminus_mod_idemp_l.
    replace (CountTime.prevLoopStart_us c + u - CountTime.prevLoopStart_us c) with u by lia.
    by apply Z.mod_small. }
  subst c'. unfold CountTime.update. rewrite Hms, Hus.
  destruct (Z.ltb_spec d 1000) as [Hlt | Hge].
  - cbn. destruct (Z.leb_spec 1000 d); [lia |]. done.
  - destruct (CountTime.tick _ _ _) as [[h m] s].
    destruct (CountTime.step_decide c) as [cd fd].
    destruct (CountTime.step_refresh rnd c) as [cr fr]. cbn.
    destruct (Z.leb_spec 1000 d); [| lia]. done.
Qed.

Lemma second_test_survives_rollover_witness :
  CountTime.flagOneSec (CountTime.update 0 600 7 Scenes.clock_before_rollover) = true.
Proof.
  destruct (second_test_survives_rollover 0 1100 7 Scenes.clock_before_rollover)
    as (H & _).
  - vm_compute. split; [discriminate | reflexivity].
  - lia.
  - vm_compute. split; [discriminate | reflexivity].
  - lia.
  - exact H.
Defined.

(** ** radio.h: the transmission of a code *)

Section TransmissionFacts.
Import Radio.
Variable r : t.

Lemma duration_us_app out1 out2 :
  duration_us (out1 ++ out2) = duration_us out1 + duration_us out2.
Proof.
  unfold duration_us.
  induction out1 as [| e out1 IH]; cbn [app fold_right]; [done | rewrite IH; lia].
Qed.

(** A bit takes 1854 or 1855 microseconds and ends with the pin LOW. *)
Lemma send_bit_shape c :
  Forall (keys_pin (gpioRadio r)) (send_bit r c) /\
  length (send_bit r c) = 2%nat /\
  1854 <= duration_us (send_bit r c) <= 1855.
Proof.
  unfold send_bit. destruct (Ascii.eqb c "0").
  - split; [repeat constructor |]. split; [done |].
    cbv [duration_us fold_right event_us HIGH_SHORT_US LOW_LONG_US]. lia.
  - split; [repeat constructor |]. split; [done |].
    cbv [duration_us fold_right event_us HIGH_LONG_US LOW_SHORT_US]. lia.
Qed.

Lemma send_bits_shape bits :
  let out := concat (map (send_bit r) bits) in
  Forall (keys_pin (gpioRadio r)) out /\
  length out = (2 * length bits)%nat /\
  1854 * Z.of_nat (length bits) <= duration_us out <= 1855 * Z.of_nat (length bits).
Proof.
  induction bits as [| c bits IH]; cbn zeta in *; cbn [map concat length].
  { split; [constructor |]. split; [done |]. cbn. lia. }
  destruct IH as (IH1 & IH2 & IH3).
  destruct (send_bit_shape c) as (H1 & H2 & H3).
  split; [by apply Forall_app |].
  rewrite length_app, duration_us_app, H2, IH2. split; lia.
Qed.

Lemma send_code_shape code :
  let n := Z.of_nat (String.length code) in
  Forall (keys_pin (gpioRadio r)) (send_code r code) /\
  Z.of_nat (length (send_code r code)) = 1 + 2 * n /\
  7000 + 1854 * n <= duration_us (send_code r code) <= 7000 + 1855 * n.
Proof.
  intros n. unfold send_code.
  destruct (send_bits_shape (list_ascii_of_string code)) as (H1 & H2 & H3).
  assert (Hlen : length (list_ascii_of_string code) = String.length code).
  { clear. induction code as [| c code IH]; cbn; [done | by rewrite IH]. }
  rewrite Hlen in H2, H3. fold n in H3.
  split; [constructor; [done | exact H1] |].
  cbn [length]. rewrite H2.
  change (duration_us (EvWait WAIT_REPEAT_US :: ?l)) with (WAIT_REPEAT_US + duration_us l).
  unfold WAIT_REPEAT_US. split; lia.
Qed.

Lemma repeat_shape (k : nat) code :
  let n := Z.of_nat (String.length code) in
  let out := concat (replicate k (send_code r code)) in
  Forall (keys_pin (gpioRadio r)) out /\
  Z.of_nat (length out) = Z.of_nat k * (1 + 2 * n) /\
  Z.of_nat k * (7000 + 1854 * n) <= duration_us out <= Z.of_nat k * (7000 + 1855 * n).
Proof.
  intros n. destruct (send_code_shape code) as (H1 & H2 & H3). fold n in H2, H3.
  induction k as [| k IH]; cbn zeta in *; cbn [replicate concat].
  { split; [constructor |]. cbn. lia. }
  destruct IH as (IH1 & IH2 & IH3).
  split; [by apply Forall_app |].
  rewrite length_app, duration_us_app. split; lia.
Qed.

(** Every code of the table has 33 bits. *)
Lemma code_of_length channel setToOn :
  0 <= channel < N_CHANNELS -> String.length (code_of channel setToOn) = 33%nat.
Proof.
  unfold N_CHANNELS. intros H.
  assert (channel = 0 \/ channel = 1 \/ channel = 2) as [-> | [-> | ->]] by lia;
    by destruct setToOn.
Qed.

Lemma sendGmomxen_last channel setToOn :
  1 <= channel <= N_CHANNELS ->
  exists d, last (snd (sendGmomxen r channel setToOn)) = Some (EvPulse (gpioRadio r) LOW d).
Proof.
  unfold N_CHANNELS. intros H.
  assert (channel = 1 \/ channel = 2 \/ channel = 3) as [-> | [-> | ->]] by lia;
    destruct setToOn; eexists; vm_compute; reflexivity.
Qed.

End TransmissionFacts.

(** X12.  [Radio::sendGmomxen] transmits on channels 1 to 3 only.  For any
    other channel it returns -2 and leaves the transmitter alone.  For a
    channel in range it sends the 33-bit code five times, each repetition
    after a wait of 7000 microseconds: 335 operations in all, every pulse on
    the pin of the transmitter, the pin left LOW at the end, and programmed
    durations that add up to between 340910 and 341075 microseconds, during
    which the call does not return. *)
Theorem gmomxen_transmission_shape r channel setToOn :
  let res := Radio.sendGmomxen r channel setToOn in
  if (1 <=? channel) && (channel <=? Radio.N_CHANNELS) then
    fst res = None /\
    length (snd res) = 335%nat /\
    Forall (Radio.keys_pin (Radio.gpioRadio r)) (snd res) /\
    (exists d, last (snd res) = Some (EvPulse (Radio.gpioRadio r) LOW d)) /\
    340910 <= Radio.duration_us (snd res) <= 341075
  else res = (Some (-2), []).
Proof.
  intros res. subst res.
  destruct (Z.leb_spec 1 channel) as [H1 | H1];
    destruct (Z.leb_spec channel Radio.N_CHANNELS) as [H2 | H2]; cbn [andb].
  - pose proof (sendGmomxen_last r channel setToOn (conj H1 H2)) as Hlast.
    unfold Radio.sendGmomxen in *.
    destruct (Z.ltb_spec channel 1); [lia |].
    destruct (Z.gtb_spec channel Radio.N_CHANNELS); [lia |]. cbn [orb fst snd] in *.
    destruct (repeat_shape r Radio.NUM_REPEATS (Radio.code_of (channel - 1) setToOn))
      as (Hpin & Hlen & Hdur).
    rewrite code_of_length in Hlen, Hdur by lia.
    unfold Radio.NUM_REPEATS in *.
    split; [done |]. split; [lia |]. split; [done |]. split; [done | lia].
  - unfold Radio.sendGmomxen.
    destruct (Z.gtb_spec channel Radio.N_CHANNELS); [| lia]. by rewrite orb_true_r.
  - unfold Radio.sendGmomxen. destruct (Z.ltb_spec channel 1); [done | lia].
  - unfold Radio.sendGmomxen. destruct (Z.ltb_spec channel 1); [done | lia].
Qed.
(** ** measure.h: sampling one cycle *)

Section FillFacts.
Import Measure.
Variable f : Z -> Z.

Lemma fill_steps_length l : forall a,
  length (fold_left (fun a i => set a i (f i)) l a) = length a.
Proof.
  induction l as [| x l IH]; intros a; [done |].
  cbn [fold_left]. by rewrite IH, length_set.
Qed.

Lemma fill_steps_other l : forall a i,
  i ∉ l -> get 0 (fold_left (fun a i => set a i (f i)) l a) i = get 0 a i.
Proof.
  induction l as [| x l IH]; intros a i Hi; [done |].
  apply not_elem_of_cons in Hi as [Hne Hi].
  cbn [fold_left]. rewrite IH by done. apply get_set_ne. congruence.
Qed.

Lemma fill_steps_in l : forall a i,
  i ∈ l -> 0 <= i -> (Z.to_nat i < length a)%nat ->
  get 0 (fold_left (fun a i => set a i (f i)) l a) i = f i.
Proof.
  induction l as [| x l IH]; intros a i Hi H0 Hlen; [by apply elem_of_nil in Hi |].
  cbn [fold_left].
  destruct (base.decide (i ∈ l)) as [Hin | Hnot].
  - apply IH; [done | done | by rewrite length_set].
  - apply elem_of_cons in Hi as [-> | Hin]; [| done].
    rewrite fill_steps_other by done. by apply get_set_eq.
Qed.

Lemma length_fill n a : length (fill n f a) = length a.
Proof. apply fill_steps_length. Qed.

Lemma sample_fill n a i :
  0 <= i < n -> (Z.to_nat i < length a)%nat -> sample (fill n f a) i = f i.
Proof.
  intros Hi Hlen. unfold sample, fill.
  apply fill_steps_in; [by apply elem_of_indices | lia | done].
Qed.

End FillFacts.

Section SamplingFacts.
Import Measure.

Lemma constrain_range amt low high :
  low <= high -> low <= constrain amt low high <= high.
Proof.
  intros H. unfold constrain.
  destruct (Z.ltb_spec amt low); [lia |]. destruct (Z.gtb_spec amt high); lia.
Qed.

(** A simulated input is a reading of the converter. *)
Lemma simulated_range sine1000 n ValV0 Ampl Shift i :
  0 <= simulated sine1000 n ValV0 Ampl Shift i <= ADC_RESOLUTION_STEPS.
Proof.
  unfold simulated. cbn zeta.
  set (x := CInt.long _).
  pose proof (constrain_range x 0 ADC_RESOLUTION_STEPS) as H.
  unfold ADC_RESOLUTION_STEPS in *. specialize (H ltac:(lia)).
  rewrite int_id; [done |].
  unfold CInt.is_int, CInt.INT_MIN, CInt.INT_MAX. lia.
Qed.

Lemma getCycle_wf sm sine1000 io cm : wf cm -> wf (getCycle sm sine1000 io cm).
Proof.
  unfold wf. cbn. rewrite !length_fill. done.
Qed.

Lemma wf_sample_index cm i :
  wf cm -> 0 <= i < numSamples cm ->
  (Z.to_nat i < length (V0 cm))%nat /\ (Z.to_nat i < length (Vx cm))%nat /\
  (Z.to_nat i < length (Ig cm))%nat /\ (Z.to_nat i < length (Ic cm))%nat /\
  (Z.to_nat i < length (samplingUs cm))%nat.
Proof.
  unfold wf, SAMPLES_PER_CYCLE. intros (Hn & -> & -> & -> & -> & ->) Hi.
  repeat split; lia.
Qed.

End SamplingFacts.

(** X14.  In the simulation of the analog inputs, [Measure::getCycle]
    stores only readings that the converter could give for the three
    signals: every simulated sample of the voltage and of the two currents
    lies in 0 to 1024 counts, whatever the amplitudes, phase shifts and
    offset entered (also when the products overflow), while the reference
    input is stored as entered.  With a reference in 0 to 4096 counts the
    cycle is in the range for which [Values::compute] keeps its bounds.  The
    start time of the previous cycle is the one recorded before. *)
Theorem simulated_cycle_is_in_converter_range sm sine1000 io cm :
  Measure.wf cm -> Simul.mode sm = Simul.SIMUL_ANALOG ->
  let cm' := Measure.getCycle sm sine1000 io cm in
  (forall i, 0 <= i < Measure.numSamples cm ->
     0 <= Measure.sample (Measure.Vx cm') i <= 1024 /\
     0 <= Measure.sample (Measure.Ig cm') i <= 1024 /\
     0 <= Measure.sample (Measure.Ic cm') i <= 1024 /\
     Measure.sample (Measure.V0 cm') i = CInt.int (Simul.ValV0 sm)) /\
  (0 <= Simul.ValV0 sm <= 4096 -> Measure.in_range cm' = true) /\
  Measure.prevCycleStartUs cm' = Measure.cycleStartUs cm /\
  Measure.cycleStartUs cm' = Measure.start_us io /\
  Measure.wf cm'.
Proof.
  intros Hwf Hmode cm'.
  assert (Hs : forall i, 0 <= i < Measure.numSamples cm ->
     0 <= Measure.sample (Measure.Vx cm') i <= 1024 /\
     0 <= Measure.sample (Measure.Ig cm') i <= 1024 /\
     0 <= Measure.sample (Measure.Ic cm') i <= 1024 /\
     Measure.sample (Measure.V0 cm') i = CInt.int (Simul.ValV0 sm)).
  { intros i Hi.
    destruct (wf_sample_index cm i Hwf Hi) as (L0 & Lx & Lg & Lc & _).
    subst cm'. unfold Measure.getCycle. rewrite Hmode. cbn.
    rewrite !sample_fill by done.
    pose proof (simulated_range sine1000 (Measure.numSamples cm) (Simul.ValV0 sm)
                  (Simul.AmplVx sm) 0 i) as Hx.
    pose proof (simulated_range sine1000 (Measure.numSamples cm) (Simul.ValV0 sm)
                  (Simul.AmplIg sm) (Simul.ShiftIg sm) i) as Hg.
    pose proof (simulated_range sine1000 (Measure.numSamples cm) (Simul.ValV0 sm)
                  (Simul.AmplIc sm) (Simul.ShiftIc sm) i) as Hc.
    unfold Measure.ADC_RESOLUTION_STEPS in *. done. }
  split; [exact Hs |].
  split; [| split; [done | split; [done | by apply getCycle_wf]]].
  intros Hv0. unfold Measure.in_range.
  change (Measure.numSamples cm') with (Measure.numSamples cm).
  destruct Hwf as (Hn & _).
  apply andb_true_intro. split.
  { apply andb_true_intro. split; [apply Z.ltb_lt | apply Z.leb_le]; lia. }
  apply forallb_forall. intros i Hi%list_elem_of_In%elem_of_indices.
  destruct (Hs i Hi) as (Hx & Hg & Hc & H0).
  rewrite H0, int_id by (unfold CInt.is_int, CInt.INT_MIN, CInt.INT_MAX; lia).
  unfold Measure.sample_ok.
  repeat (apply andb_true_intro; split); apply Z.leb_le; lia.
Qed.



Lemma measure_init_wf : Measure.wf Measure.init.
Proof. vm_compute. repeat split; (reflexivity || discriminate). Defined.

Lemma simulated_cycle_is_in_converter_range_witness :
  Measure.in_range
    (Measure.getCycle Scenes.simulate_analog Samples.sine1000
       (Scenes.quiet_sampling 20000) Measure.init) = true.
Proof.
  destruct (simulated_cycle_is_in_converter_range Scenes.simulate_analog
              Samples.sine1000 (Scenes.quiet_sampling 20000) Measure.init
              measure_init_wf eq_refl) as (_ & H & _).
  apply H. vm_compute. split; discriminate.
Defined.
(** ** values.h: a cycle without signal *)

Section ZeroFacts.

Lemma mul_zero_l k x y :
  F32.is_zero x = true -> F32.below k y = true -> F32.is_zero (F32.mul x y) = true.
Proof. destruct x as [sx | | |], y as [sy | | | sy my ey]; done. Qed.

Lemma sqrt_zero x : F32.is_zero x = true -> F32.is_zero (F32.sqrt x) = true.
Proof. by destruct x. Qed.

Lemma div_zero_within j k x y :
  F32.is_zero x = true -> F32.within j k y = true -> F32.is_zero (F32.div x y) = true.
Proof. destruct x as [sx | | |], y as [sy | | | sy my ey]; done. Qed.

Lemma abs_zero x : F32.is_zero x = true -> F32.is_zero (F32.abs x) = true.
Proof. destruct x as [[] | | |]; done. Qed.

Lemma opp_zero x : F32.is_zero x = true -> F32.is_zero (F32.opp x) = true.
Proof. by destruct x. Qed.

Lemma add_zero x y :
  F32.is_zero x = true -> F32.is_zero y = true -> F32.is_zero (F32.add x y) = true.
Proof. destruct x as [[] | | |], y as [[] | | |]; done. Qed.

Lemma is_zero_below k x : F32.is_zero x = true -> F32.below k x = true.
Proof. by destruct x. Qed.

Lemma max_one_zero x : F32.is_zero x = true -> F32.max F32.one x = F32.one.
Proof. destruct x as [[] | | |]; done. Qed.

(** The clipping macro leaves a zero that lies between its bounds. *)
Lemma constrain_zero x lo hi :
  F32.is_zero x = true ->
  F32.ltb F32.zero lo = false -> F32.ltb hi F32.zero = false ->
  F32.is_zero (F32.constrain x lo hi) = true.
Proof.
  intros Hx Hlo Hhi. destruct x as [s | | |]; try done.
  unfold F32.constrain, F32.gtb.
  assert (E1 : F32.ltb (S754_zero s) lo = false) by (by destruct lo).
  assert (E2 : SFltb hi (S754_zero s) = false) by (by destruct hi).
  by rewrite E1, E2.
Qed.

End ZeroFacts.

Section FlatCycle.
Import CInt Values.
Variable v : Values.t.
Variable cm : Measure.t.
Variable c : Z.
Hypothesis Hcal : calibration_ok v = true.
Hypothesis Hn : 0 < Measure.numSamples cm <= 40.
Hypothesis Hc : 0 <= c <= 4096.
Hypothesis Hflat : Measure.constant_at c cm = true.

Lemma constant_at_sample i :
  0 <= i < Measure.numSamples cm ->
  Measure.sample (Measure.V0 cm) i = c /\ Measure.sample (Measure.Vx cm) i = c /\
  Measure.sample (Measure.Ig cm) i = c /\ Measure.sample (Measure.Ic cm) i = c.
Proof.
  intros Hi. unfold Measure.constant_at in Hflat.
  rewrite forallb_forall in Hflat. specialize (Hflat i).
  rewrite <- list_elem_of_In, elem_of_indices in Hflat. specialize (Hflat Hi).
  repeat match goal with
         | H : _ && _ = true |- _ => apply andb_prop in H as [? ?]
         | H : (_ =? _) = true |- _ => apply Z.eqb_eq in H
         end.
  done.
Qed.

Lemma constant_at_in_range : Measure.in_range cm = true.
Proof.
  unfold Measure.in_range. apply andb_true_intro. split.
  { apply andb_true_intro. unfold Measure.SAMPLES_PER_CYCLE.
    split; [apply Z.ltb_lt | apply Z.leb_le]; lia. }
  apply forallb_forall. intros i Hi%list_elem_of_In%elem_of_indices.
  destruct (constant_at_sample i Hi) as (-> & -> & -> & ->).
  unfold Measure.sample_ok.
  repeat (apply andb_true_intro; split); apply Z.leb_le; lia.
Qed.

Lemma sum_loop_const (k : nat) term x :
  0 <= x -> Z.of_nat k * x <= LONG_MAX ->
  (forall i, 0 <= i < Z.of_nat k -> term i = x) ->
  sum_loop (Z.of_nat k) term = Z.of_nat k * x.
Proof.
  intros Hx. induction k as [| k IH]; intros Hmax Hterm.
  - reflexivity.
  - rewrite sum_loop_S, IH, Hterm by (try lia; intros i Hi; apply Hterm; lia).
    rewrite long_id; [lia |]. unfold is_long, LONG_MIN, LONG_MAX in *. lia.
Qed.

Lemma flat_offset : offset cm = c.
Proof.
  unfold offset.
  replace (Measure.numSamples cm) with (Z.of_nat (Z.to_nat (Measure.numSamples cm))) at 1 by lia.
  rewrite (sum_loop_const _ _ c); [| lia | |].
  - rewrite Z2Nat.id by lia. rewrite Z.mul_comm. apply Z.quot_mul. lia.
  - rewrite Z2Nat.id by lia. unfold LONG_MAX. change (2 ^ 31) with 2147483648. nia.
  - intros i Hi. apply constant_at_sample. lia.
Qed.

Lemma flat_sumSquares a :
  (forall i, 0 <= i < Measure.numSamples cm -> Measure.sample a i = c) ->
  sumSquares cm a = 0.
Proof.
  intros Ha. unfold sumSquares. rewrite flat_offset.
  replace (Measure.numSamples cm) with (Z.of_nat (Z.to_nat (Measure.numSamples cm))) by lia.
  rewrite (sum_loop_const _ _ 0); [lia | lia | unfold LONG_MAX; lia |].
  intros i Hi. cbn zeta. rewrite Ha by lia. by rewrite Z.sub_diag.
Qed.

Lemma flat_sumProducts a : sumProducts cm a = 0.
Proof.
  unfold sumProducts. rewrite flat_offset.
  replace (Measure.numSamples cm) with (Z.of_nat (Z.to_nat (Measure.numSamples cm))) by lia.
  rewrite (sum_loop_const _ _ 0); [lia | lia | unfold LONG_MAX; lia |].
  intros i Hi. destruct (constant_at_sample i ltac:(lia)) as (_ & -> & _).
  rewrite Z.sub_diag. change (long 0) with 0. by rewrite Z.mul_0_r.
Qed.

Lemma mean_zero : F32.is_zero (mean cm 0) = true.
Proof.
  unfold mean. apply (div_zero_within 1 7); [done |].
  apply numSamples_within, constant_at_in_range.
Qed.

(** Every quantity of a cycle without signal is a zero. *)
Lemma measure_flat :
  rV0Avg (measure v cm) = F32.of_Z c /\
  F32.is_zero (rVxEff (measure v cm)) = true /\
  F32.is_zero (rIgEff (measure v cm)) = true /\
  F32.is_zero (rIcEff (measure v cm)) = true /\
  F32.is_zero (rPg (measure v cm)) = true /\
  F32.is_zero (rPc (measure v cm)) = true /\
  F32.is_zero (rPFg (measure v cm)) = true /\
  F32.is_zero (rPFc (measure v cm)) = true.
Proof.
  pose proof constant_at_in_range as Hcm.
  destruct (calibration_inv v Hcal) as (_ & Hx & Hg & Hi).
  pose proof (scale_below v cm Hcal Hcm _ Hx) as Sx.
  pose proof (scale_below v cm Hcal Hcm _ Hg) as Sg.
  pose proof (scale_below v cm Hcal Hcm _ Hi) as Si.
  assert (Rx : F32.is_zero (rVxEff (measure v cm)) = true).
  { cbn [measure rVxEff]. rewrite flat_sumSquares by (intros; by apply constant_at_sample).
    eapply mul_zero_l; [apply sqrt_zero, mean_zero | exact Sx]. }
  assert (Rg : F32.is_zero (rIgEff (measure v cm)) = true).
  { cbn [measure rIgEff]. rewrite flat_sumSquares by (intros; by apply constant_at_sample).
    eapply mul_zero_l; [apply sqrt_zero, mean_zero | exact Sg]. }
  assert (Ri : F32.is_zero (rIcEff (measure v cm)) = true).
  { cbn [measure rIcEff]. rewrite flat_sumSquares by (intros; by apply constant_at_sample).
    eapply mul_zero_l; [apply sqrt_zero, mean_zero | exact Si]. }
  assert (Pg0 : F32.is_zero (rPg (measure v cm)) = true).
  { cbn [measure rPg]. rewrite flat_sumProducts. apply abs_zero.
    eapply mul_zero_l; [| exact Sx]. eapply mul_zero_l; [apply mean_zero | exact Sg]. }
  assert (Pc0 : F32.is_zero (rPc (measure v cm)) = true).
  { cbn [measure rPc]. rewrite flat_sumProducts. apply opp_zero, abs_zero.
    eapply mul_zero_l; [| exact Sx]. eapply mul_zero_l; [apply mean_zero | exact Si]. }
  split; [cbn [measure rV0Avg]; by rewrite flat_offset |].
  split; [done |]. split; [done |]. split; [done |]. split; [done |]. split; [done |].
  split.
  - change (rPFg (measure v cm))
      with (F32.div (rPg (measure v cm))
              (F32.max F32.one (F32.mul (rVxEff (measure v cm)) (rIgEff (measure v cm))))).
    rewrite max_one_zero by (eapply mul_zero_l; [done | by apply (is_zero_below 0)]).
    by apply (div_zero_within 1 1).
  - change (rPFc (measure v cm))
      with (F32.div (F32.opp (rPc (measure v cm)))
              (F32.max F32.one (F32.mul (rVxEff (measure v cm)) (rIcEff (measure v cm))))).
    rewrite max_one_zero by (eapply mul_zero_l; [done | by apply (is_zero_below 0)]).
    apply (div_zero_within 1 1); [by apply opp_zero | done].
Qed.

End FlatCycle.

(** X16.  A cycle without signal measures nothing: when the four inputs
    stay at one level [c] during the cycle (1 to 40 samples, [c] in 0 to
    4096 counts), [Values::compute] gives the offset [c] and a zero for the
    effective voltage, both effective currents, the generated, consumed and
    net power and both power factors, for every calibration of moderate size
    and outside the simulation of powers. *)
Theorem flat_cycle_measures_nothing t_start t_end sm cm v c :
  Values.calibration_ok v = true ->
  Simul.mode sm <> Simul.SIMUL_POWER ->
  0 < Measure.numSamples cm <= 40 -> 0 <= c <= 4096 ->
  Measure.constant_at c cm = true ->
  let v' := Values.compute t_start t_end sm cm v in
  Values.V0Avg v' = F32.of_Z c /\
  F32.is_zero (Values.VxEff v') = true /\
  F32.is_zero (Values.IgEff v') = true /\
  F32.is_zero (Values.IcEff v') = true /\
  F32.is_zero (Values.Pg v') = true /\
  F32.is_zero (Values.Pc v') = true /\
  F32.is_zero (Values.Pn v') = true /\
  F32.is_zero (Values.PFg v') = true /\
  F32.is_zero (Values.PFc v') = true.
Proof.
  intros Hcal Hmode Hn Hc Hflat v'. subst v'.
  destruct (measure_flat v cm c Hcal Hn Hc Hflat)
    as (H0 & Hx & Hg & Hi & HPg & HPc & HFg & HFc).
  unfold Values.compute.
  assert (Ho : Values.override sm (Values.rPg (Values.measure v cm),
                                   Values.rPc (Values.measure v cm))
               = (Values.rPg (Values.measure v cm), Values.rPc (Values.measure v cm))).
  { unfold Values.override. by destruct (Simul.mode sm). }
  rewrite Ho.
  destruct (Values.filter v _ _ _) as [[PgFilt' PcFilt'] PnFilt'].
  cbn [Values.V0Avg Values.VxEff Values.IgEff Values.IcEff Values.Pg Values.Pc Values.Pn
       Values.PFg Values.PFc].
  split; [done |].
  repeat match goal with |- _ /\ _ => split end;
    apply constrain_zero; try reflexivity; try done.
  by apply add_zero.
Qed.

Lemma flat_cycle_measures_nothing_witness :
  F32.is_zero (Values.Pg (Values.compute 0 0 Simul.init Samples.flat_cycle
                            Samples.calibrated)) = true /\
  F32.is_zero (Values.VxEff (Values.compute 0 0 Simul.init Samples.flat_cycle
                               Samples.calibrated)) = true.
Proof.
  destruct (flat_cycle_measures_nothing 0 0 Simul.init Samples.flat_cycle
              Samples.calibrated 512) as (_ & Hx & _ & _ & Hg & _).
  - vm_compute. reflexivity.
  - discriminate.
  - vm_compute. split; [reflexivity | discriminate].
  - lia.
  - vm_compute. reflexivity.
  - split; [exact Hg | exact Hx].
Defined.
(** ** values.h: the filtering step *)

Section IntervalFacts.
Import Values.

Lemma compute_interval t_start t_end sm cm v :
  interval (compute t_start t_end sm cm v)
  = (if Measure.prevCycleStartUs cm =? 0 then 0
     else CInt.ulong (Measure.cycleStartUs cm - Measure.prevCycleStartUs cm)).
Proof.
  unfold compute.
  destruct (override sm _) as [Pg0 Pc0].
  destruct (filter v _ _ _) as [[a b] c]. done.
Qed.

Lemma compute_seeded t_start t_end sm cm v :
  interval v = 0 ->
  PgFilt (compute t_start t_end sm cm v) = Pg (compute t_start t_end sm cm v) /\
  PcFilt (compute t_start t_end sm cm v) = Pc (compute t_start t_end sm cm v) /\
  PnFilt (compute t_start t_end sm cm v) = Pn (compute t_start t_end sm cm v).
Proof.
  intros Hi. pose proof (compute_filtered t_start t_end sm cm v) as Hf.
  unfold filter in Hf. rewrite Hi in Hf. cbn in Hf. by injection Hf as -> -> ->.
Qed.

End IntervalFacts.

(** X17.  The filter only starts with the third cycle.  [Values::compute]
    filters with the interval it recorded in the call before, and that
    interval is zero as long as [Measure::getCycle] has no previous start
    time.  Starting from fresh objects, the first call records the interval
    zero, the second call therefore seeds the filtered powers with the powers
    of the second cycle (the first cycle leaves no trace in them) and records
    the time between the two cycle starts. *)
Theorem filter_starts_with_third_cycle sm1 sm2 sine1000 io1 io2 ts1 te1 ts2 te2 cm v :
  Measure.cycleStartUs cm = 0 -> Values.interval v = 0 ->
  let st1 := Values.cycle sm1 sine1000 io1 ts1 te1 (cm, v) in
  let st2 := Values.cycle sm2 sine1000 io2 ts2 te2 st1 in
  Values.interval (snd st1) = 0 /\
  Values.PgFilt (snd st2) = Values.Pg (snd st2) /\
  Values.PcFilt (snd st2) = Values.Pc (snd st2) /\
  Values.PnFilt (snd st2) = Values.Pn (snd st2) /\
  Values.interval (snd st2)
  = (if Measure.start_us io1 =? 0 then 0
     else CInt.ulong (Measure.start_us io2 - Measure.start_us io1)).
Proof.
  intros Hstart Hinterval st1 st2.
  assert (H1 : Values.interval (snd st1) = 0).
  { subst st1. unfold Values.cycle. cbn [fst snd]. rewrite compute_interval.
    change (Measure.prevCycleStartUs (Measure.getCycle sm1 sine1000 io1 cm))
      with (Measure.cycleStartUs cm).
    by rewrite Hstart. }
  split; [exact H1 |].
  subst st2. unfold Values.cycle at 1 2 3 4 5 6 7. cbn [fst snd].
  destruct (compute_seeded ts2 te2 sm2
              (Measure.getCycle sm2 sine1000 io2 (fst st1)) (snd st1) H1)
    as (Hg & Hc & Hn).
  split; [exact Hg |]. split; [exact Hc |]. split; [exact Hn |].
  rewrite compute_interval. reflexivity.
Qed.

Lemma filter_starts_with_third_cycle_witness :
  Values.interval
    (snd (Values.cycle Simul.init Samples.sine1000 (Scenes.quiet_sampling 40000) 0 0
            (Values.cycle Simul.init Samples.sine1000 (Scenes.quiet_sampling 20000) 0 0
               (Measure.init, Samples.calibrated))))
  = 20000.
Proof.
  destruct (filter_starts_with_third_cycle Simul.init Simul.init Samples.sine1000
              (Scenes.quiet_sampling 20000) (Scenes.quiet_sampling 40000) 0 0 0 0
              Measure.init Samples.calibrated eq_refl eq_refl) as (_ & _ & _ & _ & H).
  exact H.
Defined.

Section WeightFacts.
Import Values.

Lemma of_Z_not_nan z : F32.is_nan (F32.of_Z z) = false.
Proof.
  unfold F32.of_Z, binary_normalize. destruct z; [done | |]; apply binary_round_not_nan.
Qed.

Lemma div_positive_not_nan x y :
  F32.is_nan x = false -> F32.is_positive y = true -> F32.is_nan (F32.div x y) = false.
Proof.
  destruct x as [sx | sx | | sx mx ex], y as [sy | sy | | [] my ey]; try done.
  intros _ _. unfold F32.div, SFdiv.
  destruct (SFdiv_core_binary_spec mx ex my ey) as (q & l & -> & Hq0 & _).
  apply binary_round_aux_not_nan. lia.
Qed.

Lemma is_positive_sign y : F32.is_positive y = true -> F32.sign_is false y.
Proof. by destruct y as [| | | [] m e]. Qed.

(** The weight is a zero or a finite number between zero and one. *)
Lemma alpha_inv v :
  0 <= interval v -> F32.is_positive (TimeConst v) = true ->
  F32.between F32.zero F32.one (alpha v) /\
  (F32.is_zero (alpha v) = true \/ F32.is_positive (alpha v) = true).
Proof.
  intros Hi HT. unfold alpha, F32.min.
  set (q := F32.div (F32.of_Z (interval v)) (TimeConst v)).
  assert (Hnan : F32.is_nan q = false).
  { apply div_positive_not_nan; [apply of_Z_not_nan | done]. }
  assert (Hsign : F32.sign_is false q).
  { apply div_nonneg; [by apply of_Z_nonneg | by apply is_positive_sign | done]. }
  destruct (F32.ltb F32.one q) eqn:Hlt.
  - split; [by split | by right].
  - split.
    + split; [by apply sign_is_nonneg | by apply not_ltb_leb].
    + destruct q as [s | s | | s m e]; try done.
      * by left.
      * cbn in Hsign. subst s. done.
      * cbn in Hsign. subst s. by right.
Qed.

Lemma SFcompare_refl x : F32.is_nan x = false -> SFcompare x x = Some Eq.
Proof.
  destruct x as [s | s | | s m e]; try done; intros _; cbn.
  - by destruct s.
  - rewrite Z.compare_refl, Pos.compare_cont_refl. by destruct s.
Qed.

(** A value that meets itself in the filter stays as it is. *)
Lemma blend_fixed a x :
  F32.is_zero a = true \/ F32.is_positive a = true ->
  F32.is_zero x = true \/ (exists s m e, x = S754_finite s m e) ->
  F32.eqb (F32.add x (F32.mul a (F32.sub x x))) x = true.
Proof.
  intros Ha Hx.
  assert (Hd : F32.is_zero (F32.sub x x) = true).
  { destruct Hx as [Hz | (s & m & e & ->)].
    - destruct x as [[] | | |]; done.
    - unfold F32.sub, SFsub. cbn zeta. by rewrite Z.sub_diag. }
  assert (Hm : F32.is_zero (F32.mul a (F32.sub x x)) = true).
  { destruct (F32.sub x x) as [sd | | |]; try done.
    destruct a as [sa | | | [] ma ea]; try done; by destruct Ha. }
  destruct (F32.mul a (F32.sub x x)) as [sm | | |]; try done.
  destruct Hx as [Hz | (s & m & e & ->)].
  - destruct x as [[] | | |], sm; done.
  - unfold F32.eqb, SFeqb. cbn [F32.add SFadd]. by rewrite SFcompare_refl.
Qed.

Lemma between_number lo hi x :
  F32.between lo hi x -> F32.is_positive hi = true \/ F32.is_zero hi = true ->
  (exists s m e, lo = S754_finite s m e) \/ F32.is_zero lo = true ->
  F32.is_zero x = true \/ (exists s m e, x = S754_finite s m e).
Proof.
  intros [Hlo Hhi] Hh Hl.
  destruct x as [s | s | | s m e]; [by left | | done | right; eauto].
  exfalso. destruct s.
  - destruct Hl as [(sl & ml & el & ->) | Hz]; [done |]. by destruct lo.
  - destruct Hh as [Hp | Hz]; destruct hi as [| | | [] mh eh]; done.
Qed.

End WeightFacts.

(** X18.  The weight of the new cycle in the filter,
    [alpha = min(1.0, interval / TimeConst)], lies between zero and one for
    every recorded interval when the time constant is a finite number above
    zero: cycles that are further apart than the time constant weigh one and
    no more.  With a recorded interval the filtered powers are
    [PgFilt + alpha * (Pg - PgFilt)] and [PcFilt + alpha * (Pc - PcFilt)]. *)
Theorem filter_weight_in_unit_interval v Pg Pc Pn :
  0 <= Values.interval v -> F32.is_positive (Values.TimeConst v) = true ->
  F32.between F32.zero F32.one (Values.alpha v) /\
  (Values.interval v <> 0 ->
   Values.filter v Pg Pc Pn
   = (F32.add (Values.PgFilt v) (F32.mul (Values.alpha v) (F32.sub Pg (Values.PgFilt v))),
      F32.add (Values.PcFilt v) (F32.mul (Values.alpha v) (F32.sub Pc (Values.PcFilt v))),
      F32.add
        (F32.add (Values.PgFilt v) (F32.mul (Values.alpha v) (F32.sub Pg (Values.PgFilt v))))
        (F32.add (Values.PcFilt v) (F32.mul (Values.alpha v) (F32.sub Pc (Values.PcFilt v)))))).
Proof.
  intros Hi HT. split; [by apply alpha_inv |].
  intros Hne. unfold Values.filter, Values.alpha.
  destruct (Z.eqb_spec (Values.interval v) 0); done.
Qed.

Lemma filter_weight_in_unit_interval_witness :
  F32.between F32.zero F32.one
    (Values.alpha
       (snd (Values.cycle Simul.init Samples.sine1000 (Scenes.quiet_sampling 40000) 0 0
               (Values.cycle Simul.init Samples.sine1000 (Scenes.quiet_sampling 20000) 0 0
                  (Measure.init, Samples.calibrated))))).
Proof.
  destruct (filter_weight_in_unit_interval
              (snd (Values.cycle Simul.init Samples.sine1000 (Scenes.quiet_sampling 40000) 0 0
                      (Values.cycle Simul.init Samples.sine1000
                         (Scenes.quiet_sampling 20000) 0 0
                         (Measure.init, Samples.calibrated))))
              F32.zero F32.zero F32.zero) as (H & _).
  - vm_compute. discriminate.
  - reflexivity.
  - exact H.
Defined.

(** X19.  Steady powers are a fixed point of the filter: when the
    generated and the consumed power of a cycle equal the filtered values of
    the cycle before (values within the clipping bounds), a call of
    [Values::compute] with a recorded interval leaves [PgFilt] and [PcFilt]
    at their values, in the sense of [==], whatever the weight. *)
Theorem steady_powers_keep_filtered_values t_start t_end sm cm v :
  0 < Values.interval v -> F32.is_positive (Values.TimeConst v) = true ->
  F32.between F32.zero Values.f9999 (Values.PgFilt v) ->
  F32.between Values.fm9999 F32.zero (Values.PcFilt v) ->
  let v' := Values.compute t_start t_end sm cm v in
  Values.Pg v' = Values.PgFilt v -> Values.Pc v' = Values.PcFilt v ->
  F32.eqb (Values.PgFilt v') (Values.PgFilt v) = true /\
  F32.eqb (Values.PcFilt v') (Values.PcFilt v) = true.
Proof.
  intros Hi HT Hg Hc v' Eg Ec.
  destruct (alpha_inv v ltac:(lia) HT) as (_ & Ha).
  pose proof (compute_filtered t_start t_end sm cm v) as Hf. fold v' in Hf.
  unfold Values.filter in Hf.
  destruct (Z.eqb_spec (Values.interval v) 0) as [E | _]; [lia |].
  cbn zeta in Hf. fold (Values.alpha v) in Hf. injection Hf as -> -> _.
  rewrite Eg, Ec. split; apply blend_fixed; try done.
  - apply (between_number F32.zero Values.f9999); [done | by left | by right].
  - apply (between_number Values.fm9999 F32.zero); [done | by right |].
    left. unfold Values.fm9999. eauto.
Qed.

Lemma steady_powers_keep_filtered_values_witness :
  F32.eqb
    (Values.PgFilt
       (Values.compute 0 0 (Samples.simulate_power 2000 100)
          (Measure.getCycle (Samples.simulate_power 2000 100) Samples.sine1000
             (Scenes.quiet_sampling 60000) (fst Scenes.steady_state))
          (snd Scenes.steady_state)))
    (Values.PgFilt (snd Scenes.steady_state)) = true.
Proof.
  destruct (steady_powers_keep_filtered_values 0 0 (Samples.simulate_power 2000 100)
              (Measure.getCycle (Samples.simulate_power 2000 100) Samples.sine1000
                 (Scenes.quiet_sampling 60000) (fst Scenes.steady_state))
              (snd Scenes.steady_state)) as (H & _).
  - vm_compute. reflexivity.
  - reflexivity.
  - vm_compute. split; reflexivity.
  - vm_compute. split; reflexivity.
  - vm_compute. reflexivity.
  - vm_compute. reflexivity.
  - exact H.
Defined.
(** ** values.h: the simulation of powers *)

Section SimulatedPowers.
Import Values.

Lemma all_ints_spec check z :
  all_ints check = true -> CInt.int_ok z = true -> check z = true.
Proof.
  unfold all_ints. rewrite forallb_forall. intros Hall Hz.
  unfold CInt.int_ok, CInt.INT_MIN, CInt.INT_MAX in Hz.
  apply andb_prop in Hz as [H1 H2]. apply Z.leb_le in H1, H2.
  change (2 ^ 15) with 32768 in *.
  pose proof (Z.div_mod (z + 32768) 256 ltac:(lia)) as Hdm.
  pose proof (Z.mod_pos_bound (z + 32768) 256 ltac:(lia)) as Hlo.
  assert (Hhi : 0 <= (z + 32768) / 256 < 256).
  { split; [apply Z.div_pos; lia | apply Z.div_lt_upper_bound; lia]. }
  specialize (Hall ((z + 32768) / 256)). rewrite forallb_forall in Hall.
  replace z with (256 * ((z + 32768) / 256) + (z + 32768) mod 256 - 32768) at 1 by lia.
  apply Hall; apply list_elem_of_In, elem_of_indices; lia.
Qed.

Lemma same_eq x y : F32.same x y = true -> x = y.
Proof.
  destruct x as [a | a | | a m e], y as [b | b | | b n f]; cbn; try done.
  - by intros ->%Bool.eqb_prop.
  - by intros ->%Bool.eqb_prop.
  - intros H. apply andb_prop in H as [H He]. apply andb_prop in H as [Hs Hm].
    apply Bool.eqb_prop in Hs. apply Pos.eqb_eq in Hm. apply Z.eqb_eq in He. by subst.
Qed.

Lemma clip_generated z :
  CInt.int_ok z = true ->
  F32.constrain (F32.of_Z z) F32.zero f9999 = F32.of_Z (clip_W z).
Proof.
  intros Hz. apply same_eq.
  apply (all_ints_spec
           (fun z => F32.same (F32.constrain (F32.of_Z z) F32.zero f9999)
                              (F32.of_Z (clip_W z)))); [| done].
  vm_compute. reflexivity.
Qed.

Lemma clip_consumed z :
  CInt.int_ok z = true ->
  F32.eqb (F32.constrain (F32.opp (F32.of_Z z)) fm9999 F32.zero)
          (F32.of_Z (- clip_W z)) = true.
Proof.
  intros Hz.
  apply (all_ints_spec
           (fun z => F32.eqb (F32.constrain (F32.opp (F32.of_Z z)) fm9999 F32.zero)
                             (F32.of_Z (- clip_W z)))); [| done].
  vm_compute. reflexivity.
Qed.

End SimulatedPowers.

(** X20.  In the simulation of powers [Values::compute] takes the two
    powers entered on the console instead of the measured ones, clipped to
    0 to 9999 W: for every pair of values of type [int], the generated power
    is the conversion of [max 0 (min 9999 Pg)] and the consumed power equals
    minus the conversion of [max 0 (min 9999 Pc)], whatever the samples of
    the cycle and the calibration. *)
Theorem simulated_powers_are_clipped t_start t_end sm cm v :
  Simul.mode sm = Simul.SIMUL_POWER -> Simul.in_range sm = true ->
  let v' := Values.compute t_start t_end sm cm v in
  Values.Pg v' = F32.of_Z (Values.clip_W (Simul.Pg sm)) /\
  F32.eqb (Values.Pc v') (F32.of_Z (- Values.clip_W (Simul.Pc sm))) = true.
Proof.
  intros Hmode Hsm v'.
  unfold Simul.in_range in Hsm. apply andb_prop in Hsm as [Hg Hc].
  destruct (compute_clipped t_start t_end sm cm v) as (Eg & Ec & _). fold v' in Eg, Ec.
  unfold Values.override in Eg, Ec. rewrite Hmode in Eg, Ec. cbn [fst snd] in Eg, Ec.
  rewrite Eg, Ec. split; [by apply clip_generated | by apply clip_consumed].
Qed.

Lemma simulated_powers_are_clipped_witness :
  Values.Pg (Values.compute 0 0 (Samples.simulate_power 20000 100) Samples.flat_cycle
               Samples.calibrated) = F32.of_Z 9999.
Proof.
  destruct (simulated_powers_are_clipped 0 0 (Samples.simulate_power 20000 100)
              Samples.flat_cycle Samples.calibrated eq_refl eq_refl) as (H & _).
  exact H.
Defined.
(** ** credits.h: the name of the sketch *)

(** X21.  [Credits::getFileName] keeps the part of the path behind its
    last backslash: when the path (of at most 32767 characters) holds a
    backslash, the path is some prefix, a backslash and the new file name,
    and the file name holds no backslash; when it holds none, as with a path
    written with forward slashes, the object is left as it is and keeps the
    name it had.  The date is not touched. *)
Theorem file_name_is_part_after_last_backslash path c :
  Z.of_nat (length path) <= CInt.INT_MAX ->
  let c' := Credits.getFileName path c in
  (Credits.backslash ∈ path ->
   (exists pre, path = pre ++ Credits.backslash :: Credits.fileName c') /\
   Credits.backslash ∉ Credits.fileName c') /\
  (Credits.backslash ∉ path -> c' = c) /\
  Credits.fileDateTime c' = Credits.fileDateTime c.
Proof.
  intros Hlen c'. subst c'. unfold Credits.getFileName.
  rewrite (int_id (Z.of_nat (length path)))
    by (unfold CInt.is_int, CInt.INT_MIN, CInt.INT_MAX in *; lia).
  rewrite Nat2Z.id.
  destruct (Loads.first_down _ (length path)) as [i |] eqn:E.
  - apply first_down_Some in E as (k & Hk & Hbody & Hafter).
    apply when_Some in Hbody as [Hc ->]. apply bool_decide_eq_true_1 in Hc.
    unfold Credits.char_at in Hc.
    rewrite (int_id (k + 1))
      by (unfold CInt.is_int, CInt.INT_MIN, CInt.INT_MAX in *; lia).
    replace (Z.to_nat (k + 1)) with (S (Z.to_nat k)) by lia.
    cbn [Credits.fileName Credits.fileDateTime].
    assert (Hno : Credits.backslash ∉ drop (S (Z.to_nat k)) path).
    { intros Hin. apply list_elem_of_lookup in Hin as [j Hj].
      rewrite lookup_drop in Hj.
      pose proof (lookup_lt_Some _ _ _ Hj) as Hlt.
      specialize (Hafter (Z.of_nat (S (Z.to_nat k) + j)) ltac:(lia)).
      unfold Loads.when, Credits.char_at in Hafter. rewrite Nat2Z.id in Hafter.
      rewrite bool_decide_eq_true_2 in Hafter by done. done. }
    split; [| split; [| done]].
    + intros _. split; [| done].
      exists (take (Z.to_nat k) path). symmetry. by apply take_drop_middle.
    + intros Hnot. exfalso. apply Hnot. eapply list_elem_of_lookup_2. exact Hc.
  - split; [| done].
    intros Hin. exfalso. apply list_elem_of_lookup in Hin as [j Hj].
    pose proof (lookup_lt_Some _ _ _ Hj) as Hlt.
    pose proof (first_down_None _ _ E (Z.of_nat j) ltac:(lia)) as Hnone.
    unfold Loads.when, Credits.char_at in Hnone. rewrite Nat2Z.id in Hnone.
    rewrite bool_decide_eq_true_2 in Hnone by done. done.
Qed.

Lemma file_name_is_part_after_last_backslash_witness :
  Credits.backslash
    ∉ Credits.fileName (Credits.getFileName Scenes.sketch_path Credits.init).
Proof.
  destruct (file_name_is_part_after_last_backslash Scenes.sketch_path Credits.init)
    as (H & _).
  - vm_compute. discriminate.
  - apply H. apply (list_elem_of_lookup_2 _ 2). reflexivity.
Defined.

(** ** display.h: the refresh of the screen *)

Section ShowFacts.
Import Display.

Lemma draw_inv texts l :
  0 <= l <= 3 ->
  draw texts l = ((if l =? 3 then -1 else l + 1), [OpPrint l (texts l)]).
Proof.
  intros Hl.
  assert (l = 0 \/ l = 1 \/ l = 2 \/ l = 3) as [-> | [-> | [-> | ->]]] by lia; reflexivity.
Qed.

(** One call of [show] on a display whose screen and line counters are in
    their ranges. *)
Lemma show_inv reading t_start t_end x d :
  0 <= screen d < DISPLAY_SCREENS -> -1 <= line d <= 3 ->
  let pressed := falling_edge d reading in
  let n := if pressed then (screen d + 1) mod DISPLAY_SCREENS else screen d in
  let l := if pressed then 0 else line d in
  let d' := fst (show reading t_start t_end x d) in
  let out := snd (show reading t_start t_end x d) in
  screen d' = n /\ prevButton d' = reading /\ buttonGpio d' = buttonGpio d /\
  if (l =? -1) && negb (CountTime.flagOneSec (pCT x))
  then out = [] /\ line d' = -1
  else
    let l2 := if l =? -1 then 0 else l in
    out = [OpPrint l2 (screen_text n x l2)] /\
    line d' = (if l2 =? 3 then -1 else l2 + 1).
Proof.
  unfold DISPLAY_SCREENS. intros Hs Hl. cbn zeta. unfold show. fold (falling_edge d reading).
  set (pressed := falling_edge d reading).
  assert (Hn : (if pressed
                then CInt.int (Z.rem (CInt.int (screen d + 1)) DISPLAY_SCREENS)
                else screen d)
               = (if pressed then (screen d + 1) mod 3 else screen d)).
  { destruct pressed; [| done]. unfold DISPLAY_SCREENS.
    rewrite (int_id (screen d + 1))
      by (unfold CInt.is_int, CInt.INT_MIN, CInt.INT_MAX; lia).
    rewrite Z.rem_mod_nonneg by lia.
    pose proof (Z.mod_pos_bound (screen d + 1) 3 ltac:(lia)).
    apply int_id. unfold CInt.is_int, CInt.INT_MIN, CInt.INT_MAX. lia. }
  rewrite Hn.
  set (n := if pressed then (screen d + 1) mod 3 else screen d).
  set (l := if pressed then 0 else line d).
  assert (Hnr : 0 <= n < 3).
  { subst n. destruct pressed; [apply Z.mod_pos_bound; lia | done]. }
  assert (Hlr : -1 <= l <= 3) by (subst l; destruct pressed; lia).
  destruct ((l =? -1) && negb (CountTime.flagOneSec (pCT x))) eqn:Hidle.
  { cbn [fst snd screen prevButton buttonGpio line].
    apply andb_prop in Hidle as [Hl1 _]. apply Z.eqb_eq in Hl1. done. }
  set (l2 := if l =? -1 then 0 else l).
  assert (Hl2 : 0 <= l2 <= 3) by (subst l2; destruct (Z.eqb_spec l (-1)); lia).
  unfold screen_text.
  assert (n = 0 \/ n = 1 \/ n = 2) as [-> | [-> | ->]] by lia; cbn [Z.eqb Pos.eqb];
    rewrite (draw_inv _ l2 Hl2); cbn [fst snd screen prevButton buttonGpio line]; done.
Qed.

End ShowFacts.

(** X22.  A call of [Display::show] writes at most one line.  With the
    screen counter in 0 to 2 and the line counter in -1 to 3, both stay in
    these ranges; while no line is pending and no second has elapsed nothing
    is written; otherwise the one operation is the print of the pending line
    of the selected screen (line 0 after a wait), and the line counter moves
    to the next line, or to -1 after line 3.  The display is never cleared:
    the [default] branches are not reached. *)
Theorem show_writes_one_line reading t_start t_end x d :
  0 <= Display.screen d < Display.DISPLAY_SCREENS -> -1 <= Display.line d <= 3 ->
  let d' := fst (Display.show reading t_start t_end x d) in
  let out := snd (Display.show reading t_start t_end x d) in
  0 <= Display.screen d' < Display.DISPLAY_SCREENS /\ -1 <= Display.line d' <= 3 /\
  Display.prevButton d' = reading /\
  (out = [] \/
   exists row, 0 <= row <= 3 /\
     out = [Display.OpPrint row (Display.screen_text (Display.screen d') x row)] /\
     Display.line d' = (if row =? 3 then -1 else row + 1)) /\
  (Display.falling_edge d reading = false -> Display.line d = -1 ->
   CountTime.flagOneSec (Display.pCT x) = false ->
   out = [] /\ Display.line d' = -1 /\ Display.screen d' = Display.screen d).
Proof.
  intros Hs Hl d' out.
  pose proof (show_inv reading t_start t_end x d Hs Hl) as H. cbn zeta in H.
  fold d' out in H. destruct H as (Hn & Hprev & _ & H).
  unfold Display.DISPLAY_SCREENS in *.
  set (pressed := Display.falling_edge d reading) in *.
  set (n := if pressed then (Display.screen d + 1) mod 3 else Display.screen d) in *.
  set (l := if pressed then 0 else Display.line d) in *.
  assert (Hnr : 0 <= n < 3).
  { subst n. destruct pressed; [apply Z.mod_pos_bound; lia | done]. }
  assert (Hlr : -1 <= l <= 3) by (subst l; destruct pressed; lia).
  rewrite Hn. split; [done |].
  destruct ((l =? -1) && negb (CountTime.flagOneSec (Display.pCT x))) eqn:Hidle.
  - destruct H as (-> & Hline). rewrite Hline.
    split; [lia |]. split; [done |]. split; [by left |].
    intros Hp _ _. subst n. by rewrite Hp.
  - cbn zeta in H. destruct H as (Hout & Hline).
    set (l2 := if l =? -1 then 0 else l) in *.
    assert (Hl2 : 0 <= l2 <= 3) by (subst l2; destruct (Z.eqb_spec l (-1)); lia).
    split; [rewrite Hline; destruct (Z.eqb_spec l2 3); lia |].
    split; [done |]. split; [right; exists l2; done |].
    intros Hp Hm1 Hsec. exfalso.
    subst l. rewrite Hp, Hm1, Hsec in Hidle. done.
Qed.

Lemma show_writes_one_line_witness :
  snd (Display.show HIGH 0 32000 Scenes.display_idle Display.init) = [].
Proof.
  destruct (show_writes_one_line HIGH 0 32000 Scenes.display_idle Display.init)
    as (_ & _ & _ & _ & H).
  - vm_compute. split; [discriminate | reflexivity].
  - vm_compute. split; discriminate.
  - destruct H as (H & _); [reflexivity | reflexivity | reflexivity | exact H].
Defined.

(** X23.  A screen is refreshed in four calls, one line per loop iteration.
    With the button released, no line pending and a second elapsed in the
    first of four successive calls of [Display::show], the four calls print
    the lines 0, 1, 2 and 3 of the selected screen in this order, each with
    the data of its own iteration, whether or not a second elapses in the
    later calls; afterwards no line is pending and the screen is the same. *)
Theorem screen_refreshed_in_four_calls c0 c1 c2 c3 d :
  0 <= Display.screen d < Display.DISPLAY_SCREENS -> Display.line d = -1 ->
  Display.reading c0 = HIGH -> Display.reading c1 = HIGH ->
  Display.reading c2 = HIGH -> Display.reading c3 = HIGH ->
  CountTime.flagOneSec (Display.pCT (Display.data c0)) = true ->
  let n := Display.screen d in
  let r := Display.shows [c0; c1; c2; c3] d in
  snd r = [Display.OpPrint 0 (Display.screen_text n (Display.data c0) 0);
           Display.OpPrint 1 (Display.screen_text n (Display.data c1) 1);
           Display.OpPrint 2 (Display.screen_text n (Display.data c2) 2);
           Display.OpPrint 3 (Display.screen_text n (Display.data c3) 3)] /\
  Display.line (fst r) = -1 /\ Display.screen (fst r) = n.
Proof.
  intros Hs Hl R0 R1 R2 R3 Hsec n r. subst r. unfold Display.shows. cbn [fold_left fst snd].
  rewrite R0, R1, R2, R3.
  assert (Hstep : forall ts te x d0 l,
            0 <= Display.screen d0 < Display.DISPLAY_SCREENS ->
            0 <= l <= 3 ->
            (Display.line d0 = l \/
             (l = 0 /\ Display.line d0 = -1 /\ CountTime.flagOneSec (Display.pCT x) = true)) ->
            Display.show HIGH ts te x d0
            = (fst (Display.show HIGH ts te x d0),
               [Display.OpPrint l (Display.screen_text (Display.screen d0) x l)]) /\
            Display.screen (fst (Display.show HIGH ts te x d0)) = Display.screen d0 /\
            Display.line (fst (Display.show HIGH ts te x d0))
            = (if l =? 3 then -1 else l + 1)).
  { intros ts te x d0 l Hs0 Hlr Hline.
    assert (Hl0 : -1 <= Display.line d0 <= 3) by (destruct Hline as [-> | (_ & -> & _)]; lia).
    pose proof (show_inv HIGH ts te x d0 Hs0 Hl0) as H. cbn zeta in H.
    assert (Hp : Display.falling_edge d0 HIGH = false).
    { unfold Display.falling_edge. by destruct (Display.prevButton d0). }
    rewrite Hp in H. destruct H as (Hn & _ & _ & H).
    destruct Hline as [Hline | (-> & Hline & Hflag)].
    - rewrite Hline in H.
      destruct (Z.eqb_spec l (-1)); [lia |]. cbn [andb] in H.
      destruct H as (Hout & Hline'). rewrite Hn, Hline'. split; [| done].
      rewrite <- Hout. by destruct (Display.show HIGH ts te x d0).
    - rewrite Hline, Hflag in H. cbn in H.
      destruct H as (Hout & Hline'). rewrite Hn, Hline'. split; [| done].
      rewrite <- Hout. by destruct (Display.show HIGH ts te x d0). }
  destruct (Hstep (Display.started c0) (Display.ended c0) (Display.data c0) d 0
              Hs ltac:(lia) ltac:(right; done)) as (E0 & S0 & L0).
  rewrite E0. cbn [fst snd app].
  set (d0 := fst (Display.show HIGH _ _ (Display.data c0) d)) in *.
  destruct (Hstep (Display.started c1) (Display.ended c1) (Display.data c1) d0 1
              ltac:(by rewrite S0) ltac:(lia) ltac:(left; done)) as (E1 & S1 & L1).
  rewrite E1. cbn [fst snd app].
  set (d1 := fst (Display.show HIGH _ _ (Display.data c1) d0)) in *.
  destruct (Hstep (Display.started c2) (Display.ended c2) (Display.data c2) d1 2
              ltac:(by rewrite S1, S0) ltac:(lia) ltac:(left; done)) as (E2 & S2 & L2).
  rewrite E2. cbn [fst snd app].
  set (d2 := fst (Display.show HIGH _ _ (Display.data c2) d1)) in *.
  destruct (Hstep (Display.started c3) (Display.ended c3) (Display.data c3) d2 3
              ltac:(by rewrite S2, S1, S0) ltac:(lia) ltac:(left; done)) as (E3 & S3 & L3).
  rewrite E3. cbn [fst snd app].
  rewrite S1, S0, S2, S1, S0. subst n.
  split; [done |]. split; [done |]. by rewrite S3, S2, S1, S0.
Qed.

Lemma screen_refreshed_in_four_calls_witness :
  Display.rows
    (snd (Display.shows [Scenes.released Scenes.display_data;
                         Scenes.released Scenes.display_idle;
                         Scenes.released Scenes.display_idle;
                         Scenes.released Scenes.display_idle] Display.init))
  = [0; 1; 2; 3].
Proof.
  destruct (screen_refreshed_in_four_calls (Scenes.released Scenes.display_data)
              (Scenes.released Scenes.display_idle) (Scenes.released Scenes.display_idle)
              (Scenes.released Scenes.display_idle) Display.init) as (H & _).
  - vm_compute. split; [discriminate | reflexivity].
  - reflexivity.
  - reflexivity.
  - reflexivity.
  - reflexivity.
  - reflexivity.
  - reflexivity.
  - rewrite H. reflexivity.
Defined.

(** X24.  The button selects the next screen on its falling edge only.  In
    a call of [Display::show] that reads the button LOW after HIGH, the
    screen counter [n] becomes [(n + 1) mod 3] and line 0 of the new screen
    is printed in the same call, without waiting for the second and whatever
    line was pending; in every other call (button held, released or still
    up) the screen stays selected. *)
Theorem button_selects_next_screen reading t_start t_end x d :
  0 <= Display.screen d < Display.DISPLAY_SCREENS -> -1 <= Display.line d <= 3 ->
  let d' := fst (Display.show reading t_start t_end x d) in
  let out := snd (Display.show reading t_start t_end x d) in
  if Display.falling_edge d reading then
    Display.screen d' = (Display.screen d + 1) mod 3 /\
    out = [Display.OpPrint 0 (Display.screen_text (Display.screen d') x 0)] /\
    Display.line d' = 1
  else Display.screen d' = Display.screen d.
Proof.
  intros Hs Hl d' out.
  pose proof (show_inv reading t_start t_end x d Hs Hl) as H. cbn zeta in H.
  fold d' out in H. destruct H as (Hn & _ & _ & H).
  unfold Display.DISPLAY_SCREENS in *.
  destruct (Display.falling_edge d reading); [| done].
  cbn in H. destruct H as (Hout & Hline). rewrite Hn. done.
Qed.

Lemma button_selects_next_screen_witness :
  Display.screen (fst (Display.show LOW 0 32000 Scenes.display_idle Display.init)) = 2.
Proof.
  pose proof (button_selects_next_screen LOW 0 32000 Scenes.display_idle Display.init) as H.
  cbn zeta in H.
  destruct H as (H & _).
  - vm_compute. split; [discriminate | reflexivity].
  - vm_compute. split; discriminate.
  - exact H.
Defined.
(** ** countTime.h: the refresh countdown and the text of the clock *)

Section RefreshCountdown.
Import CInt CountTime.

Lemma update_with_refresh r c :
  let c' := update_with r c in
  (flagOneSec c' = false /\ countRefresh_s c' = countRefresh_s c /\ flagRefresh c' = false) \/
  (flagOneSec c' = true /\
   (countRefresh_s c', flagRefresh c') = step_refresh (rnd r) c).
Proof.
  unfold update_with.
  destruct (Z_lt_le_dec (ulong (now_ms r - lastTime c)) 1000) as [H | H].
  - left. destruct (update_idle (now_us r) (now_ms r) (rnd r) c H)
      as (H1 & _ & H3 & _ & _ & _ & _ & _ & _ & _ & H11). done.
  - right. destruct (update_second (now_us r) (now_ms r) (rnd r) c H)
      as (H1 & _ & _ & _ & _ & _ & H7). done.
Qed.

Lemma step_refresh_counts rnd c :
  1 < countRefresh_s c <= INT_MAX ->
  step_refresh rnd c = (countRefresh_s c - 1, false).
Proof.
  intros H. unfold step_refresh.
  rewrite int_id by (unfold is_int, INT_MIN, INT_MAX in *; lia).
  destruct (Z.leb_spec (countRefresh_s c - 1) 0); [lia | done].
Qed.

Lemma step_refresh_due rnd c :
  countRefresh_s c = 1 -> snd (step_refresh rnd c) = true.
Proof. intros H. unfold step_refresh. rewrite H. reflexivity. Qed.

Lemma run_refresh_countdown k rs : forall c,
  1 <= k <= INT_MAX -> countRefresh_s c = k ->
  seconds_counted rs c < k ->
  countRefresh_s (run rs c) = k - seconds_counted rs c /\
  flagRefresh (run rs c) = false \/ rs = [].
Proof.
  induction rs as [| r rs IH] using rev_ind; intros c Hk Hc Hn; [by right |].
  left. rewrite run_snoc. rewrite seconds_counted_snoc in *.
  pose proof (seconds_counted_nonneg rs c) as Hnn.
  set (c1 := run rs c) in *. set (n := seconds_counted rs c) in *.
  assert (Hc1 : countRefresh_s c1 = k - n).
  { destruct (IH c Hk Hc) as [[H _] | ->]; [| done |].
    - destruct (flagOneSec (update_with r c1)); lia.
    - subst c1 n. cbn. lia. }
  destruct (update_with_refresh r c1) as [(Hf & Hcr & Hfr) | (Hf & Hstep)];
    rewrite Hf in *.
  - rewrite Hcr, Hfr. split; [lia | done].
  - rewrite step_refresh_counts in Hstep by lia.
    injection Hstep as -> ->. split; [lia | done].
Qed.

End RefreshCountdown.

(** X25.  The refresh countdown counts the seconds it was loaded with: with
    [countRefresh_s = k >= 1], the calls of [CountTime::update] keep
    [flagRefresh] down and the countdown at [k] minus the seconds counted
    while fewer than [k] seconds have been counted, and the call that counts
    the [k]-th second raises [flagRefresh]. *)
Theorem refresh_flag_after_countdown k rs r c :
  1 <= k <= CInt.INT_MAX -> CountTime.countRefresh_s c = k ->
  let c' := CountTime.run (rs ++ [r]) c in
  let n := CountTime.seconds_counted (rs ++ [r]) c in
  (n < k -> CountTime.flagRefresh c' = false /\ CountTime.countRefresh_s c' = k - n) /\
  (n = k -> CountTime.flagOneSec c' = true -> CountTime.flagRefresh c' = true).
Proof.
  intros Hk Hc c' n. split.
  - intros Hn.
    destruct (run_refresh_countdown k (rs ++ [r]) c Hk Hc Hn) as [[H1 H2] | H]; [done |].
    by destruct rs.
  - intros Hn Hsec. subst c' n. rewrite run_snoc in *. rewrite seconds_counted_snoc in Hn.
    rewrite Hsec in Hn.
    pose proof (seconds_counted_nonneg rs c) as Hnn.
    assert (Hc1 : CountTime.countRefresh_s (CountTime.run rs c) = 1).
    { destruct (run_refresh_countdown k rs c Hk Hc ltac:(lia)) as [[H _] | ->]; [lia |].
      cbn in *. lia. }
    destruct (update_with_refresh r (CountTime.run rs c)) as [(Hf & _) | (_ & Hstep)];
      [congruence |].
    pose proof (step_refresh_due (CountTime.rnd r) _ Hc1) as Hdue.
    rewrite <- Hstep in Hdue. exact Hdue.
Qed.

Lemma refresh_flag_after_countdown_witness :
  CountTime.flagRefresh
    (CountTime.run (Scenes.loop_readings ++ [Scenes.late_reading]) Scenes.clock_started)
  = false /\
  CountTime.countRefresh_s
    (CountTime.run (Scenes.loop_readings ++ [Scenes.late_reading]) Scenes.clock_started)
  = 28.
Proof.
  destruct (refresh_flag_after_countdown 30 Scenes.loop_readings Scenes.late_reading
              Scenes.clock_started) as (H & _).
  - vm_compute. split; discriminate.
  - reflexivity.
  - apply H. reflexivity.
Defined.

Section ClockText.
Import CountTime.

Lemma substring_all (s : string) : forall n,
  (String.length s <= n)%nat -> substring 0 n s = s.
Proof.
  induction s as [| a s IH]; intros n Hn; [by destruct n |].
  destruct n as [| n]; [cbn in Hn; lia |].
  cbn. f_equal. apply IH. cbn in Hn. lia.
Qed.

Lemma length_append (s1 s2 : string) :
  String.length (s1 +:+ s2) = (String.length s1 + String.length s2)%nat.
Proof. induction s1 as [| a s1 IH]; [done |]. simpl. by rewrite <- IH. Qed.

(** ["%02d"] prints two characters for 0 to 99 and at most six for any
    [int]. *)
Lemma fmt02d_two z : 0 <= z < 100 -> String.length (fmt02d z) = 2%nat.
Proof.
  intros Hz.
  assert (Hall : forallb (fun z => (String.length (fmt02d z) =? 2)%nat) (indices 100) = true)
    by (vm_compute; reflexivity).
  rewrite forallb_forall in Hall. apply Nat.eqb_eq, Hall.
  by apply list_elem_of_In, elem_of_indices.
Qed.

Lemma fmt02d_int z :
  CInt.int_ok z = true -> (String.length (fmt02d z) <= 6)%nat.
Proof.
  intros Hz.
  apply Nat.leb_le.
  apply (all_ints_spec (fun z => (String.length (fmt02d z) <=? 6)%nat)); [| done].
  vm_compute. reflexivity.
Qed.

End ClockText.

(** X26.  The text of the clock is never truncated and reads [hh:mm:ss]:
    in a call of [CountTime::update] that counts a second, on a clock with
    seconds and minutes in 0 to 59 and hours in the range of [int], the 13
    characters that [snprintf] may store suffice, so [hhmmss] is the hours,
    a colon, the two digits of the minutes, a colon and the two digits of the
    seconds of the new time; below 100 hours it has exactly 8 characters. *)
Theorem clock_text_is_not_truncated now_us now_ms rnd c :
  CountTime.clock_ok c -> CountTime.clock_s c + 1 < 32768 * 3600 ->
  1000 <= CInt.ulong (now_ms - CountTime.lastTime c) ->
  let c' := CountTime.update now_us now_ms rnd c in
  CountTime.hhmmss c'
  = (CountTime.fmt02d (CountTime.hours c') +:+ ":" +:+
     CountTime.fmt02d (CountTime.minutes c') +:+ ":" +:+
     CountTime.fmt02d (CountTime.seconds c'))%string /\
  (CountTime.hours c' < 100 -> String.length (CountTime.hhmmss c') = 8%nat).
Proof.
  intros (Hs & Hm & Hh) Hlim Hsec c'.
  destruct (update_second now_us now_ms rnd c Hsec) as (_ & _ & Htick & Htext & _).
  fold c' in Htick, Htext.
  pose proof (tick_clock (CountTime.hours c) (CountTime.minutes c) (CountTime.seconds c)
                Hs Hm ltac:(lia)) as Ht.
  rewrite <- Htick in Ht.
  destruct Ht as (Hs' & Hm' & Hh' & _); [unfold CountTime.clock_s in Hlim; lia |].
  pose proof (fmt02d_two (CountTime.seconds c') ltac:(lia)) as Ls.
  pose proof (fmt02d_two (CountTime.minutes c') ltac:(lia)) as Lm.
  assert (Lh : (String.length (CountTime.fmt02d (CountTime.hours c')) <= 6)%nat).
  { apply fmt02d_int. unfold CInt.int_ok, CInt.INT_MIN, CInt.INT_MAX in *.
    apply andb_true_intro. split; apply Z.leb_le; lia. }
  assert (E : CountTime.hhmmss c'
              = (CountTime.fmt02d (CountTime.hours c') +:+ ":" +:+
                 CountTime.fmt02d (CountTime.minutes c') +:+ ":" +:+
                 CountTime.fmt02d (CountTime.seconds c'))%string).
  { rewrite Htext. unfold CountTime.fmt_hhmmss. apply substring_all.
    rewrite !length_append, Ls, Lm. cbn [String.length]. lia. }
  split; [exact E |].
  intros H100. rewrite E, !length_append, Ls, Lm.
  rewrite (fmt02d_two (CountTime.hours c')) by lia. reflexivity.
Qed.

Lemma clock_text_is_not_truncated_witness :
  CountTime.hhmmss (CountTime.update 0 1000 12345 Samples.clock_due) = "00:00:30"%string.
Proof.
  destruct (clock_text_is_not_truncated 0 1000 12345 Samples.clock_due) as (H & _).
  - vm_compute. repeat split; (reflexivity || discriminate).
  - reflexivity.
  - vm_compute. discriminate.
  - exact H.
Defined.

(** ** values.h: the calibration made by [begin] *)

Section CalibrationFacts.
Import Values.

Lemma ratio_below nominal :
  F32.below 13 nominal = true ->
  F32.below 16 (F32.div (F32.mul nominal f1_4142) MAX_AMPL_V) = true.
Proof.
  intros H.
  apply (div_below 15 2 2); [| reflexivity | lia | lia].
  apply (mul_below 13 1); [done | reflexivity | lia | lia].
Qed.

End CalibrationFacts.

(** X27.  [Values::begin] gives a calibration for which the bounds of
    [Values::compute] hold: called on an object that has the default
    reference voltage (2.5 V) and maximum amplitude (2.0 V), with nominal
    values of the voltage and of the two currents that are numbers below
    8192, it stores ratios below 2^16 and the maximum consumption given,
    and leaves the measured and filtered values and the interval alone. *)
Theorem begin_gives_bounded_calibration VxNom IgNom IcNom MaxC v :
  Values.V0RefV v = Values.V0_REF_V -> Values.MaxAmplV v = Values.MAX_AMPL_V ->
  F32.below 13 VxNom = true -> F32.below 13 IgNom = true -> F32.below 13 IcNom = true ->
  let v' := Values.begin VxNom IgNom IcNom MaxC v in
  Values.calibration_ok v' = true /\
  Values.MaxConsumpt v' = MaxC /\
  Values.interval v' = Values.interval v /\
  Values.PgFilt v' = Values.PgFilt v /\ Values.PcFilt v' = Values.PcFilt v /\
  Values.PnFilt v' = Values.PnFilt v.
Proof.
  intros H0 HA Hx Hg Hc v'. split; [| done].
  unfold Values.calibration_ok. subst v'. cbn [Values.begin Values.V0RefV Values.VxRatio
    Values.IgRatio Values.IcRatio]. rewrite H0, HA.
  rewrite !ratio_below by done. reflexivity.
Qed.

Lemma begin_gives_bounded_calibration_witness :
  Values.calibration_ok Samples.calibrated = true.
Proof.
  destruct (begin_gives_bounded_calibration (F32.of_Z 230) (F32.of_Z 30) (F32.of_Z 30)
              (F32.of_Z 3000) Values.init eq_refl eq_refl eq_refl eq_refl eq_refl)
    as (H & _).
  exact H.
Defined.

(** ** simul.h: receiving a command *)

Section ReceiveFacts.
Import SimulRx.

Lemma store_inside buf i c :
  0 <= i < Z.of_nat (length buf) ->
  store buf i c = Some (<[Z.to_nat i := c]> buf).
Proof.
  intros Hi. unfold store.
  destruct (Z.leb_spec 0 i); [| lia]. destruct (Z.ltb_spec i (Z.of_nat (length buf))); [done | lia].
Qed.

(** The loop never writes outside the buffer and leaves the position
    inside it while the line is incomplete. *)
Lemma read_chars_safe avail : forall buf i,
  length buf = Z.to_nat buffSize -> 0 <= i < buffSize ->
  exists buf' i' complete unread,
    read_chars avail buf i = Some (buf', i', complete, unread) /\
    length buf' = Z.to_nat buffSize /\
    (complete = false -> 0 <= i' < buffSize /\ unread = []) /\
    (complete = true -> 1 <= i' <= buffSize) /\
    (exists used, avail = used ++ unread).
Proof.
  unfold buffSize.
  induction avail as [| c rest IH]; intros buf i Hlen Hi.
  { exists buf, i, false, []. cbn.
    split; [done |]. split; [done |]. split; [intros _; split; [lia | done] |].
    split; [done |]. by exists []. }
  cbn [read_chars]. unfold buffSize.
  set (rc := if Ascii.eqb (if i =? 61 - 1 then newline else c) newline then nul
             else if i =? 61 - 1 then newline else c).
  rewrite store_inside by lia.
  rewrite int_id by (unfold CInt.is_int, CInt.INT_MIN, CInt.INT_MAX; lia).
  destruct (Ascii.eqb rc nul) eqn:Hrc.
  - eexists _, _, true, rest. split; [done |]. rewrite length_insert.
    split; [done |]. split; [done |]. split; [lia |]. by exists [c].
  - assert (Hi' : i <> 60).
    { intros ->. subst rc. cbn in Hrc. done. }
    destruct (IH (<[Z.to_nat i := rc]> buf) (i + 1)) as (buf' & i' & done' & unread & E & H1 & H2 & H3 & used & H4).
    { by rewrite length_insert. }
    { lia. }
    exists buf', i', done', unread. split; [done |]. split; [done |].
    split; [done |]. split; [done |]. exists (c :: used). by rewrite H4.
Qed.

Lemma length_sanitize buf : length (sanitize buf) = length buf.
Proof.
  unfold sanitize. cbn zeta.
  rewrite length_app, length_map, length_take, length_drop, length_insert. lia.
Qed.

Lemma interpret_length buf sm code :
  length (snd (fst (interpret buf sm code))) = length buf.
Proof.
  unfold interpret. cbn zeta.
  destruct (Ascii.eqb (toupper _) (ascii_of_nat 88)); [reflexivity |].
  destruct (Ascii.eqb (toupper _) (ascii_of_nat 65)); [cbn [fst snd]; apply length_sanitize |].
  destruct (Ascii.eqb (toupper _) (ascii_of_nat 80)); [cbn [fst snd]; apply length_sanitize |].
  destruct (Ascii.eqb _ (ascii_of_nat 63)); reflexivity.
Qed.

(** Characters that end no line are stored one after the other. *)
Lemma read_chars_stored a : forall pre tl b,
  (length pre + length a <= 60)%nat -> length (pre ++ tl) = 61%nat ->
  Forall (fun c => plain c = true) a ->
  read_chars (a ++ b) (pre ++ tl) (Z.of_nat (length pre))
  = read_chars b (pre ++ a ++ drop (length a) tl) (Z.of_nat (length pre + length a)).
Proof.
  induction a as [| c a IH]; intros pre tl b Hfit Hlen Hplain.
  { cbn [app length drop]. by rewrite Nat.add_0_r. }
  apply Forall_cons in Hplain as [Hc Hplain]. cbn [length] in Hfit.
  rewrite length_app in Hlen.
  destruct tl as [| x tl]; [cbn in Hlen; lia |].
  cbn [app read_chars]. unfold buffSize.
  destruct (Z.eqb_spec (Z.of_nat (length pre)) (61 - 1)) as [E | _]; [lia |].
  unfold plain in Hc. apply andb_prop in Hc as [Hnl Hnul].
  apply negb_true_iff in Hnl, Hnul. rewrite Hnl, Hnul.
  rewrite store_inside by (rewrite length_app; cbn [length]; lia).
  rewrite Nat2Z.id.
  replace (<[length pre := c]> (pre ++ x :: tl)) with ((pre ++ [c]) ++ tl).
  2: { rewrite insert_app_r_alt by lia. rewrite Nat.sub_diag. cbn. by rewrite <- app_assoc. }
  rewrite int_id by (unfold CInt.is_int, CInt.INT_MIN, CInt.INT_MAX; lia).
  replace (Z.of_nat (length pre) + 1) with (Z.of_nat (length (pre ++ [c])))
    by (rewrite length_app; cbn [length]; lia).
  rewrite (IH (pre ++ [c]) tl b).
  - rewrite <- !app_assoc. cbn [app length drop].
    f_equal. rewrite length_app. cbn [length]. lia.
  - rewrite length_app. cbn [length]. lia.
  - rewrite !length_app. cbn [length] in *. lia.
  - done.
Qed.

Lemma read_chars_plain a pre tl b :
  (length pre + length a <= 60)%nat -> length (pre ++ tl) = 61%nat ->
  Forall (fun c => plain c = true) a ->
  exists tl', (length tl' + length a = length tl)%nat /\
    read_chars (a ++ b) (pre ++ tl) (Z.of_nat (length pre))
    = read_chars b (pre ++ a ++ tl') (Z.of_nat (length pre + length a)).
Proof.
  intros Hfit Hlen Hplain. exists (drop (length a) tl). split.
  - rewrite length_drop. rewrite length_app in Hlen. lia.
  - by apply read_chars_stored.
Qed.

End ReceiveFacts.

(** X28.  [Simul::receiveValues] never writes outside its buffer of 61
    characters: between calls the position of the next character lies in 0
    to 60, whatever arrives on the serial line (a line longer than 60
    characters is cut there), every call returns with the buffer of the same
    size and the position inside it, and the characters it has not read are
    the end of those that were available. *)
Theorem receive_stays_inside_buffer avail st :
  SimulRx.wf st ->
  exists st' out unread,
    SimulRx.receiveValues avail st = Some (st', out, unread) /\
    SimulRx.wf st' /\
    (exists used, avail = used ++ unread).
Proof.
  intros (Hlen & Hi).
  destruct (read_chars_safe avail (SimulRx.RxBuffer st) (SimulRx.i st) Hlen Hi)
    as (buf' & i' & complete & unread & E & Hlen' & Hw & Hc & Hused).
  unfold SimulRx.receiveValues. rewrite E.
  destruct complete.
  - pose proof (interpret_length buf' (SimulRx.sim st) (SimulRx.printCode st)) as Hil.
    destruct (CInt.int (i' - 1) >? 0).
    + destruct (SimulRx.interpret buf' (SimulRx.sim st) (SimulRx.printCode st))
        as [[[sim' code'] buf2] out]. cbn [fst snd] in Hil.
      eexists _, _, _. split; [done |]. split; [| done].
      unfold SimulRx.wf. cbn. rewrite length_insert, Hil, Hlen'.
      unfold SimulRx.buffSize. split; [done | lia].
    + eexists _, _, _. split; [done |]. split; [| done].
      unfold SimulRx.wf. cbn. rewrite length_insert, Hlen'.
      unfold SimulRx.buffSize. split; [done | lia].
  - destruct (Hw eq_refl) as (Hi' & ->).
    eexists _, _, _. split; [done |]. split; [| done].
    unfold SimulRx.wf. cbn. done.
Qed.

Lemma receive_stays_inside_buffer_witness :
  match SimulRx.receiveValues Scenes.long_line SimulRx.init with
  | Some (st', _, _) => SimulRx.wf st'
  | None => False
  end.
Proof.
  destruct (receive_stays_inside_buffer Scenes.long_line SimulRx.init)
    as (st' & out & unread & E & W & _).
  - vm_compute. split; [reflexivity | split; [discriminate | reflexivity]].
  - rewrite E. exact W.
Defined.

Section CommandFacts.
Import SimulRx.

Lemma strlen_app l tl :
  Forall (fun c => Ascii.eqb c nul = false) l -> strlen (l ++ nul :: tl) = length l.
Proof.
  induction 1 as [| c l Hc _ IH]; [done |]. cbn [app strlen length]. by rewrite Hc, IH.
Qed.

Lemma cstring_app l tl :
  Forall (fun c => Ascii.eqb c nul = false) l -> cstring (l ++ nul :: tl) = l.
Proof. intros H. unfold cstring. rewrite strlen_app by done. apply take_app_length. Qed.

Lemma isdigit_plain c : isdigit c = true -> plain c = true.
Proof.
  intros H. unfold plain.
  destruct (Ascii.eqb_spec c newline) as [-> | _]; [done |].
  destruct (Ascii.eqb_spec c nul) as [-> | _]; done.
Qed.

Lemma isdigit_not_blank c : isdigit c = true -> Ascii.eqb c blank = false.
Proof. intros H. destruct (Ascii.eqb_spec c blank) as [-> | _]; done. Qed.

Lemma plain_not_nul c : plain c = true -> Ascii.eqb c nul = false.
Proof. unfold plain. intros H. apply andb_prop in H as [_ H]. by apply negb_true_iff. Qed.

Lemma digit_range c : isdigit c = true -> 0 <= digit c <= 9.
Proof.
  unfold isdigit, digit. intros H. apply andb_prop in H as [H1 H2].
  apply Nat.leb_le in H1, H2. lia.
Qed.

Lemma skip_blanks_replicate k s : skip_blanks (replicate k blank ++ s) = skip_blanks s.
Proof. induction k as [| k IH]; [done |]. cbn [replicate app skip_blanks]. exact IH. Qed.

Lemma skip_blanks_digit c s : isdigit c = true -> skip_blanks (c :: s) = c :: s.
Proof. intros H. cbn [skip_blanks]. by rewrite isdigit_not_blank. Qed.

Lemma read_digits_app ds : forall acc s,
  Forall (fun c => isdigit c = true) ds -> stops s ->
  read_digits acc (ds ++ s) = (fold_left (fun acc c => 10 * acc + digit c) ds acc, s).
Proof.
  induction ds as [| c ds IH]; intros acc s Hds Hs.
  - cbn [app fold_left]. destruct s as [| c s]; [done |].
    cbn [read_digits]. cbn in Hs. by rewrite Hs.
  - apply Forall_cons in Hds as [Hc Hds]. cbn [app read_digits fold_left].
    rewrite Hc. by apply IH.
Qed.

Lemma scan_number_spec k ds s :
  ds <> [] -> Forall (fun c => isdigit c = true) ds -> stops s ->
  scan_number (replicate k blank ++ ds ++ s) = Some (number ds, s).
Proof.
  intros Hne Hds Hs. unfold scan_number. rewrite skip_blanks_replicate.
  destruct ds as [| c ds]; [done |].
  pose proof Hds as Hds'. apply Forall_cons in Hds' as [Hc _].
  cbn [app]. rewrite skip_blanks_digit by done. rewrite Hc.
  change (c :: ds ++ s) with ((c :: ds) ++ s).
  by rewrite read_digits_app.
Qed.

Lemma digits_bound ds : forall acc,
  Forall (fun c => isdigit c = true) ds -> 0 <= acc ->
  acc * 10 ^ Z.of_nat (length ds)
  <= fold_left (fun acc c => 10 * acc + digit c) ds acc
  < (acc + 1) * 10 ^ Z.of_nat (length ds).
Proof.
  induction ds as [| c ds IH]; intros acc Hds Hacc.
  - cbn. lia.
  - apply Forall_cons in Hds as [Hc Hds]. pose proof (digit_range c Hc) as Hd.
    cbn [fold_left length]. rewrite Nat2Z.inj_succ, Z.pow_succ_r by lia.
    specialize (IH (10 * acc + digit c) Hds ltac:(lia)).
    pose proof (Z.pow_pos_nonneg 10 (Z.of_nat (length ds)) ltac:(lia) ltac:(lia)) as Hp.
    nia.
Qed.

Lemma number_four_digits ds :
  Forall (fun c => isdigit c = true) ds -> (length ds <= 4)%nat -> 0 <= number ds <= 9999.
Proof.
  intros Hds Hlen. pose proof (digits_bound ds 0 Hds ltac:(lia)) as H. fold (number ds) in H.
  assert (10 ^ Z.of_nat (length ds) <= 10 ^ 4) by (apply Z.pow_le_mono_r; lia).
  change (10 ^ 4) with 10000 in *. lia.
Qed.

Lemma sanitized_digits ds :
  Forall (fun c => isdigit c = true) ds ->
  map (fun c => if isdigit c then c else blank) ds = ds.
Proof. induction 1 as [| c ds Hc _ IH]; [done |]. cbn. by rewrite Hc, IH. Qed.

Lemma sanitized_separator sep :
  Forall (fun c => isdigit c = false) sep ->
  map (fun c => if isdigit c then c else blank) sep = replicate (length sep) blank.
Proof. induction 1 as [| c ds Hc _ IH]; [done |]. cbn. by rewrite Hc, IH. Qed.

Lemma sanitized_not_nul l :
  Forall (fun c => plain c = true) l ->
  Forall (fun c => Ascii.eqb c nul = false)
         (map (fun c => if isdigit c then c else blank) l).
Proof.
  intros H. apply Forall_fmap. eapply Forall_impl; [exact H |].
  intros c Hc. cbn. destruct (isdigit c); [by apply plain_not_nul | done].
Qed.

(** The buffer that holds a complete line: how [sanitize] rewrites it. *)
Lemma sanitize_line c0 l tl :
  Forall (fun c => plain c = true) l ->
  sanitize ((c0 :: l) ++ nul :: tl)
  = (blank :: map (fun c => if isdigit c then c else blank) l) ++ nul :: tl.
Proof.
  intros Hl. unfold sanitize. cbn zeta. cbn [app insert list_insert].
  change (blank :: l ++ nul :: tl) with ((blank :: l) ++ nul :: tl).
  rewrite strlen_app.
  2: { constructor; [done |]. eapply Forall_impl; [exact Hl |]. apply plain_not_nul. }
  rewrite take_app_length, drop_app_length. done.
Qed.

(** A complete line that arrives on the idle receiver. *)
Lemma read_line line rest buf :
  length buf = 61%nat -> (length line <= 60)%nat ->
  Forall (fun c => plain c = true) line ->
  exists tl, length (line ++ nul :: tl) = 61%nat /\
    read_chars (line ++ newline :: rest) buf 0
    = Some (line ++ nul :: tl, Z.of_nat (length line) + 1, true, rest).
Proof.
  intros Hlen Hfit Hplain.
  destruct (read_chars_plain line [] buf (newline :: rest)) as (tl' & Htl & E);
    [cbn [length]; lia | done | done |].
  cbn [app length] in E. change (Z.of_nat 0) with 0 in E. rewrite E. clear E.
  destruct tl' as [| x tl]; [cbn [length] in Htl; lia |].
  exists tl. split; [rewrite length_app in *; cbn [length] in *; lia |].
  cbn [read_chars]. unfold buffSize.
  assert (Hrc : (if Ascii.eqb (if Z.of_nat (0 + length line) =? 61 - 1 then newline else newline)
                      newline then nul
                 else if Z.of_nat (0 + length line) =? 61 - 1 then newline else newline) = nul).
  { by destruct (Z.of_nat (0 + length line) =? 61 - 1). }
  rewrite Hrc.
  rewrite store_inside by (rewrite length_app; cbn [length] in *; lia).
  rewrite Nat2Z.id. cbn [Nat.add].
  rewrite insert_app_r_alt by lia. rewrite Nat.sub_diag. cbn [insert list_insert].
  rewrite int_id by (unfold CInt.is_int, CInt.INT_MIN, CInt.INT_MAX; lia).
  reflexivity.
Qed.

End CommandFacts.

(** X29.  The command [P] sets the simulated powers.  A line that starts
    with [P] or [p] and then holds two numbers of one to four digits, with
    any characters that are no digits before the first and at least one
    between the two, received on the idle receiver in one call, selects the
    simulation of powers, stores the first number as generated and the second
    as consumed power (both within 0 to 9999, so within [int]), leaves the
    other settings and the print code alone, is echoed, and leaves the
    characters behind the end of the line unread. *)
Theorem power_command_sets_powers c0 sep1 ds1 sep2 ds2 rest st :
  SimulRx.wf st -> SimulRx.i st = 0 ->
  SimulRx.toupper c0 = ascii_of_nat 80 ->
  Forall (fun c => SimulRx.plain c = true) (sep1 ++ sep2) ->
  Forall (fun c => SimulRx.isdigit c = false) (sep1 ++ sep2) ->
  sep2 <> [] ->
  Forall (fun c => SimulRx.isdigit c = true) (ds1 ++ ds2) ->
  (1 <= length ds1 <= 4)%nat -> (1 <= length ds2 <= 4)%nat ->
  (1 + length sep1 + length ds1 + length sep2 + length ds2 <= 60)%nat ->
  let line := c0 :: sep1 ++ ds1 ++ sep2 ++ ds2 in
  exists st',
    SimulRx.receiveValues (line ++ SimulRx.newline :: rest) st
    = Some (st', [SimulRx.SayNewline;
                  SimulRx.SayPowers (SimulRx.number ds1) (SimulRx.number ds2)], rest) /\
    Simul.mode (SimulRx.sim st') = Simul.SIMUL_POWER /\
    Simul.Pg (SimulRx.sim st') = SimulRx.number ds1 /\
    Simul.Pc (SimulRx.sim st') = SimulRx.number ds2 /\
    Simul.in_range (SimulRx.sim st') = true /\
    Simul.AmplIg (SimulRx.sim st') = Simul.AmplIg (SimulRx.sim st) /\
    Simul.AmplIc (SimulRx.sim st') = Simul.AmplIc (SimulRx.sim st) /\
    Simul.AmplVx (SimulRx.sim st') = Simul.AmplVx (SimulRx.sim st) /\
    Simul.ShiftIg (SimulRx.sim st') = Simul.ShiftIg (SimulRx.sim st) /\
    Simul.ShiftIc (SimulRx.sim st') = Simul.ShiftIc (SimulRx.sim st) /\
    Simul.ValV0 (SimulRx.sim st') = Simul.ValV0 (SimulRx.sim st) /\
    SimulRx.printCode st' = SimulRx.printCode st /\
    SimulRx.i st' = 0.
Proof.
  intros (Hlen & _) Hidle Hc0 Hplain Hsep Hne Hds L1 L2 Hfit line.
  apply Forall_app in Hplain as [Hp1 Hp2]. apply Forall_app in Hsep as [Hs1 Hs2].
  apply Forall_app in Hds as [Hd1 Hd2].
  assert (Hpd1 : Forall (fun c => SimulRx.plain c = true) ds1).
  { eapply Forall_impl; [exact Hd1 |]. apply isdigit_plain. }
  assert (Hpd2 : Forall (fun c => SimulRx.plain c = true) ds2).
  { eapply Forall_impl; [exact Hd2 |]. apply isdigit_plain. }
  assert (Hbody : Forall (fun c => SimulRx.plain c = true) (sep1 ++ ds1 ++ sep2 ++ ds2)).
  { repeat (apply Forall_app; split); done. }
  assert (Hp0 : SimulRx.plain c0 = true).
  { unfold SimulRx.plain.
    destruct (Ascii.eqb_spec c0 SimulRx.newline) as [-> | _]; [by vm_compute in Hc0 |].
    destruct (Ascii.eqb_spec c0 SimulRx.nul) as [-> | _]; [by vm_compute in Hc0 | done]. }
  assert (Hlline : length line = (1 + length sep1 + length ds1 + length sep2 + length ds2)%nat).
  { subst line. cbn [length]. rewrite !length_app. lia. }
  destruct (read_line line rest (SimulRx.RxBuffer st)) as (tl & Htl & E).
  { exact Hlen. } { lia. } { by constructor. }
  pose proof (number_four_digits ds1 Hd1 ltac:(lia)) as N1.
  pose proof (number_four_digits ds2 Hd2 ltac:(lia)) as N2.
  unfold SimulRx.receiveValues. rewrite Hidle, E.
  replace (Z.of_nat (length line) + 1 - 1) with (Z.of_nat (length line)) by lia.
  rewrite int_id by (unfold CInt.is_int, CInt.INT_MIN, CInt.INT_MAX; lia).
  destruct (Z.gtb_spec (Z.of_nat (length line)) 0) as [_ | Hz]; [| lia].
  unfold SimulRx.interpret. cbn zeta.
  change (default SimulRx.nul ((line ++ SimulRx.nul :: tl) !! 0%nat)) with c0.
  rewrite Hc0.
  change (Ascii.eqb (ascii_of_nat 80) (ascii_of_nat 88)) with false.
  change (Ascii.eqb (ascii_of_nat 80) (ascii_of_nat 65)) with false.
  change (Ascii.eqb (ascii_of_nat 80) (ascii_of_nat 80)) with true.
  cbn iota.
  subst line. rewrite (sanitize_line c0 _ tl Hbody).
  rewrite cstring_app by (constructor; [done | by apply sanitized_not_nul]).
  rewrite !map_app, (sanitized_separator sep1), (sanitized_separator sep2),
    (sanitized_digits ds1), (sanitized_digits ds2) by done.
  assert (Hscan : SimulRx.scan_numbers 2
            (SimulRx.blank :: replicate (length sep1) SimulRx.blank ++ ds1
               ++ replicate (length sep2) SimulRx.blank ++ ds2)
          = [SimulRx.number ds1; SimulRx.number ds2]).
  { cbn [SimulRx.scan_numbers].
    change (SimulRx.blank :: replicate (length sep1) SimulRx.blank ++ ?l)
      with (replicate (S (length sep1)) SimulRx.blank ++ l).
    rewrite scan_number_spec; [| by destruct ds1; [cbn in L1; lia |] | done |].
    2: { destruct sep2 as [| x sep2]; [done | reflexivity]. }
    rewrite <- (app_nil_r ds2) at 1.
    rewrite scan_number_spec; [done | by destruct ds2; [cbn in L2; lia |] | done | done]. }
  rewrite Hscan. unfold SimulRx.assigned. cbn [lookup list_lookup].
  rewrite !int_id by (unfold CInt.is_int, CInt.INT_MIN, CInt.INT_MAX; lia).
  eexists. split; [reflexivity |]. cbn.
  repeat match goal with |- _ /\ _ => split end; try reflexivity.
  unfold Simul.in_range, CInt.int_ok, CInt.INT_MIN, CInt.INT_MAX. cbn [Simul.Pg Simul.Pc].
  repeat (apply andb_true_intro; split); apply Z.leb_le; lia.
Qed.

Lemma power_command_sets_powers_witness :
  exists st',
    SimulRx.receiveValues Scenes.power_line SimulRx.init
    = Some (st', [SimulRx.SayNewline; SimulRx.SayPowers 1500 300], []) /\
    Simul.Pg (SimulRx.sim st') = 1500 /\ Simul.Pc (SimulRx.sim st') = 300.
Proof.
  destruct (power_command_sets_powers (ascii_of_nat 80) [SimulRx.blank]
              (list_ascii_of_string "1500") (list_ascii_of_string ", ")
              (list_ascii_of_string "300") [] SimulRx.init)
    as (st' & E & _ & Hg & Hc & _).
  - vm_compute. split; [reflexivity | split; [discriminate | reflexivity]].
  - reflexivity.
  - reflexivity.
  - repeat constructor.
  - repeat constructor.
  - discriminate.
  - repeat constructor.
  - cbn. lia.
  - cbn. lia.
  - cbn. lia.
  - exists st'. split; [exact E |]. split; [exact Hg | exact Hc].
Defined.

(** X30.  A line may arrive in pieces.  Characters that end no line and
    fit the buffer are only stored by [Simul::receiveValues]: the call
    prints nothing, reads them all and changes neither the simulation
    settings nor the print code; and a later call then does exactly what one
    call would have done with the earlier characters in front of its own. *)
Theorem line_may_arrive_in_pieces a b st :
  SimulRx.wf st ->
  Forall (fun c => SimulRx.plain c = true) a ->
  SimulRx.i st + Z.of_nat (length a) <= 60 ->
  exists st_a,
    SimulRx.receiveValues a st = Some (st_a, [], []) /\
    SimulRx.sim st_a = SimulRx.sim st /\
    SimulRx.printCode st_a = SimulRx.printCode st /\
    SimulRx.i st_a = SimulRx.i st + Z.of_nat (length a) /\
    SimulRx.receiveValues b st_a = SimulRx.receiveValues (a ++ b) st.
Proof.
  unfold SimulRx.wf, SimulRx.buffSize. intros (Hlen & Hi) Hplain Hfit.
  set (pre := take (Z.to_nat (SimulRx.i st)) (SimulRx.RxBuffer st)).
  set (tl := drop (Z.to_nat (SimulRx.i st)) (SimulRx.RxBuffer st)).
  assert (Hbuf : SimulRx.RxBuffer st = pre ++ tl) by (symmetry; apply take_drop).
  assert (Hpre : Z.of_nat (length pre) = SimulRx.i st).
  { subst pre. rewrite length_take. lia. }
  assert (Hsplit : forall b',
            SimulRx.read_chars (a ++ b') (SimulRx.RxBuffer st) (SimulRx.i st)
            = SimulRx.read_chars b' (pre ++ a ++ drop (length a) tl)
                (SimulRx.i st + Z.of_nat (length a))).
  { intros b'. rewrite Hbuf, <- Hpre.
    rewrite read_chars_stored; [f_equal; lia | lia | by rewrite <- Hbuf | done]. }
  eexists. split; [| split; [| split; [| split]]].
  - unfold SimulRx.receiveValues.
    rewrite <- (app_nil_r a) at 1. rewrite Hsplit. cbn [SimulRx.read_chars].
    reflexivity.
  - reflexivity.
  - reflexivity.
  - reflexivity.
  - unfold SimulRx.receiveValues. rewrite Hsplit. reflexivity.
Qed.

Lemma line_may_arrive_in_pieces_witness :
  SimulRx.receiveValues (list_ascii_of_string "1500, 300" ++ [SimulRx.newline])
    (Scenes.half_line_received)
  = SimulRx.receiveValues Scenes.power_line SimulRx.init.
Proof.
  destruct (line_may_arrive_in_pieces (list_ascii_of_string "P ")
              (list_ascii_of_string "1500, 300" ++ [SimulRx.newline]) SimulRx.init)
    as (st_a & E & _ & _ & _ & H).
  - vm_compute. split; [reflexivity | split; [discriminate | reflexivity]].
  - repeat constructor.
  - vm_compute. discriminate.
  - injection E as <-. exact H.
Defined.
